(** * KMCP: index construction, search output and profiling

    A shallow embedding of three commands of kmcp
    ([kmcp/cmd/index.go], the [search] command and the [profile] command)
    together with the properties of their batching, Bloom-filter filling,
    result serialisation and profile aggregation code.

    Conventions of the embedding.
    - Go [int] and [uint64] values are [Z]; arithmetic that can leave the
      64-bit range is written with its wrap-around ([int_add], [uint64_add]).
    - Go [float64] values are Rocq's primitive binary64 floats, so that
      [+], [/], [<] and [<=] are the IEEE-754 operations the program runs.
    - A Go map is a [gmap]; where the program ranges over a map, the
      enumeration order (unspecified in Go) is an explicit list argument.
    - A Go slice is a [list]; an index outside the slice is a run-time
      panic, [Panic] below.  [checkError] on a non-nil error logs it and
      exits the process, [Fatal] below.
    - Functions of packages outside the repository ([strconv], [xxh3],
      [sorts]) are the fields of the classes [Strconv], [Xxh3] and the
      argument [Quicksort]. *)

From Stdlib Require Import ZArith Lia Bool.
From Stdlib Require Import Floats.
From stdpp Require Import gmap strings list sorting.

Open Scope Z_scope.

(* ===================================================================== *)
(** * Go-level primitives                                                 *)
(* ===================================================================== *)

Module Go.

(** What running a piece of the program ends in. *)
Inductive outcome (A : Type) : Type :=
| Done (a : A)            (* normal completion *)
| Fatal (msg : string)    (* checkError(err) with err != nil: log, exit *)
| Panic.                  (* run-time panic: index out of range, make(-1) *)
Arguments Done {A} a.
Arguments Fatal {A} msg.
Arguments Panic {A}.

Definition bind {A B} (k : A → outcome B) (c : outcome A) : outcome B :=
  match c with
  | Done a => k a
  | Fatal msg => Fatal msg
  | Panic => Panic
  end.

#[global] Instance outcome_bind : MBind outcome := @bind.
#[global] Instance outcome_ret : MRet outcome := @Done.

Definition is_done {A} (c : outcome A) : bool :=
  match c with Done _ => true | _ => false end.

(** [for _, x := range xs { st = body st x }] where the body may stop the
    program. *)
Fixpoint foldM {A S} (body : S → A → outcome S) (xs : list A) (st : S)
  : outcome S :=
  match xs with
  | [] => Done st
  | x :: xs' => st' ← body st x; foldM body xs' st'
  end.

(** Two's-complement wrap of a 64-bit signed integer. *)
Definition wrap_int (z : Z) : Z := (z + 2 ^ 63) mod 2 ^ 64 - 2 ^ 63.
Definition int_add (a b : Z) : Z := wrap_int (a + b).

(** Wrap of a 64-bit unsigned integer; [uint64(x)] of an [int] is the same
    reduction. *)
Definition wrap_uint64 (z : Z) : Z := z mod 2 ^ 64.
Definition uint64_add (a b : Z) : Z := wrap_uint64 (a + b).
Definition uint64_sub (a b : Z) : Z := wrap_uint64 (a - b).

(** [float64(n)] for an [int] n with |n| < 2^63. *)
Definition float64_of_int (n : Z) : float :=
  if n <? 0 then PrimFloat.opp (PrimFloat.of_uint63 (Uint63.of_Z (- n)))
  else PrimFloat.of_uint63 (Uint63.of_Z n).

(** [len(xs)] as an [int]. *)
Definition len {A} (xs : list A) : Z := Z.of_nat (length xs).

(** [make([]T, n)]: panics on a negative length. *)
Definition make {A} (zero : A) (n : Z) : outcome (list A) :=
  if n <? 0 then Panic else Done (replicate (Z.to_nat n) zero).

(** [xs[i] = f(xs[i])], with Go's bounds check. *)
Definition update_at {A} (xs : list A) (i : Z) (f : A → A) : outcome (list A) :=
  if (0 <=? i) && (i <? len xs) then
    match xs !! Z.to_nat i with
    | Some x => Done (<[Z.to_nat i := f x]> xs)
    | None => Panic
    end
  else Panic.

End Go.

Import Go.

(** Packages outside the repository. *)

(** Package [strconv].  For [ParseFloat(s, 64)] and [Atoi(s)], [None] is a
    non-nil error; [FormatFloat x fmt prec] is
    [strconv.FormatFloat(x, fmt, prec, 64)]. *)
Class Strconv := {
  ParseFloat : string → option float;
  Atoi : string → option Z;
  Itoa : Z → string;
  FormatFloat : float → string → Z → string
}.

(** [xxh3.HashString]: a 64-bit hash of a string. *)
Class Xxh3 := { HashString : string → Z }.

(** [sorts.Quicksort(data)] of github.com/twotwotwo/sorts, on a slice whose
    [sort.Interface] compares elements with [less]. *)
Class Sorts := { Quicksort : ∀ {A : Type}, (A → A → bool) → list A → list A }.

(** Modelled from the spec: [checkError] is a helper of the repository that
    is not among the sources at hand.  Section 7 of the specification has
    fatal errors end the run with one descriptive line, and every caller
    relies on that: on a non-nil error the process exits. *)
Definition checkError (err : option string) : outcome unit :=
  match err with
  | None => Done ()
  | Some msg => Fatal msg
  end.

(* ===================================================================== *)
(** * The profile command                                                *)
(* ===================================================================== *)

Module Profiler.

(** One line of the search result, [type MatchResult struct]. *)
Record MatchResult := {
  Query : string;
  QLen : Z;
  QKmers : Z;
  FPR : float;
  Hits : Z;
  Target : string;
  FragIdx : Z;
  IdxNum : Z;
  MKmers : Z;
  QCov : float
}.

(** [type Target struct]; the name [Target] is the field of [MatchResult]
    above, so the struct is [TargetRec] here. *)
Record TargetRec := {
  Name : string;
  Match : list float;      (* counting matches in all frags *)
  UniqMatch : list Z;      (* unique match *)
  FragLens : list Z;       (* sum of read (query) length, uint64 *)
  SumUniqMatch : Z;
  FragsProp : float;
  MeanAbundance : float
}.

(** The flags of the command that the computation reads. *)
Record Options := {
  maxFPR : float;          (* --max-fpr *)
  minQcov : float;         (* --max-qcov, used as a lower bound *)
  minReads : Z;            (* --min-reads *)
  minUReads : Z;           (* --min-uniq-reads *)
  minFragsProp : float     (* --min-frags-prop *)
}.

Definition zeroMatchResult : MatchResult :=
  {| Query := ""; QLen := 0; QKmers := 0; FPR := 0%float; Hits := 0;
     Target := ""; FragIdx := 0; IdxNum := 0; MKmers := 0; QCov := 0%float |}.

Section Parsing.
Context `{Strconv}.
(** [stringSplitN(line, sep, n, &items)], a helper of the repository that
    is not among the sources at hand: the contents of [items] after the
    call, for a slice that has its [n] elements when the call is made.
    The command hands the same slice to every call; [ProfileInput] follows
    it from line to line. *)
Variable stringSplitN : string → string → Z → list string.

(** [items[i]], with Go's bounds check. *)
Definition item (items : list string) (i : nat) : outcome string :=
  match items !! i with
  | Some s => Done s
  | None => Panic
  end.

(** [v, err = parse(s); if err != nil { checkError(fmt.Errorf("failed to
    parse <what>: %s", s)) }]. *)
Definition parsed {A} (what s : string) (r : option A) : outcome A :=
  match r with
  | Some v => Done v
  | None =>
      _ ← checkError (Some ("failed to parse " +:+ what +:+ ": " +:+ s));
      Panic (* not reached: checkError has left the program *)
  end.

Definition tab : string := String (Ascii.ascii_of_nat 9) EmptyString.

Definition parseMatchResult (line : string) (numFields : Z)
    (maxPFR minQcov : float) : outcome (MatchResult * bool) :=
  let items := stringSplitN line tab numFields in
  let m := zeroMatchResult in
  s3 ← item items 3;
  fpr ← parsed "FPR" s3 (ParseFloat s3);
  let m := {| Query := Query m; QLen := QLen m; QKmers := QKmers m;
              FPR := fpr; Hits := Hits m; Target := Target m;
              FragIdx := FragIdx m; IdxNum := IdxNum m; MKmers := MKmers m;
              QCov := QCov m |} in
  if (maxPFR <? fpr)%float then Done (m, false) else
  s9 ← item items 9;
  qcov ← parsed "qCov" s9 (ParseFloat s9);
  let m := {| Query := Query m; QLen := QLen m; QKmers := QKmers m;
              FPR := FPR m; Hits := Hits m; Target := Target m;
              FragIdx := FragIdx m; IdxNum := IdxNum m; MKmers := MKmers m;
              QCov := qcov |} in
  if (qcov <? minQcov)%float then Done (m, false) else
  s0 ← item items 0;
  s1 ← item items 1;
  qlen ← parsed "qLen" s1 (Atoi s1);
  s2 ← item items 2;
  qkmers ← parsed "qKmers" s2 (Atoi s2);
  s4 ← item items 4;
  hits ← parsed "hits" s4 (Atoi s4);
  s5 ← item items 5;
  s6 ← item items 6;
  fragidx ← parsed "fragIdx" s6 (Atoi s6);
  s7 ← item items 7;
  idxnum ← parsed "IdxNum" s7 (Atoi s7);
  s8 ← item items 8;
  mkmers ← parsed "mKmers" s8 (Atoi s8);
  Done ({| Query := s0; QLen := qlen; QKmers := qkmers; FPR := fpr;
           Hits := hits; Target := s5; FragIdx := fragidx; IdxNum := idxnum;
           MKmers := mkmers; QCov := qcov |}, true).

End Parsing.

(** The three loops of [profileCmd]: crediting the hits of one query,
    scanning the lines of a file, and summarising the targets. *)
Section Aggregation.
Context `{Xxh3}.

Definition floatOne : float := float64_of_int 1.

(** [if t, ok = profile[h]; !ok { t0 := Target{...}; profile[h] = &t0;
    t = &t0 }]: the target that [t] points to. *)
Definition lookup_or_new (h : Z) (profile : gmap Z TargetRec)
    (m : MatchResult) : outcome TargetRec :=
  match profile !! h with
  | Some t => Done t
  | None =>
      mt ← make 0%float (IdxNum m);
      um ← make 0 (IdxNum m);
      fl ← make 0 (IdxNum m);
      Done {| Name := Target m; Match := mt; UniqMatch := um;
              FragLens := fl; SumUniqMatch := 0; FragsProp := 0%float;
              MeanAbundance := 0%float |}
  end.

(** The body of [for _, m = range ms] for the group of key [h]:
    [ms_len] is [len(ms)] and [floatMsSize] is [float64(len(ms))]. *)
Definition credit (h : Z) (ms_len : Z) (floatMsSize : float)
    (profile : gmap Z TargetRec) (m : MatchResult)
  : outcome (gmap Z TargetRec) :=
  t ← lookup_or_new h profile m;
  mt ← update_at (Match t) (FragIdx m) (λ c, (c + floatOne / floatMsSize)%float);
  um ← (if ms_len =? 1
        then update_at (UniqMatch t) (FragIdx m) (λ u, int_add u 1)
        else Done (UniqMatch t));
  fl ← update_at (FragLens t) (FragIdx m)
         (λ l, uint64_add l (wrap_uint64 (QLen m)));
  Done (<[h := {| Name := Target m; Match := mt; UniqMatch := um;
                  FragLens := fl; SumUniqMatch := SumUniqMatch t;
                  FragsProp := FragsProp t;
                  MeanAbundance := MeanAbundance t |}]> profile).

(** One iteration of [for h, ms = range matches]. *)
Definition flush_group (profile : gmap Z TargetRec)
    (g : Z * list MatchResult) : outcome (gmap Z TargetRec) :=
  let '(h, ms) := g in
  foldM (credit h (len ms) (float64_of_int (len ms))) ms profile.

(** [for h, ms = range matches { ... }] with the groups visited in the
    order of [groups]. *)
Definition flush (groups : list (Z * list MatchResult))
    (profile : gmap Z TargetRec) : outcome (gmap Z TargetRec) :=
  foldM flush_group groups profile.

(** The variables of the scanning loop that live across lines. *)
Record scan_state := {
  profile : gmap Z TargetRec;
  matches : gmap Z (list MatchResult);   (* target -> match result *)
  prevQuery : string
}.

(** The body of the scanning loop for a line that [parseMatchResult]
    accepted. *)
Definition scan_match (st : scan_state) (match_ : MatchResult)
  : outcome scan_state :=
  pm ← (if decide (prevQuery st = Query match_)
        then Done (profile st, matches st)
        else (* new query *)
          p ← flush (map_to_list (matches st)) (profile st);
          Done (p, ∅));
  let '(p, ms) := pm in
  let hTarget := HashString (Target match_) in
  let ms := match ms !! hTarget with
            | Some _ => ms
            | None => <[hTarget := []]> ms
            end in
  let ms := <[hTarget := default [] (ms !! hTarget) ++ [match_]]> ms in
  Done {| profile := p; matches := ms; prevQuery := Query match_ |}.

(** The accepted lines of one file, then the flush after the loop. *)
Definition scan_matches (p : gmap Z TargetRec) (lines : list MatchResult)
  : outcome (gmap Z TargetRec) :=
  st ← foldM scan_match lines {| profile := p; matches := ∅; prevQuery := "" |};
  flush (map_to_list (matches st)) (profile st).

End Aggregation.

(** The summary loop [for h, t := range profile] and the ranking. *)
Section Ranking.
Context `{Sorts}.
Variable opt : Options.

(** [for _, c = range t.Match { if c > float64(minReads) { t.FragsProp++ };
    t.MeanAbundance += c }], on the two fields it updates. *)
Definition scan_fragments (cs : list float) (acc : float * float)
  : float * float :=
  fold_left
    (λ '(fragsProp, meanAbundance) c,
       ((if (float64_of_int (minReads opt) <? c)%float
         then (fragsProp + 1)%float else fragsProp),
        (meanAbundance + c)%float))
    cs acc.

(** [for _, c1 = range t.UniqMatch { t.SumUniqMatch += c1 }]. *)
Definition sum_uniq (us : list Z) (acc : Z) : Z := fold_left int_add us acc.

(** The body of the summary loop for one target: the target with its
    summary fields as the loop leaves them, and whether it was appended to
    [targets] ([false]: deleted from the profile). *)
Definition summarise (t : TargetRec) : TargetRec * bool :=
  let '(fp, ma) := scan_fragments (Match t) (FragsProp t, MeanAbundance t) in
  let fp := (fp / float64_of_int (len (Match t)))%float in
  if (fp <? minFragsProp opt)%float then
    ({| Name := Name t; Match := Match t; UniqMatch := UniqMatch t;
        FragLens := FragLens t; SumUniqMatch := SumUniqMatch t;
        FragsProp := fp; MeanAbundance := ma |}, false)
  else
    let su := sum_uniq (UniqMatch t) (SumUniqMatch t) in
    if su <? minUReads opt then
      ({| Name := Name t; Match := Match t; UniqMatch := UniqMatch t;
          FragLens := FragLens t; SumUniqMatch := su;
          FragsProp := fp; MeanAbundance := ma |}, false)
    else
      ({| Name := Name t; Match := Match t; UniqMatch := UniqMatch t;
          FragLens := FragLens t; SumUniqMatch := su; FragsProp := fp;
          MeanAbundance := (ma / float64_of_int (len (Match t)))%float |},
       true).

(** [for h, t := range profile { ... }] with the entries visited in the
    order of [entries]: the slice [targets] and the profile after the
    deletions. *)
Definition collect_step (st : list TargetRec * gmap Z TargetRec)
    (e : Z * TargetRec) : list TargetRec * gmap Z TargetRec :=
  let '(targets, profile) := st in
  let '(h, t) := e in
  let '(t', keep) := summarise t in
  if keep then (targets ++ [t'], <[h := t']> profile)
  else (targets, delete h profile).

Definition collect (entries : list (Z * TargetRec))
    (profile : gmap Z TargetRec) : list TargetRec * gmap Z TargetRec :=
  fold_left collect_step entries ([], profile).

(** [func (t Targets) Less(i, j int) bool], on the two elements. *)
Definition Less (ti tj : TargetRec) : bool :=
  (FragsProp tj <? FragsProp ti)%float
  && (MeanAbundance tj <? MeanAbundance ti)%float.

(** The targets in the order of the output lines: each line prints
    [Name], [FragsProp], [MeanAbundance] and [SumUniqMatch] of one. *)
Definition ranked (entries : list (Z * TargetRec))
    (profile : gmap Z TargetRec) : list TargetRec :=
  Quicksort Less (collect entries profile).1.

End Ranking.

(** The command on its input files, each a list of lines, from the first
    file on. *)
Section Command.
Context `{Strconv} `{Xxh3} `{Sorts}.
Variable stringSplitN : string → string → Z → list string.
(** The order in which [range profile] visits the map. *)
Variable range_profile : gmap Z TargetRec → list (Z * TargetRec).
Variable opt : Options.

Definition numFields : Z := 11.

(** The body of [for scanner.Scan()] after the header line. *)
Definition scan_line (st : scan_state) (line : string) : outcome scan_state :=
  r ← parseMatchResult stringSplitN line numFields (maxFPR opt) (minQcov opt);
  let '(match_, ok) := r in
  if ok : bool then scan_match st match_ else Done st.

(** One input file that [inStream] opens and the scanner reads to its
    end, as the lines it has: the first line is the header and is not
    parsed.  [ProfileInput] follows the errors of [inStream] and of the
    scanner. *)
Definition scan_file (p : gmap Z TargetRec) (lines : list string)
  : outcome (gmap Z TargetRec) :=
  st ← foldM scan_line (tail lines)
         {| profile := p; matches := ∅; prevQuery := "" |};
  flush (map_to_list (matches st)) (profile st).

Definition profileCmd (files : list (list string)) : outcome (list TargetRec) :=
  p ← foldM scan_file files ∅;
  Done (ranked opt (range_profile p) p).

End Command.

End Profiler.

(* ===================================================================== *)
(** * The input files of the profile command                             *)
(* ===================================================================== *)

Module ProfileInput.
Import Profiler.

(** What [inStream(file)] and the scanner give for an input file: the
    error of [inStream], else the lines that [scanner.Scan()] yields and,
    after the last of them, [scanner.Err()]. *)
Record ResultFile := {
  OpenErr : option string;
  Lines : list string;
  ScanErr : option string
}.

(** What the command meets before its first input file: the error, if
    there is one, that each place hands to [checkError], and what the call
    gives otherwise. *)
Record Startup := {
  (** [getFileListFromArgsAndFile(cmd, args, true, "infile-list", true)],
      a helper of the repository that is not among the sources at hand:
      it ends the run itself when a file that is given does not exist,
      and returns the input files otherwise. *)
  fileList : outcome (list string);
  (** Reading the name mapping files with [cliutil.ReadKVs]. *)
  nameMapErr : option string;
  (** [outStream(outFile, ...)]. *)
  outStreamErr : option string
}.

Section Run.
Context `{Strconv} `{Xxh3} `{Sorts}.
(** [stringSplitN(line, sep, n, &items)], a helper of the repository that
    is not among the sources at hand, on the slice [items] that every call
    shares: from the slice as the call finds it, the slice as the call
    leaves it, unless the call panics. *)
Variable stringSplitN : string → string → Z → list string
                        → outcome (list string).
(** The order in which [range profile] visits the map. *)
Variable range_profile : gmap Z TargetRec → list (Z * TargetRec).
Variable opt : Options.
(** The files on disk, by path. *)
Variable inStream : string → ResultFile.

(** The slice [items] and the variables of the scanning loop. *)
Record reading := {
  items : list string;
  scanned : scan_state
}.

(** The body of [for scanner.Scan()] after the header line.
    [parseMatchResult] first calls the helper on the shared slice; the
    rest of it, and of the body of the loop, reads the fields that the
    call left there. *)
Definition scan_line (st : reading) (line : string) : outcome reading :=
  items' ← stringSplitN line tab numFields (items st);
  scanned' ← Profiler.scan_line (λ _ _ _, items') opt (scanned st) line;
  Done {| items := items'; scanned := scanned' |}.

(** The body of [for _, file := range files], on [items] and [profile]:
    [checkError(err)] on the error of [inStream], the scanning loop, whose
    first line is the header and is not parsed, the loop over the matches
    of the last query and [checkError(scanner.Err())]. *)
Definition scan_file (st : list string * gmap Z TargetRec) (file : string)
  : outcome (list string * gmap Z TargetRec) :=
  let f := inStream file in
  _ ← checkError (OpenErr f);
  st' ← foldM scan_line (tail (Lines f))
          {| items := st.1;
             scanned := {| profile := st.2; matches := ∅;
                           prevQuery := "" |} |};
  p ← flush (map_to_list (matches (scanned st'))) (profile (scanned st'));
  _ ← checkError (ScanErr f);
  Done (items st', p).

(** [profileCmd] once its flags are read: the targets in the order of the
    output lines.  [items := make([]string, numFields)] is made once,
    before the first file. *)
Definition profileFiles (s : Startup) : outcome (list TargetRec) :=
  files ← fileList s;
  _ ← checkError (nameMapErr s);
  _ ← checkError (outStreamErr s);
  st ← foldM scan_file files (replicate (Z.to_nat numFields) ""%string, ∅);
  Done (ranked opt (range_profile st.2) st.2).

End Run.

End ProfileInput.

(** Go's [insertionSort], which sorting packages run on short slices:
    each element in turn moves left past the neighbours it is [less]
    than.  [sink] works on the reversed prefix. *)
Fixpoint sink {A} (less : A → A → bool) (x : A) (rprefix : list A) : list A :=
  match rprefix with
  | [] => [x]
  | y :: rest => if less x y then y :: sink less x rest else x :: rprefix
  end.

Definition insertionSort {A} (less : A → A → bool) (xs : list A) : list A :=
  rev (fold_left (λ rprefix x, sink less x rprefix) xs []).

(* ===================================================================== *)
(** * The search command                                                 *)
(* ===================================================================== *)

Module Searcher.

(** A hit of a query, with the fields of the engine's [Match] that
    [searchCmd] reads. *)
Record Match := {
  Target : list string;
  TargetIdx : list Z;      (* uint32: fragment count << 16 | fragment index *)
  GenomeSize : list Z;     (* uint64 *)
  NumKmers : Z;
  QCov : float;
  TCov : float;
  JaccardIndex : float
}.

(** The engine's [QueryResult], with the fields that [searchCmd] reads;
    [Matches] is a pointer to a slice, [None] for [nil]. *)
Record QueryResult := {
  QueryIdx : Z;            (* uint64 *)
  QueryID : string;
  QueryLen : Z;
  QNumKmers : Z;           (* the field NumKmers of QueryResult *)
  FPR : float;
  K : Z;
  Matches : option (list Match)
}.

(** A query as it is put on [sg.InCh]. *)
Record Query := {
  Idx : Z;                 (* uint64 *)
  ID : string;
  Seq : string
}.

(** The part of a loaded database that the command reads, [db.Info.FPR]. *)
Record DBInfo := { InfoFPR : float }.

(** One line of the output, column by column as in the header row. *)
Record Line := {
  query : string;
  qLen : string;
  qKmers : string;
  cFPR : string;
  hits : string;
  target : string;
  fragIdx : string;
  frags : string;
  tLen : string;
  kSize : string;
  mKmers : string;
  qCov : string;
  tCov : string;
  jacc : string;
  queryIdx : string
}.

(** The flags of the command that the modelled part reads. *)
Record Options := {
  sortBy : string;
  queryCov : float;        (* --min-query-cov *)
  targetCov : float;       (* --min-target-cov *)
  keepUnmatched : bool
}.

(** [keepOrder := true] in the command: the flag is commented out. *)
Definition keepOrder : bool := true.

Section Output.
Context `{Strconv}.
Variable opt : Options.

(** [xs[0]]. *)
Definition first {A} (xs : list A) : outcome A :=
  match xs with
  | x :: _ => Done x
  | [] => Panic
  end.

(** The record written for a result with [Matches == nil]. *)
Definition unmatched_line (result : QueryResult) : Line :=
  {| query := QueryID result;
     qLen := Itoa (QueryLen result);
     qKmers := Itoa (QNumKmers result);
     cFPR := FormatFloat (FPR result) "e" 4;
     hits := "0";
     target := "";
     fragIdx := "-1";
     frags := "0";
     tLen := "0";
     kSize := Itoa (K result);
     mKmers := "0";
     qCov := "0";
     tCov := "0";
     jacc := "0";
     queryIdx := Itoa (wrap_int (QueryIdx result)) |}.

(** The record written for one element of [*result.Matches]. *)
Definition matched_line (result : QueryResult) (nhits : Z) (match_ : Match)
  : outcome Line :=
  tgt ← first (Target match_);
  tidx ← first (TargetIdx match_);
  gsize ← first (GenomeSize match_);
  Done {| query := QueryID result;
          qLen := Itoa (QueryLen result);
          qKmers := Itoa (QNumKmers result);
          cFPR := FormatFloat (FPR result) "e" 4;
          hits := Itoa nhits;
          target := tgt;
          fragIdx := Itoa (tidx mod 2 ^ 16);
          frags := Itoa (Z.shiftr tidx 16);
          tLen := Itoa (wrap_int gsize);
          kSize := Itoa (K result);
          mKmers := Itoa (NumKmers match_);
          qCov := FormatFloat (QCov match_) "f" 4;
          tCov := FormatFloat (TCov match_) "f" 4;
          jacc := FormatFloat (JaccardIndex match_) "f" 4;
          queryIdx := Itoa (wrap_int (QueryIdx result)) |}.

(** The body of the writing loop [for result := range ch]: the lines it
    appends to the output for one result. *)
Definition write_result (result : QueryResult) : outcome (list Line) :=
  match Matches result with
  | None =>
      if negb (keepUnmatched opt) then Done []
      else Done [unmatched_line result]
  | Some ms =>
      (* found *)
      foldM (λ out match_,
               l ← matched_line result (len ms) match_; Done (out ++ [l]))
            ms []
  end.

(** The writing goroutine on the results it receives from [ch], in order. *)
Definition write_all (results : list QueryResult) : outcome (list Line) :=
  foldM (λ out result, ls ← write_result result; Done (out ++ ls)) results [].

End Output.

(** The goroutine that receives from [sg.OutCh] and sends to [ch], in its
    [keepOrder] branch. *)
Section Reorder.

Record reorder_state := {
  m : gmap Z QueryResult;
  id : Z;                     (* uint64 *)
  sent : list QueryResult     (* what went into ch, oldest first *)
}.

(** The body of [for result := range sg.OutCh]. *)
Definition reorder_step (st : reorder_state) (result : QueryResult)
  : reorder_state :=
  let _id := QueryIdx result in
  if decide (_id = id st) then
    {| m := m st; id := uint64_add (id st) 1; sent := sent st ++ [result] |}
  else
    let m' := <[_id := result]> (m st) in
    match m' !! id st with
    | Some result' =>
        {| m := delete (id st) m'; id := uint64_add (id st) 1;
           sent := sent st ++ [result'] |}
    | None => {| m := m'; id := id st; sent := sent st |}
    end.

(** [sortutil.Uint64s(ids)] on the keys of [m]. *)
Definition sorted_ids (m : gmap Z QueryResult) : list Z :=
  merge_sort Z.le (map_to_list m).*1.

(** After the loop: [if len(m) > 0 { ... ch <- m[id] ... }]. *)
Definition reorder_finish (st : reorder_state) : list QueryResult :=
  if decide (0 < size (m st))%nat
  then sent st ++ omap (λ id, m st !! id) (sorted_ids (m st))
  else sent st.

(** Everything sent to [ch] for the results arriving in the order of
    [arrivals]. *)
Definition reorder (arrivals : list QueryResult) : list QueryResult :=
  reorder_finish
    (fold_left reorder_step arrivals {| m := ∅; id := 0; sent := [] |}).

End Reorder.

(** The command from the loaded databases on. *)
Section Command.
Context `{Strconv}.
Variable opt : Options.

(** What a run did: the queries put on [sg.InCh] and how it ended. *)
Record run := {
  queries : list Query;
  result : outcome (list Line)
}.

(** [if queryCov < 0 || queryCov > 1] and the same for [targetCov]. *)
Definition check_flags : outcome unit :=
  _ ← (if bool_decide (sortBy opt = "qcov") || bool_decide (sortBy opt = "jacc")
          || bool_decide (sortBy opt = "tcov")
       then Done ()
       else checkError (Some ("invalid value for flag -s/--sort-by: "
                                +:+ sortBy opt
                                +:+ ". Available: qcov/tsov/jacc")));
  _ ← (if ((queryCov opt <? 0) || (1 <? queryCov opt))%float
       then checkError
              (Some "value of -t/--query-cov should be in range [0, 1]")
       else Done ());
  if ((targetCov opt <? 0) || (1 <? targetCov opt))%float
  then checkError (Some "value of -T/-target-cov should be in range [0, 1]")
  else Done ().

(** [for _, db := range sg.DBs { if queryCov <= db.Info.FPR { checkError(
    ...) } }]. *)
Definition check_dbs (dbs : list DBInfo) : outcome unit :=
  foldM (λ _ db,
           if (queryCov opt <=? InfoFPR db)%float
           then checkError
                  (Some ("query coverage threshold ("
                           +:+ FormatFloat (queryCov opt) "f" 6
                           +:+ ") should not be smaller than FPR of single "
                           +:+ "bloom filter of index database ("
                           +:+ FormatFloat (InfoFPR db) "f" 6 +:+ ")"))
           else Done ())
        dbs ().

(** The sending loop without [--query-whole-file]: one query per record
    read, numbered from 0 ([query.Idx = id; id++]). *)
Definition send (records : list (string * string)) : list Query :=
  imap (λ i r, {| Idx := wrap_uint64 (Z.of_nat i); ID := r.1; Seq := r.2 |})
       records.

(** [searchCmd] on the records of its input, once the flags are read and
    the databases [dbs] are loaded, in a run where nothing but the tests of
    the flags and of the databases fails: the output file opens
    ([outStream]) and the engine closes without error ([sg.Close]).
    [SearchInput.searchFiles] follows the command through these errors and
    those of its input files.  [engine] is the search engine, from the
    queries it is sent to the results in the order they come out of
    [sg.OutCh]. *)
Definition searchCmd (dbs : list DBInfo) (records : list (string * string))
    (engine : list Query → list QueryResult) : run :=
  match (_ ← check_flags; check_dbs dbs) with
  | Done _ =>
      let qs := send records in
      {| queries := qs; result := write_all opt (reorder (engine qs)) |}
  | Fatal msg => {| queries := []; result := Fatal msg |}
  | Panic => {| queries := []; result := Panic |}
  end.

End Command.

End Searcher.

(* ===================================================================== *)
(** * The input files of the search command                              *)
(* ===================================================================== *)

Module SearchInput.
Import Searcher.

(** What [fastx.NewDefaultReader(file)] and the calls of
    [fastxReader.Read()] give: an error of the first, else the records
    (id and sequence) read until [Read] returns an error, which is
    [io.EOF] ([None]) or another one. *)
Record FastxFile := {
  OpenErr : option string;
  Records : list (string * string);
  ReadErr : option string
}.

(** What the command meets between the tests of its flags and the end of
    the run, apart from the reading of the queries: the error, if there is
    one, that each place hands to [checkError], and what the calls give
    otherwise. *)
Record Startup := {
  (** Reading the database directory (part_002:145-170): an error of
      [ioutil.ReadDir] or of [pathutil.Exists], or no database in it. *)
  dbDirErr : option string;
  (** Reading the name mapping files with [cliutil.ReadKVs]. *)
  nameMapErr : option string;
  (** [getFileListFromArgsAndFile(cmd, args, true, "infile-list", true)],
      a helper of the repository that is not among the sources at hand:
      it ends the run itself when a file that is given does not exist,
      and returns the input files otherwise. *)
  fileList : outcome (list string);
  (** The flag --out-file. *)
  outFile : string;
  (** [NewUnikIndexDBSearchEngine(searchOpt, dbDirs...)]: its error, and
      [sg.DBs] when there is none. *)
  engineErr : option string;
  DBs : list DBInfo;
  (** [outStream(outFile, ...)]. *)
  outStreamErr : option string;
  (** [sg.Close()], after the last result is written. *)
  closeErr : option string
}.

Section Send.
Context `{Strconv}.
Variable opt : Options.
(** The files on disk, by path. *)
Variable fastxReader : string → FastxFile.
(** [isStdin], a helper of the repository that is not among the sources at
    hand, and [filepath.Clean]. *)
Variable isStdin : string → bool.
Variable Clean : string → string.

(** [id] and the queries put on [sg.InCh] so far. *)
Record sending := {
  id : Z;                   (* uint64 *)
  sent : list Query
}.

(** [query.Idx = id; query.ID = recordID; query.Seq = cloneFastx(
    record.Seq); sg.InCh <- query; id++]. *)
Definition send_record (st : sending) (record : string * string) : sending :=
  {| id := uint64_add (id st) 1;
     sent := sent st ++ [ {| Idx := id st; ID := record.1;
                             Seq := record.2 |} ] |}.

(** The body of [for _, file := range files] without --query-whole-file:
    [checkError(errors.Wrap(err, file))] on the error of the reader, then
    the reading loop, which ends at the first error of [Read]: [if err ==
    io.EOF { break }; errors.Wrap(err, file); break]. *)
Definition send_file (st : sending) (file : string)
  : sending * outcome unit :=
  let f := fastxReader file in
  match OpenErr f with
  | Some err => (st, checkError (Some (file +:+ ": " +:+ err)))
  | None =>
      let st' := fold_left send_record (Records f) st in
      match ReadErr f with
      | None => (st', Done ())
      | Some err => let _wrapped := file +:+ ": " +:+ err in (st', Done ())
      end
  end.

(** [for _, file := range files]: what was sent, and whether the loop
    came to its end. *)
Fixpoint send_files (files : list string) (st : sending)
  : sending * outcome unit :=
  match files with
  | [] => (st, Done ())
  | file :: rest =>
      match send_file st file with
      | (st', Done _) => send_files rest st'
      | stopped => stopped
      end
  end.

(** [for _, file := range files { if !isStdin(file) && filepath.Clean(file)
    == outFileClean { checkError(...) } }]. *)
Definition check_out_file (s : Startup) (files : list string)
  : outcome unit :=
  foldM (λ _ file,
           if negb (isStdin file) && bool_decide (Clean file = Clean (outFile s))
           then checkError
                  (Some "out file should not be one of the input file")
           else Done ())
        files ().

(** The command from the tests of its flags to the opening of the output
    file, in the order of the program: the input files, when it gets as
    far as reading them. *)
Definition startup (s : Startup) : outcome (list string) :=
  _ ← check_flags opt;
  _ ← checkError (dbDirErr s);
  _ ← checkError (nameMapErr s);
  files ← fileList s;
  _ ← check_out_file s files;
  _ ← checkError (engineErr s);
  _ ← check_dbs opt (DBs s);
  _ ← checkError (outStreamErr s);
  Done files.

(** [searchCmd] without --query-whole-file, once its flags are read;
    [engine] is the search engine, from the queries it is sent to the
    results in the order they come out of [sg.OutCh].  After the last
    result is written comes [checkError(sg.Close())]. *)
Definition searchFiles (s : Startup)
    (engine : list Query → list QueryResult) : run :=
  match startup s with
  | Done files =>
      match send_files files {| id := 0; sent := [] |} with
      | (st, Done _) =>
          {| queries := sent st;
             result := lines ← write_all opt (reorder (engine (sent st)));
                       _ ← checkError (closeErr s);
                       Done lines |}
      | (st, Fatal msg) => {| queries := sent st; result := Fatal msg |}
      | (st, Panic) => {| queries := sent st; result := Panic |}
      end
  | Fatal msg => {| queries := []; result := Fatal msg |}
  | Panic => {| queries := []; result := Panic |}
  end.

End Send.

End SearchInput.

(* ===================================================================== *)
(** * The index command                                                  *)
(* ===================================================================== *)

Module Indexer.

(** [UnikFileInfo] and [UnikFileInfoGroup], with the fields [indexCmd]
    reads.  A nil slice of infos is the empty list: the command only
    makes a bucket's slice when it appends to it. *)
Record UnikFileInfo := {
  Path : string;
  Name : string;
  Index : Z;               (* uint32 *)
  Kmers : Z                (* uint64 *)
}.

#[global] Instance UnikFileInfo_eq_dec : EqDecision UnikFileInfo.
Proof. solve_decision. Defined.

Record UnikFileInfoGroup := {
  Infos : list UnikFileInfo;
  GKmers : Z               (* the field Kmers of UnikFileInfoGroup *)
}.

(** [var totalKmers uint64; for _, info := range infos { totalKmers +=
    info.Kmers }]. *)
Definition totalKmers (infos : list UnikFileInfo) : Z :=
  fold_left (λ total info, uint64_add total (Kmers info)) infos 0.

(** [fileInfoGroups[bb] = UnikFileInfoGroup{Infos: infos, Kmers:
    totalKmers}]. *)
Definition group_of (infos : list UnikFileInfo) : UnikFileInfoGroup :=
  {| Infos := infos; GKmers := totalKmers infos |}.

(** ** Batching the groups into blocks *)

Section Batching.
(** [kmerThreshold8] (--block-max-kmers-t1) and [kmerThresholdS]
    (--block-max-kmers-t2). *)
Variables kmerThreshold8 kmerThresholdS : Z.

(** The variables of the loop [for i := 0; i <= nFiles; i++];
    [blocks] are the batches handed to the block builders so far, the
    [b]-th of them being block number [b]. *)
Record batching_state := {
  batch : list (list UnikFileInfo);
  flag8 : bool;
  flag : bool;
  lastInfos : option (list UnikFileInfo);
  sBlock : Z;
  b : Z;
  blocks : list (list (list UnikFileInfo))
}.

Inductive control := Continue | Break | Proceed.

(** [lastInfos = infos]. *)
Definition as_last (infos : list UnikFileInfo) : option (list UnikFileInfo) :=
  match infos with
  | [] => None
  | _ => Some infos
  end.

(** [if lastInfos != nil { batch = append(batch, lastInfos); lastInfos =
    nil }]. *)
Definition add_previous (st : batching_state) : batching_state :=
  match lastInfos st with
  | Some infos =>
      {| batch := batch st ++ [infos]; flag8 := flag8 st; flag := flag st;
         lastInfos := None; sBlock := sBlock st; b := b st;
         blocks := blocks st |}
  | None => st
  end.

(** [batch = append(batch, infos); if len(batch) < sBlock { continue }]. *)
Definition add_to_batch (st : batching_state) (infos : list UnikFileInfo)
  : batching_state * control :=
  let st' := {| batch := batch st ++ [infos]; flag8 := flag8 st;
                flag := flag st; lastInfos := lastInfos st;
                sBlock := sBlock st; b := b st; blocks := blocks st |} in
  (st', if len (batch st') <? sBlock st' then Continue else Proceed).

(** The first part of the loop body, up to the test of [len(batch)];
    [None] is the extra round [i == nFiles]. *)
Definition consider (st : batching_state) (g : option UnikFileInfoGroup)
  : batching_state * control :=
  match g with
  | None =>
      (* process lastInfo *)
      (if flag st || flag8 st then add_previous st else st, Proceed)
  | Some infoGroup =>
      let infos := Infos infoGroup in
      if GKmers infoGroup =? 0 then (st, Continue) (* skip empty buckets *)
      else if flag st || flag8 st then
        let st := add_previous st in
        if flag st then
          ({| batch := batch st; flag8 := flag8 st; flag := flag st;
              lastInfos := as_last infos; sBlock := sBlock st; b := b st;
              blocks := blocks st |}, Proceed)
        else if kmerThresholdS <? GKmers infoGroup then
          (* meet a very big file the first time *)
          ({| batch := batch st; flag8 := flag8 st; flag := true;
              lastInfos := as_last infos; sBlock := sBlock st; b := b st;
              blocks := blocks st |}, Proceed)
        else add_to_batch st infos
      else if kmerThreshold8 <? GKmers infoGroup then
        if kmerThresholdS <? GKmers infoGroup then
          (* meet a very big file the first time *)
          ({| batch := batch st; flag8 := flag8 st; flag := true;
              lastInfos := as_last infos; sBlock := sBlock st; b := b st;
              blocks := blocks st |}, Proceed)
        else
          (* meet a big file > kmerThreshold8 *)
          ({| batch := batch st; flag8 := true; flag := flag st;
              lastInfos := as_last infos; sBlock := 8; b := b st;
              blocks := blocks st |}, Proceed)
      else add_to_batch st infos
  end.

(** The rest of the loop body: leave on an empty batch, else number the
    batch, hand it to a block builder and open a new one. *)
Definition emit (st : batching_state) : batching_state * control :=
  if len (batch st) =? 0 then
    (st, match lastInfos st with None => Break | Some _ => Continue end)
  else
    ({| batch := []; flag8 := flag8 st; flag := flag st;
        lastInfos := lastInfos st; sBlock := sBlock st;
        b := int_add (b st) 1; blocks := blocks st ++ [batch st] |},
     Continue).

Definition iteration (st : batching_state) (g : option UnikFileInfoGroup)
  : batching_state * control :=
  let '(st', c) := consider st g in
  match c with
  | Proceed => emit st'
  | _ => (st', c)
  end.

(** The loop over [fileInfoGroups] and the extra round. *)
Fixpoint batching_loop (groups : list UnikFileInfoGroup)
    (st : batching_state) : batching_state :=
  match groups with
  | [] => (iteration st None).1
  | g :: rest =>
      let '(st', c) := iteration st (Some g) in
      match c with
      | Break => st'
      | _ => batching_loop rest st'
      end
  end.

(** The blocks built for the sorted groups with block size [sBlock0]. *)
Definition batching (sBlock0 : Z) (groups : list UnikFileInfoGroup)
  : list (list (list UnikFileInfo)) :=
  blocks (batching_loop groups
            {| batch := []; flag8 := false; flag := false;
               lastInfos := None; sBlock := sBlock0; b := 0; blocks := [] |}).

End Batching.

(** ** Filling the Bloom filters of one block *)

(** What opening and reading a .unik file gives: an error of [inStream] or
    [unikmer.NewReader], else the header flag [IsHashed] and the codes that
    [ReadCodeWithTaxid] returns, ended by [io.EOF] or by an error. *)
Record UnikFile := {
  OpenErr : option string;
  IsHashed : bool;
  Codes : list Z;          (* uint64 *)
  ReadErr : option string
}.

(** What a builder sends on [chBatch8]; [names], [indices] and [sizes]
    travel with [sigs] and are left out. *)
Record batch8s := {
  id : Z;              (* int *)
  sigs : list Z        (* []byte *)
}.

(** The goroutine that receives from [chBatch8]. *)
Section Collector.

(** Its variables: [buf], [id] (here [next]) and the batches whose fields
    were appended to [sigsBlock], [namesBlock], ... so far. *)
Record collector_state := {
  buf : gmap Z batch8s;
  next : Z;                   (* int *)
  appended : list batch8s
}.

(** [for { if _batch, ok := buf[id]; ok { ...; delete(buf, id); id++ }
    else { break } }]; every round deletes a key, so [size buf] rounds
    reach the [break]. *)
Fixpoint drain (rounds : nat) (st : collector_state) : collector_state :=
  match rounds with
  | O => st
  | S rounds' =>
      match buf st !! next st with
      | Some _batch =>
          drain rounds' {| buf := delete (next st) (buf st);
                           next := int_add (next st) 1;
                           appended := appended st ++ [_batch] |}
      | None => st
      end
  end.

(** The body of [for batch2 := range chBatch8]. *)
Definition collector_step (st : collector_state) (batch2 : batch8s)
  : collector_state :=
  if decide (id batch2 = next st) then
    {| buf := buf st; next := int_add (next st) 1;
       appended := appended st ++ [batch2] |}
  else
    let st' := drain (size (buf st)) st in
    {| buf := <[id batch2 := batch2]> (buf st'); next := next st';
       appended := appended st' |}.

(** After the loop: [if len(buf) > 0 { ...; sort.Ints(ids); ... }]. *)
Definition collector_finish (st : collector_state) : list batch8s :=
  if decide (0 < size (buf st))%nat
  then appended st
         ++ omap (λ id, buf st !! id)
                 (merge_sort Z.le (map_to_list (buf st)).*1)
  else appended st.

Definition collector (arrivals : list batch8s) : list batch8s :=
  collector_finish
    (fold_left collector_step arrivals
               {| buf := ∅; next := 1; appended := [] |}).

Definition sigsBlock (arrivals : list batch8s) : list (list Z) :=
  sigs <$> collector arrivals.

End Collector.

Section Filling.
(** [hash64] and [hashLocationsFaster], helpers of the repository that are
    not among the sources at hand. *)
Variable hash64 : Z → Z.
Variable hashLocationsFaster : Z → Z → Z → list Z.
(** The files on disk, by path. *)
Variable inStream : string → UnikFile.
Variable numHashes : Z.

(** [sigs[loc] |= 1 << (7 - _k)] on the byte slice [sigs]. *)
Definition set_bit (_k : Z) (sigs : list Z) (loc : Z) : outcome (list Z) :=
  if 7 - _k <? 0 then Panic (* negative shift amount *)
  else update_at sigs loc (λ byte, Z.lor byte (Z.shiftl 1 (7 - _k) mod 2 ^ 8)).

(** The four reading loops of a file, one code at a time. *)
Definition add_code (isHashed : bool) (numSigsM1 _k : Z) (sigs : list Z)
    (code : Z) : outcome (list Z) :=
  let singleHash := bool_decide (numHashes = 1) in
  if isHashed then
    if singleHash then set_bit _k sigs (Z.land code numSigsM1)
    else foldM (set_bit _k) (hashLocationsFaster code numHashes numSigsM1) sigs
  else
    if singleHash then set_bit _k sigs (Z.land (hash64 code) numSigsM1)
    else foldM (set_bit _k)
           (hashLocationsFaster (hash64 code) numHashes numSigsM1) sigs.

(** The body of [for _, info := range infos]. *)
Definition add_file (numSigsM1 _k : Z) (sigs : list Z) (info : UnikFileInfo)
  : outcome (list Z) :=
  let file := inStream (Path info) in
  _ ← checkError ((λ err, Path info +:+ ": " +:+ err) <$> OpenErr file);
  sigs' ← foldM (add_code (IsHashed file) numSigsM1 _k) (Codes file) sigs;
  _ ← checkError ((λ err, Path info +:+ ": " +:+ err) <$> ReadErr file);
  Done sigs'.

(** [for _k, infos := range _batch], from column [_k] on. *)
Fixpoint add_columns (numSigsM1 _k : Z) (_batch : list (list UnikFileInfo))
    (sigs : list Z) : outcome (list Z) :=
  match _batch with
  | [] => Done sigs
  | infos :: rest =>
      sigs' ← foldM (add_file numSigsM1 _k) infos sigs;
      add_columns numSigsM1 (_k + 1) rest sigs'
  end.

(** The builder of one group of at most 8 columns: its [sigs]. *)
Definition fill_plane (numSigs : Z) (_batch : list (list UnikFileInfo))
  : outcome (list Z) :=
  sigs ← make 0 numSigs;
  let numSigsM1 := uint64_sub numSigs 1 in
  add_columns numSigsM1 0 _batch sigs.

(** [batch[ii:jj]] for [jj = min(ii + 8, len(batch))]. *)
Definition columns_from {A} (batch : list A) (ii : nat) : list A :=
  take 8 (drop ii batch).

(** A builder, the goroutine of [batch[ii:jj]] for [ii = 8 * i]: it has the
    id [bb = i + 1] and sends its [sigs] under it. *)
Definition builder (numSigs : Z) (batch : list (list UnikFileInfo)) (i : nat)
  : outcome batch8s :=
  sigs ← fill_plane numSigs (columns_from batch (8 * i));
  Done {| id := Z.of_nat i + 1; sigs := sigs |}.

(** The builders of [for ii := 0; ii < nInfoGroups; ii += 8]. *)
Definition builders (batch : list (list UnikFileInfo)) : list nat :=
  seq 0 (Z.to_nat ((len batch + 7) / 8)).

(** [sigsBlock] after [<-doneBatch8]: the builders run concurrently and
    [schedule] lists them in the order in which they send on [chBatch8];
    the first to call [checkError] with an error ends the command. *)
Definition fill_block (numSigs : Z) (batch : list (list UnikFileInfo))
    (schedule : list nat) : outcome (list (list Z)) :=
  arrivals ← foldM (λ sent i,
                      batch2 ← builder numSigs batch i;
                      Done (sent ++ [batch2]))
                   schedule [];
  Done (sigsBlock arrivals).

End Filling.

(** ** The block size and the buckets of a repeat *)

(** [sBlock] before the batching loop.  [sBlock00] is the flag
    --block-size, [nFiles] is [len(fileInfoGroups)] and [filesPerCPU] is
    [int(float64(nFiles)/float64(runtime.NumCPU()))], which depends on the
    machine. *)
Definition block_size (sBlock00 nFiles filesPerCPU : Z) : Z :=
  let sBlock :=
    if sBlock00 <=? 0 (* block size from command line *)
    then wrap_int (Z.quot (int_add filesPerCPU 7) 8 * 8)
    else sBlock00 in
  if sBlock <? 8 then 8
  else if nFiles <? sBlock then nFiles
  else sBlock.

(** [nIndexFiles := int((nFiles + sBlock - 1) / sBlock)] and the
    [make([]string, 0, nIndexFiles)] after it. *)
Definition nIndexFiles (nFiles sBlock : Z) : outcome Z :=
  if sBlock =? 0 then Panic (* integer divide by zero *)
  else
    let n := wrap_int (Z.quot (int_add (int_add nFiles sBlock) (-1)) sBlock) in
    if n <? 0 then Panic (* makeslice: cap out of range *)
    else Done n.

Section Buckets.
(** [xxhash.Sum64] on the bytes of a path and [baseHashes], a helper of
    the repository that is not among the sources at hand: two uint32. *)
Variable Sum64 : string → Z.
Variable baseHashes : Z → Z * Z.

(** [bIdx] for the file [info] at index [jj] of [fileInfos0], in repeat
    [rr]. *)
Definition bucket_index (singleSet : bool) (numBuckets rr seed : Z)
    (jj : nat) (info : UnikFileInfo) : outcome Z :=
  if singleSet then Done (Z.of_nat jj)
  else
    let '(h1, h2) := baseHashes (Sum64 (Path info)) in
    let h := (h1 + h2 * (int_add rr seed mod 2 ^ 32)) mod 2 ^ 32 in
    let numBucketsUint64 := wrap_uint64 numBuckets in
    if numBucketsUint64 =? 0 then Panic (* integer divide by zero *)
    else Done (wrap_int (h mod numBucketsUint64)).

(** [buckets := make([][]UnikFileInfo, numBuckets)] and the loop
    [for jj, info := range fileInfos0] that fills them. *)
Definition fill_buckets (singleSet : bool) (numBuckets rr seed : Z)
    (fileInfos0 : list UnikFileInfo) : outcome (list (list UnikFileInfo)) :=
  buckets ← make [] numBuckets;
  foldM (λ buckets '(jj, info),
           bIdx ← bucket_index singleSet numBuckets rr seed jj info;
           update_at buckets bIdx (λ bucket, bucket ++ [info]))
        (imap (λ jj info, (jj, info)) fileInfos0) buckets.

(** The buckets of repeat [rr] for the flag --num-buckets: 0 is the special
    case of one file per bucket. *)
Definition buckets_of (numBuckets rr seed : Z)
    (fileInfos0 : list UnikFileInfo) : outcome (list (list UnikFileInfo)) :=
  if numBuckets =? 0
  then fill_buckets true (len fileInfos0) rr seed fileInfos0
  else fill_buckets false numBuckets rr seed fileInfos0.

(** [fileInfoGroups] before it is sorted. *)
Definition groups_of (buckets : list (list UnikFileInfo))
  : list UnikFileInfoGroup :=
  group_of <$> buckets.

End Buckets.

(** ** Writing the planes of a block *)

(** [xs[i]], with Go's bounds check. *)
Definition at_index {A} (xs : list A) (i : Z) : outcome A :=
  if (0 <=? i) && (i <? len xs) then
    match xs !! Z.to_nat i with
    | Some x => Done x
    | None => Panic
    end
  else Panic.

(** What is handed to the writer of the block file: one [WriteBatch] of a
    plane, or one [Write] per row. *)
Inductive written :=
  | WriteBatch (data : list Z) (n : Z)
  | Write (rows : list (list Z)).

Section Writing.
(** The errors of [writer.WriteBatch] and [writer.Write], by what they are
    given. *)
Variable WriteBatchErr : list Z → Z → option string.
Variable WriteErr : list Z → option string.

(** [for jj = 0; jj < nBatchFiles; jj++ { row[jj] = sigsBlock[jj][ii] }]. *)
Definition fill_row (nBatchFiles : Z) (sigsBlock : list (list Z)) (ii : Z)
    (row : list Z) : outcome (list Z) :=
  foldM (λ row jj,
           plane ← at_index sigsBlock jj;
           byte ← at_index plane ii;
           update_at row jj (λ _, byte))
        (seqZ 0 nBatchFiles) row.

(** [if nBatchFiles == 1 { checkError(writer.WriteBatch(sigsBlock[0],
    len(sigsBlock[0]))) } else { row := make([]byte, nBatchFiles); for ii
    := 0; ii < int(numSigs); ii++ { ...; checkError(writer.Write(row)) }
    }]; the buffer [row] is the same in every round. *)
Definition write_block (nBatchFiles numSigs : Z) (sigsBlock : list (list Z))
  : outcome written :=
  if nBatchFiles =? 1 then
    plane ← at_index sigsBlock 0;
    _ ← checkError (WriteBatchErr plane (len plane));
    Done (WriteBatch plane (len plane))
  else
    row ← make 0 nBatchFiles;
    st ← foldM (λ '(row, rows) ii,
                  row' ← fill_row nBatchFiles sigsBlock ii row;
                  _ ← checkError (WriteErr row');
                  Done (row', rows ++ [row']))
               (seqZ 0 (wrap_int numSigs)) (row, []);
    Done (Write st.2).

End Writing.

End Indexer.

(* ===================================================================== *)
(** * The blocks of the index with their names, indices and sizes        *)
(* ===================================================================== *)

Module IndexBlock.
Import Indexer.

(** [var maxElements uint64; for _, infos := range batch { totalKmer = 0;
    for _, info := range infos { totalKmer += info.Kmers }; if maxElements
    < totalKmer { maxElements = totalKmer } }]. *)
Definition maxElements (batch : list (list UnikFileInfo)) : Z :=
  fold_left (λ maxElements infos,
               let totalKmer := totalKmers infos in
               if maxElements <? totalKmer then totalKmer else maxElements)
            batch 0.

(** [batch8s] with all of its fields. *)
Record batch8s := {
  id : Z;                          (* int *)
  sigs : list Z;                   (* []byte *)
  names : list (list string);
  indices : list (list Z);         (* [][]uint32 *)
  sizes : list Z                   (* []uint64 *)
}.

(** The goroutine that receives from [chBatch8], with the four slices it
    appends to. *)
Section Collector.

Record collector_state := {
  buf : gmap Z batch8s;
  next : Z;                        (* its variable id *)
  sigsBlock : list (list Z);
  namesBlock : list (list string);
  indicesBlock : list (list Z);
  sizesBlock : list Z
}.

(** [sigsBlock = append(sigsBlock, b.sigs); namesBlock = append(namesBlock,
    b.names...); indicesBlock = append(indicesBlock, b.indices...);
    sizesBlock = append(sizesBlock, b.sizes...)], with what [buf] and [id]
    are afterwards. *)
Definition append_batch (buf' : gmap Z batch8s) (next' : Z)
    (st : collector_state) (b : batch8s) : collector_state :=
  {| buf := buf'; next := next';
     sigsBlock := sigsBlock st ++ [sigs b];
     namesBlock := namesBlock st ++ names b;
     indicesBlock := indicesBlock st ++ indices b;
     sizesBlock := sizesBlock st ++ sizes b |}.

(** [for { if _batch, ok := buf[id]; ok { ...; delete(buf, id); id++ }
    else { break } }]; every round deletes a key, so [size buf] rounds
    reach the [break]. *)
Fixpoint drain (rounds : nat) (st : collector_state) : collector_state :=
  match rounds with
  | O => st
  | S rounds' =>
      match buf st !! next st with
      | Some _batch =>
          drain rounds'
                (append_batch (delete (next st) (buf st))
                              (int_add (next st) 1) st _batch)
      | None => st
      end
  end.

(** The body of [for batch2 := range chBatch8]. *)
Definition collector_step (st : collector_state) (batch2 : batch8s)
  : collector_state :=
  if decide (id batch2 = next st) then
    append_batch (buf st) (int_add (next st) 1) st batch2
  else
    let st' := drain (size (buf st)) st in
    {| buf := <[id batch2 := batch2]> (buf st'); next := next st';
       sigsBlock := sigsBlock st'; namesBlock := namesBlock st';
       indicesBlock := indicesBlock st'; sizesBlock := sizesBlock st' |}.

(** After the loop: [if len(buf) > 0 { ...; sort.Ints(ids); for _, id :=
    range ids { _batch := buf[id]; ... } }]. *)
Definition collector_finish (st : collector_state) : collector_state :=
  if decide (0 < size (buf st))%nat
  then fold_left (λ st' _batch, append_batch (buf st') (next st') st' _batch)
                 (omap (λ id, buf st !! id)
                       (merge_sort Z.le (map_to_list (buf st)).*1))
                 st
  else st.

(** The collector after [<-doneBatch8], for the batches arriving in the
    order of [arrivals]. *)
Definition collector (arrivals : list batch8s) : collector_state :=
  collector_finish
    (fold_left collector_step arrivals
               {| buf := ∅; next := 1;
                  sigsBlock := []; namesBlock := []; indicesBlock := [];
                  sizesBlock := [] |}).

End Collector.

Section Builders.
Context `{Sorts}.
Variable hash64 : Z → Z.
Variable hashLocationsFaster : Z → Z → Z → list Z.
Variable inStream : string → UnikFile.
Variable numHashes : Z.
(** [UnikFileInfosByName.Less], which is not among the sources at hand, on
    two files. *)
Variable lessByName : UnikFileInfo → UnikFileInfo → bool.

(** [for _, infos := range _batch { sorts.Quicksort(UnikFileInfosByName(
    infos)); ... }]: the files of every column are sorted in place, so the
    loops that follow meet them in this order. *)
Definition sorted_columns (_batch : list (list UnikFileInfo))
  : list (list UnikFileInfo) :=
  Quicksort lessByName <$> _batch.

(** A builder, the goroutine of [batch[ii:jj]] for [ii = 8 * i], with the
    id [bb = i + 1]: per column the names and indices of its files and the
    sum of their k-mers, then the plane. *)
Definition builder (numSigs : Z) (batch : list (list UnikFileInfo)) (i : nat)
  : outcome batch8s :=
  let _batch := sorted_columns (columns_from batch (8 * i)) in
  let names := (λ infos : list UnikFileInfo, Name <$> infos) <$> _batch in
  let indices := (λ infos : list UnikFileInfo, Index <$> infos) <$> _batch in
  let sizes := totalKmers <$> _batch in
  sigs ← fill_plane hash64 hashLocationsFaster inStream numHashes
                    numSigs _batch;
  Done {| id := Z.of_nat i + 1; sigs := sigs; names := names;
          indices := indices; sizes := sizes |}.

(** The four slices after [<-doneBatch8] when the run is not a dry run:
    the builders run concurrently and [schedule] lists them in the order in
    which they send on [chBatch8]; the first to call [checkError] with an
    error ends the command. *)
Definition fill_block (numSigs : Z) (batch : list (list UnikFileInfo))
    (schedule : list nat) : outcome collector_state :=
  arrivals ← foldM (λ sent i,
                      batch2 ← builder numSigs batch i;
                      Done (sent ++ [batch2]))
                   schedule [];
  Done (collector arrivals).

End Builders.

End IndexBlock.

(* ===================================================================== *)
(** * The input files of the index and their names                       *)
(* ===================================================================== *)

Module IndexInfos.
Import Indexer.

Section Names.
Context `{Strconv}.
(** [xxhash.Sum64String]. *)
Variable Sum64String : string → Z.

Definition sepNameIdx : string := "-id".

(** [xxhash.Sum64String(fmt.Sprintf("%s%s%d", info.Name, sepNameIdx,
    info.Index))]. *)
Definition nameHash (info : UnikFileInfo) : Z :=
  Sum64String (Name info +:+ sepNameIdx +:+ Itoa (Index info)).

(** The variables that the checking of the input files fills:
    [fileInfos0], [n], the keys of [namesMap] and of [namesMap0], and the
    names that a warning was logged for. *)
Record infos_state := {
  fileInfos0 : list UnikFileInfo;
  n : Z;                           (* uint64 *)
  namesMap : gset Z;               (* map[uint64]interface{} *)
  namesMap0 : gset string;         (* map[string]interface{} *)
  duplicated : list string
}.

(** After the first file, whose info is [info]: [n += info.Kmers;
    fileInfos0 = append(fileInfos0, info); ...; namesMap[...] = struct{}{};
    namesMap0[info.Name] = struct{}{}]. *)
Definition first_info (info : UnikFileInfo) : infos_state :=
  {| fileInfos0 := [info];
     n := uint64_add 0 (Kmers info);
     namesMap := {[ nameHash info ]};
     namesMap0 := {[ Name info ]};
     duplicated := [] |}.

(** The body of [for info := range chInfos]. *)
Definition receive_info (st : infos_state) (info : UnikFileInfo)
  : infos_state :=
  let fileInfos0' := fileInfos0 st ++ [info] in
  let n' := uint64_add (n st) (Kmers info) in
  if decide (nameHash info ∈ namesMap st) then
    {| fileInfos0 := fileInfos0'; n := n';
       namesMap := namesMap st; namesMap0 := namesMap0 st;
       duplicated := duplicated st ++ [Name info] |}
  else
    {| fileInfos0 := fileInfos0'; n := n';
       namesMap := {[ nameHash info ]} ∪ namesMap st;
       namesMap0 := if decide (Name info ∈ namesMap0 st)
                    then namesMap0 st
                    else {[ Name info ]} ∪ namesMap0 st;
       duplicated := duplicated st |}.

(** The checking of the files when their infos are not cached: the info
    of the first file, then the infos of the other files in the order in
    which the concurrent readers send them on [chInfos]. *)
Definition check_files (info : UnikFileInfo) (arrivals : list UnikFileInfo)
  : infos_state :=
  fold_left receive_info arrivals (first_info info).

(** With the infos read from a cache that holds one at least: [for _,
    info := range fileInfos0 { n += info.Kmers; namesMap0[info.Name] =
    struct{}{} }]. *)
Definition cached_files (cache : list UnikFileInfo) : infos_state :=
  fold_left (λ st info,
               {| fileInfos0 := fileInfos0 st;
                  n := uint64_add (n st) (Kmers info);
                  namesMap := namesMap st;
                  namesMap0 := {[ Name info ]} ∪ namesMap0 st;
                  duplicated := duplicated st |})
            cache
            {| fileInfos0 := cache; n := 0; namesMap := ∅; namesMap0 := ∅;
               duplicated := [] |}.

End Names.

End IndexInfos.

(* ===================================================================== *)
(** * Stand-ins for the outside packages, for the worked examples        *)
(* ===================================================================== *)

Module Demo.

(** A 64-bit key of a name that tells short names apart, in the place of
    xxh3 (whose values on the names of the examples are distinct as well). *)
Definition demoHash (s : string) : Z :=
  fold_left (λ acc c, (acc * 256 + Z.of_N (Ascii.N_of_ascii c)) mod 2 ^ 64)
            (String.list_ascii_of_string s) 0.

Definition demoXxh3 : Xxh3 := {| HashString := demoHash |}.

(** Decimal digits. *)
Definition digit_of (c : Ascii.ascii) : option Z :=
  let n := Z.of_N (Ascii.N_of_ascii c) in
  if (48 <=? n) && (n <=? 57) then Some (n - 48) else None.

Fixpoint digits_value (acc : Z) (cs : list Ascii.ascii) : option Z :=
  match cs with
  | [] => Some acc
  | c :: cs' =>
      match digit_of c with
      | Some d => digits_value (acc * 10 + d) cs'
      | None => None
      end
  end.

(** [strconv.Atoi]: an optional sign, then one decimal digit or more, the
    value within the range of [int]. *)
Definition demoAtoi (s : string) : option Z :=
  let cs := String.list_ascii_of_string s in
  let '(neg, ds) :=
    match cs with
    | c :: ds =>
        if Ascii.eqb c (Ascii.ascii_of_nat 45) (* - *) then (true, ds)
        else if Ascii.eqb c (Ascii.ascii_of_nat 43) (* + *) then (false, ds)
        else (false, cs)
    | [] => (false, cs)
    end in
  match ds with
  | [] => None
  | _ =>
      match digits_value 0 ds with
      | Some v =>
          let v := if neg then - v else v in
          if (- 2 ^ 63 <=? v) && (v <? 2 ^ 63) then Some v else None
      | None => None
      end
  end.

(** [strconv.ParseFloat] on the numerals of the examples, an error on any
    other text. *)
Definition demoParseFloat (s : string) : option float :=
  if String.eqb s "0" then Some 0%float
  else if String.eqb s "0.5" then Some 0.5%float
  else if String.eqb s "0.75" then Some 0.75%float
  else if String.eqb s "1" then Some 1%float
  else None.

Definition demoStrconv : Strconv :=
  {| ParseFloat := demoParseFloat;
     Atoi := demoAtoi;
     Itoa := λ _, ""%string;
     FormatFloat := λ _ _ _, ""%string |}.

(** Splitting a line at a one-character separator into at most [n]
    fields, the last one holding the rest of the line. *)
Fixpoint split_at (sep : Ascii.ascii) (n : nat) (field : list Ascii.ascii)
    (s : string) : list string :=
  match s with
  | EmptyString => [String.string_of_list_ascii (rev field)]
  | String c s' =>
      if Ascii.eqb c sep && (1 <? n)%nat
      then String.string_of_list_ascii (rev field) :: split_at sep (n - 1) [] s'
      else split_at sep n (c :: field) s'
  end.

Definition demoSplitN (line sep : string) (n : Z) : list string :=
  match sep with
  | String c EmptyString => split_at c (Z.to_nat n) [] line
  | _ => [line]
  end.

(** A sorting package that runs the insertion sort. *)
Definition demoSorts : Sorts := {| Quicksort := @insertionSort |}.

(** A line of the search result with the eleven columns the profiler
    splits it into. *)
Definition tsv (fields : list string) : string :=
  String.concat Profiler.tab fields.

(** The hit of a read on fragment 0 of a target with one fragment. *)
Definition hit (q t : string) : Profiler.MatchResult :=
  {| Profiler.Query := q; Profiler.QLen := 150; Profiler.QKmers := 100;
     Profiler.FPR := 0%float; Profiler.Hits := 1; Profiler.Target := t;
     Profiler.FragIdx := 0; Profiler.IdxNum := 1; Profiler.MKmers := 90;
     Profiler.QCov := 0.75%float |}.

(** Three reads that hit {A, B}, {A, C} and {A}. *)
Definition three_reads : list Profiler.MatchResult :=
  [hit "r1" "A"; hit "r1" "B"; hit "r2" "A"; hit "r2" "C"; hit "r3" "A"].

(** A line of the search result: a read of 150 bases and 100 k-mers with a
    single hit, on fragment [frag] of the [nfrags] fragments of target [t],
    with false-positive rate 0 and query coverage 0.75. *)
Definition line (q t frag nfrags : string) : string :=
  tsv [q; "150"; "100"; "0"; "1"; t; frag; nfrags; "90"; "0.75"; ""].

(** The same read as [hit], after parsing. *)
Definition read (q t : string) (frag nfrags : Z) : Profiler.MatchResult :=
  {| Profiler.Query := q; Profiler.QLen := 150; Profiler.QKmers := 100;
     Profiler.FPR := 0%float; Profiler.Hits := 1; Profiler.Target := t;
     Profiler.FragIdx := frag; Profiler.IdxNum := nfrags;
     Profiler.MKmers := 90; Profiler.QCov := 0.75%float |}.

(** A search result: two reads on the only fragment of X, six reads on the
    first of the two fragments of Y. *)
Definition xy_file : list string :=
  ["#query"%string; line "r1" "X" "0" "1"; line "r2" "X" "0" "1";
   line "r3" "Y" "0" "2"; line "r4" "Y" "0" "2"; line "r5" "Y" "0" "2";
   line "r6" "Y" "0" "2"; line "r7" "Y" "0" "2"; line "r8" "Y" "0" "2"].

Definition xy_reads : list Profiler.MatchResult :=
  [read "r1" "X" 0 1; read "r2" "X" 0 1;
   read "r3" "Y" 0 2; read "r4" "Y" 0 2; read "r5" "Y" 0 2;
   read "r6" "Y" 0 2; read "r7" "Y" 0 2; read "r8" "Y" 0 2].


Definition demo_opt : Profiler.Options :=
  {| Profiler.maxFPR := 0.5; Profiler.minQcov := 0.5; Profiler.minReads := 1;
     Profiler.minUReads := 1; Profiler.minFragsProp := 0.5 |}.

(** The result of a query without matches, and of one with a hit. *)
Definition unmatched (i : Z) : Searcher.QueryResult :=
  {| Searcher.QueryIdx := i; Searcher.QueryID := "read";
     Searcher.QueryLen := 150; Searcher.QNumKmers := 100;
     Searcher.FPR := 0%float; Searcher.K := 21; Searcher.Matches := None |}.

Definition matched (i : Z) : Searcher.QueryResult :=
  {| Searcher.QueryIdx := i; Searcher.QueryID := "read";
     Searcher.QueryLen := 150; Searcher.QNumKmers := 100;
     Searcher.FPR := 0%float; Searcher.K := 21;
     Searcher.Matches :=
       Some [ {| Searcher.Target := ["X"%string];
                 Searcher.TargetIdx := [65536];
                 Searcher.GenomeSize := [5000000];
                 Searcher.NumKmers := 90;
                 Searcher.QCov := 0.75%float;
                 Searcher.TCov := 0%float;
                 Searcher.JaccardIndex := 0%float |} ] |}.

Definition search_opt (keep : bool) (cov : float) : Searcher.Options :=
  {| Searcher.sortBy := "qcov"; Searcher.queryCov := cov;
     Searcher.targetCov := 0%float; Searcher.keepUnmatched := keep |}.

(** A reference with one .unik file of [kmers] k-mers, as a group. *)
Definition reference (name : string) (kmers : Z) : Indexer.UnikFileInfoGroup :=
  Indexer.group_of
    [ {| Indexer.Path := name +:+ ".unik"; Indexer.Name := name;
         Indexer.Index := 0; Indexer.Kmers := kmers |} ].

(** A hundred references in ascending order of k-mers: 99 of 1000 k-mers
    and one of 100000. *)
Definition small_references : list Indexer.UnikFileInfoGroup :=
  replicate 99 (reference "small" 1000).

Definition huge_reference : Indexer.UnikFileInfoGroup :=
  reference "huge" 100000.

Definition hundred_references : list Indexer.UnikFileInfoGroup :=
  small_references ++ [huge_reference].

(** A stand-in for [hash64] and, unused with one hash, one for
    [hashLocationsFaster]. *)
Definition demoHash64 (code : Z) : Z := (3 * code + 1) mod 2 ^ 64.
Definition noLocations (_ _ _ : Z) : list Z := [].

(** Two .unik files: plain.unik with the k-mer 2, not hashed, and every
    other path with the hashed codes 5 and 12. *)
Definition demoInStream (path : string) : Indexer.UnikFile :=
  if bool_decide (path = "plain.unik")
  then {| Indexer.OpenErr := None; Indexer.IsHashed := false;
          Indexer.Codes := [2]; Indexer.ReadErr := None |}
  else {| Indexer.OpenErr := None; Indexer.IsHashed := true;
          Indexer.Codes := [5; 12]; Indexer.ReadErr := None |}.

(** Nine columns: eight of a hashed file and one of plain.unik. *)
Definition nine_columns : list (list Indexer.UnikFileInfo) :=
  replicate 8 (Indexer.Infos (reference "hashed" 2))
  ++ [Indexer.Infos (reference "plain" 1)].

(** Stand-ins for [xxhash.Sum64] on a path and for [baseHashes]: the two
    halves of the 64-bit key. *)
Definition demoSum64 (path : string) : Z := demoHash path.
Definition demoBaseHashes (h : Z) : Z * Z := (h mod 2 ^ 32, h / 2 ^ 32).

(** Three files to put in buckets. *)
Definition three_files : list Indexer.UnikFileInfo :=
  Indexer.Infos (reference "a" 10) ++ Indexer.Infos (reference "b" 20)
  ++ Indexer.Infos (reference "c" 30).

(** A line with a false positive rate of 0.75 and text in the place of
    its numbers. *)
Definition noisy_line : string :=
  tsv ["r2"; "x"; "y"; "0.75"; "z"; "X"; "9"; "1"; "w"; "0.75"; ""].

(** A hit on fragment 0 of X, which has one fragment. *)
Definition hit_on_X : Searcher.Match :=
  {| Searcher.Target := ["X"%string];
     Searcher.TargetIdx := [65536];
     Searcher.GenomeSize := [5000000];
     Searcher.NumKmers := 90;
     Searcher.QCov := 0.75%float;
     Searcher.TCov := 0%float;
     Searcher.JaccardIndex := 0%float |}.

(** An engine that finds nothing and answers the last query first. *)
Definition answer_backwards (qs : list Searcher.Query)
  : list Searcher.QueryResult :=
  reverse ((λ q, unmatched (Searcher.Idx q)) <$> qs).

(** A writer that accepts everything. *)
Definition noWriteBatchErr (_ : list Z) (_ : Z) : option string := None.
Definition noWriteErr (_ : list Z) : option string := None.

(** A stand-in for [UnikFileInfosByName.Less]: the names in the order of
    strings. *)
Definition demoLessByName (a b : Indexer.UnikFileInfo) : bool :=
  String.ltb (Indexer.Name a) (Indexer.Name b).

(** Nine columns again, the first with two fragments of a reference that
    are not in the order of their names. *)
Definition fragment (name : string) (index kmers : Z) : Indexer.UnikFileInfo :=
  {| Indexer.Path := name +:+ ".unik"; Indexer.Name := name;
     Indexer.Index := index; Indexer.Kmers := kmers |}.

Definition nine_buckets : list (list Indexer.UnikFileInfo) :=
  [fragment "plain" 1 1; fragment "hashed" 0 2]
  :: replicate 7 [fragment "hashed" 0 2] ++ [[fragment "plain" 0 1]].

(** Three sequence files: one that reads to its end, one whose reading
    fails after a record, and, under every other name, one that is there
    but cannot be read. *)
Definition demoFastx (file : string) : SearchInput.FastxFile :=
  if bool_decide (file = "reads.fa")
  then {| SearchInput.OpenErr := None;
          SearchInput.Records := [("r1", "ACGT"); ("r2", "TTGA")];
          SearchInput.ReadErr := None |}
  else if bool_decide (file = "cut.fa")
  then {| SearchInput.OpenErr := None;
          SearchInput.Records := [("r3", "GGCA")];
          SearchInput.ReadErr := Some "unexpected EOF" |}
  else {| SearchInput.OpenErr := Some "permission denied";
          SearchInput.Records := []; SearchInput.ReadErr := None |}.

(** Stand-ins for [isStdin] and [filepath.Clean], and a start of the
    search command in which nothing fails: the input files [files] exist,
    one database with a false-positive rate of 0.5 is loaded and the
    results go to result.tsv. *)
Definition demoIsStdin (file : string) : bool := bool_decide (file = "-").
Definition demoClean (file : string) : string := file.

Definition demoStartup (files : list string) : SearchInput.Startup :=
  {| SearchInput.dbDirErr := None; SearchInput.nameMapErr := None;
     SearchInput.fileList := Done files;
     SearchInput.outFile := "result.tsv";
     SearchInput.engineErr := None;
     SearchInput.DBs := [ {| Searcher.InfoFPR := 0.5%float |} ];
     SearchInput.outStreamErr := None; SearchInput.closeErr := None |}.

(** A stand-in for [stringSplitN] on the slice that the calls share: the
    fields of the line are written over the elements of the slice, with
    Go's bounds check, and the slice is cut to them. *)
Definition demoFields (line : string) : list string :=
  demoSplitN line Profiler.tab Profiler.numFields.

Definition demoSplitInto (line sep : string) (n : Z) (items : list string)
  : outcome (list string) :=
  if decide (length (demoSplitN line sep n) ≤ length items)%nat
  then Done (demoSplitN line sep n)
  else Panic.

(** Search results on disk: xy.tsv holds [xy_file], noisy.tsv two reads on
    X with [noisy_line] between them, header.tsv a header and nothing
    else; every other file is there but cannot be read. *)
Definition result_file (lines : list string) : ProfileInput.ResultFile :=
  {| ProfileInput.OpenErr := None; ProfileInput.Lines := lines;
     ProfileInput.ScanErr := None |}.

Definition demoResults (file : string) : ProfileInput.ResultFile :=
  if bool_decide (file = "xy.tsv") then result_file xy_file
  else if bool_decide (file = "noisy.tsv")
  then result_file ["#query"%string; line "r1" "X" "0" "1"; noisy_line;
                    line "r3" "X" "0" "1"]
  else if bool_decide (file = "header.tsv")
  then result_file ["#query"%string]
  else {| ProfileInput.OpenErr := Some "permission denied";
          ProfileInput.Lines := []; ProfileInput.ScanErr := None |}.

(** The same files after [noisy_line] is taken out of noisy.tsv. *)
Definition demoResultsCleaned (file : string) : ProfileInput.ResultFile :=
  if bool_decide (file = "noisy.tsv")
  then result_file ["#query"%string; line "r1" "X" "0" "1";
                    line "r3" "X" "0" "1"]
  else demoResults file.

(** A start of the profile command in which nothing fails, on the input
    files [files]. *)
Definition profileStartup (files : list string) : ProfileInput.Startup :=
  {| ProfileInput.fileList := Done files; ProfileInput.nameMapErr := None;
     ProfileInput.outStreamErr := None |}.

(** [demo_opt] with a minimum of two unique reads. *)
Definition stricter_opt : Profiler.Options :=
  {| Profiler.maxFPR := 0.5; Profiler.minQcov := 0.5; Profiler.minReads := 1;
     Profiler.minUReads := 2; Profiler.minFragsProp := 0.5 |}.

End Demo.

(* ===================================================================== *)
(** * Properties                                                         *)
(* ===================================================================== *)

(** ** The outcome monad and the slice primitives *)

Module GoFacts.

Lemma bind_done {A B} (c : outcome A) (k : A → outcome B) (y : B) :
  c ≫= k = Done y ↔ ∃ x, c = Done x ∧ k x = Done y.
Proof.
  destruct c as [x| |]; simpl; split.
  - intros Hk. by exists x.
  - by intros (x' & [= ->] & Hk).
  - discriminate.
  - by intros (? & ? & _).
  - discriminate.
  - by intros (? & ? & _).
Qed.


Lemma foldM_app {A S} (body : S → A → outcome S) (xs ys : list A) (st : S) :
  foldM body (xs ++ ys) st = foldM body xs st ≫= foldM body ys.
Proof.
  revert st. induction xs as [|x xs IH]; intros st; simpl; [done|].
  destruct (body st x) as [st'| |]; simpl; [apply IH|done..].
Qed.


(** A loop whose body keeps an invariant keeps it. *)
Lemma foldM_invariant {A S} (I : S → Prop) (body : S → A → outcome S)
    (xs : list A) (st st' : S) :
  (∀ s x s', I s → body s x = Done s' → I s') →
  I st → foldM body xs st = Done st' → I st'.
Proof.
  intros Hbody. revert st. induction xs as [|x xs IH]; intros st HI; simpl.
  - by intros [= <-].
  - intros (s1 & H1 & H2)%bind_done. eauto.
Qed.

Lemma iter_shift {A} (f : A → A) (k : nat) (x : A) :
  Nat.iter k f (f x) = f (Nat.iter k f x).
Proof. induction k as [|k IH]; simpl; [done|]. by rewrite IH. Qed.

(** On numbers (values that are not NaN), "not below" is "at least". *)
Lemma not_ltb_leb (x y : float) :
  (x <? y)%float = false → (x =? x)%float = true → (y =? y)%float = true →
  (y <=? x)%float = true.
Proof.
  intros Hlt Hx Hy. rewrite FloatAxioms.ltb_spec in Hlt.
  rewrite FloatAxioms.eqb_spec in Hx, Hy. rewrite FloatAxioms.leb_spec.
  revert Hlt Hx Hy. unfold SFltb, SFleb, SFeqb.
  destruct (Prim2SF x) as [[]|[]| |[] mx ex],
           (Prim2SF y) as [[]|[]| |[] my ey]; simpl; try congruence.
  all: rewrite (Z.compare_antisym ex ey); destruct (ex ?= ey); simpl;
    try congruence.
  all: change (PosDef.Pos.compare_cont Eq ?a ?b) with (Pos.compare a b).
  all: rewrite (Pos.compare_antisym mx my); destruct (mx ?= my)%positive;
    simpl; congruence.
Qed.

(** On numbers, "not at most" is "above". *)
Lemma not_leb_ltb (x y : float) :
  (x <=? y)%float = false → (x =? x)%float = true → (y =? y)%float = true →
  (y <? x)%float = true.
Proof.
  intros Hle Hx Hy. rewrite FloatAxioms.leb_spec in Hle.
  rewrite FloatAxioms.eqb_spec in Hx, Hy. rewrite FloatAxioms.ltb_spec.
  revert Hle Hx Hy. unfold SFltb, SFleb, SFeqb.
  destruct (Prim2SF x) as [[]|[]| |[] mx ex],
           (Prim2SF y) as [[]|[]| |[] my ey]; simpl; try congruence.
  all: rewrite (Z.compare_antisym ex ey); destruct (ex ?= ey); simpl;
    try congruence.
  all: change (PosDef.Pos.compare_cont Eq ?a ?b) with (Pos.compare a b).
  all: rewrite (Pos.compare_antisym mx my); destruct (mx ?= my)%positive;
    simpl; congruence.
Qed.

Lemma len_nonneg {A} (xs : list A) : 0 ≤ len xs.
Proof. unfold len. lia. Qed.

Lemma make_done {A} (zero : A) (n : Z) (xs : list A) :
  make zero n = Done xs ↔ 0 ≤ n ∧ xs = replicate (Z.to_nat n) zero.
Proof.
  unfold make. destruct (Z.ltb_spec n 0); split.
  - discriminate.
  - intros [? _]. lia.
  - by intros [= <-].
  - by intros [_ ->].
Qed.

Lemma update_at_done {A} (xs xs' : list A) (i : Z) (f : A → A) :
  update_at xs i f = Done xs' ↔
  0 ≤ i < len xs ∧
  ∃ x, xs !! Z.to_nat i = Some x ∧ xs' = <[Z.to_nat i := f x]> xs.
Proof.
  unfold update_at, len.
  destruct (Z.leb_spec 0 i), (Z.ltb_spec i (Z.of_nat (length xs))); simpl;
    try (split; [discriminate | intros [? _]; lia]).
  destruct (xs !! Z.to_nat i) as [x|] eqn:Hx.
  - split.
    + intros [= <-]. split; [lia|]. by exists x.
    + by intros (_ & x' & [= <-] & ->).
  - apply lookup_ge_None in Hx. lia.
Qed.

Lemma lookup_update_at {A} (xs xs' : list A) (i : Z) (f : A → A) (j : nat) :
  update_at xs i f = Done xs' →
  xs' !! j = (λ x, if decide (i = Z.of_nat j) then f x else x) <$> xs !! j.
Proof.
  intros ([Hi0 Hi] & x & Hx & ->)%update_at_done.
  destruct (decide (i = Z.of_nat j)) as [->|Hne].
  - rewrite Nat2Z.id in *. rewrite Hx. simpl.
    apply list_lookup_insert_eq. by eapply lookup_lt_Some.
  - rewrite list_lookup_insert_ne by lia. by destruct (xs !! j).
Qed.

Lemma update_at_length {A} (xs xs' : list A) (i : Z) (f : A → A) :
  update_at xs i f = Done xs' → length xs' = length xs.
Proof. intros (_ & x & _ & ->)%update_at_done. apply length_insert. Qed.

(** A loop establishes what one of its rounds establishes and the later
    rounds keep. *)
Lemma foldM_establish {A S} (Q : S → Prop) (body : S → A → outcome S)
    (xs : list A) (x : A) :
  ∀ st st' : S,
  x ∈ xs →
  foldM body xs st = Done st' →
  (∀ s s', body s x = Done s' → Q s') →
  (∀ s y s', Q s → body s y = Done s' → Q s') →
  Q st'.
Proof.
  induction xs as [|a xs IH]; intros st st' Hin Hrun Hset Hkeep.
  - by apply elem_of_nil in Hin.
  - simpl in Hrun. apply bind_done in Hrun as (s1 & Ha & Hrest).
    apply elem_of_cons in Hin as [->|Hin].
    + eapply (foldM_invariant Q); [exact Hkeep| |exact Hrest]. by eapply Hset.
    + by eapply IH.
Qed.

(** *** Sorted lists of integers *)

Lemma seqZ_snoc (k : Z) : 0 ≤ k → seqZ 0 (k + 1) = seqZ 0 k ++ [k].
Proof.
  intros Hk. rewrite seqZ_app by lia. reflexivity.
Qed.

Lemma StronglySorted_seqZ_nat (len : nat) :
  ∀ m : Z, StronglySorted Z.lt (seqZ m (Z.of_nat len)).
Proof.
  induction len as [|len IH]; intros m.
  - rewrite seqZ_nil by done. constructor.
  - rewrite seqZ_cons by lia.
    replace (Z.pred (Z.of_nat (S len))) with (Z.of_nat len) by lia.
    constructor; [apply IH|]. apply Forall_seqZ. lia.
Qed.

Lemma StronglySorted_seqZ (m n : Z) : StronglySorted Z.lt (seqZ m n).
Proof.
  destruct (Z.le_gt_cases n 0) as [Hn|Hn].
  - rewrite seqZ_nil by done. constructor.
  - replace n with (Z.of_nat (Z.to_nat n)) by lia.
    apply StronglySorted_seqZ_nat.
Qed.

Lemma StronglySorted_le_lt (l : list Z) :
  StronglySorted Z.le l → NoDup l → StronglySorted Z.lt l.
Proof.
  induction 1 as [|x l Hl IH Hx]; intros Hnd; [constructor|].
  apply NoDup_cons in Hnd as [Hnotin Hnd].
  constructor; [by apply IH|].
  apply Forall_forall. intros y Hy.
  rewrite Forall_forall in Hx. specialize (Hx y Hy).
  assert (x ≠ y) by (by intros ->). lia.
Qed.

Lemma omap_lookup_keys {V} (mm : gmap Z V) (l : list (Z * V)) :
  Forall (λ e, mm !! e.1 = Some e.2) l →
  omap (λ i, mm !! i) l.*1 = l.*2.
Proof.
  induction 1 as [|[i r] l Hir _ IH]; csimpl; [done|].
  simpl in Hir. rewrite Hir. csimpl. by rewrite IH.
Qed.

(** A loop that appends one result per round lists the results of its
    rounds. *)
Lemma foldM_collect {A B} (f : A → outcome B) (xs : list A) :
  ∀ acc out : list B,
  foldM (λ acc x, y ← f x; Done (acc ++ [y])) xs acc = Done out →
  ∃ ys, Forall2 (λ x y, f x = Done y) xs ys ∧ out = acc ++ ys.
Proof.
  induction xs as [|x xs IH]; intros acc out; simpl.
  - intros [= <-]. exists []. split; [constructor|by rewrite app_nil_r].
  - intros (acc' & (y & Hx & [= <-])%bind_done & Hrest)%bind_done.
    destruct (IH _ _ Hrest) as (ys & Hys & ->).
    exists (y :: ys). split; [by constructor|]. by rewrite <- app_assoc.
Qed.

Lemma sink_perm {A} (less : A → A → bool) (x : A) (rprefix : list A) :
  sink less x rprefix ≡ₚ x :: rprefix.
Proof.
  induction rprefix as [|y rest IH]; simpl; [done|].
  destruct (less x y); [|done]. rewrite IH. apply Permutation_swap.
Qed.

(** The insertion sort only moves elements. *)
Lemma insertionSort_perm {A} (less : A → A → bool) (xs : list A) :
  insertionSort less xs ≡ₚ xs.
Proof.
  unfold insertionSort. rewrite <- Permutation_rev.
  assert (∀ acc, fold_left (λ rprefix x, sink less x rprefix) xs acc
                 ≡ₚ xs ++ acc) as Hgen.
  { induction xs as [|x xs IH]; intros acc; simpl; [done|].
    rewrite IH, sink_perm. by rewrite Permutation_middle. }
  by rewrite Hgen, app_nil_r.
Qed.

End GoFacts.

(** ** The profile command: crediting the hits of a query *)

Module ProfilerFacts.
Import Profiler GoFacts.

(** The number of hits of [ms] that fall on fragment [j]. *)
Definition hits_at (j : nat) (ms : list MatchResult) : nat :=
  length (filter (λ m, FragIdx m = Z.of_nat j) ms).

(** What one hit adds to the counters of fragment [j], in a group of
    [n] hits with [fn = float64(n)]. *)
Definition add_match (fn : float) (m : MatchResult) (j : nat) (c : float)
  : float :=
  if decide (FragIdx m = Z.of_nat j) then (c + floatOne / fn)%float else c.

Definition add_uniq (n : Z) (m : MatchResult) (j : nat) (u : Z) : Z :=
  if decide (FragIdx m = Z.of_nat j) then (if n =? 1 then int_add u 1 else u)
  else u.

Lemma credit_done (h n : Z) (fn : float) (p p' : gmap Z TargetRec)
    (m : MatchResult) :
  credit h n fn p m = Done p' →
  ∃ t0 t1,
    lookup_or_new h p m = Done t0 ∧ p' = <[h := t1]> p ∧
    (∀ j, Match t1 !! j = add_match fn m j <$> Match t0 !! j) ∧
    (∀ j, UniqMatch t1 !! j = add_uniq n m j <$> UniqMatch t0 !! j) ∧
    SumUniqMatch t1 = SumUniqMatch t0 ∧ FragsProp t1 = FragsProp t0 ∧
    MeanAbundance t1 = MeanAbundance t0.
Proof.
  unfold credit.
  intros (t0 & Ht0 & (mt & Hmt & (um & Hum & (fl & Hfl & [= <-])%bind_done)
    %bind_done)%bind_done)%bind_done.
  eexists t0, _. split_and!; [done|done|..]; simpl; try done.
  - intros j. rewrite (lookup_update_at _ _ _ _ j Hmt). unfold add_match.
    by destruct (Match t0 !! j), (decide _).
  - intros j. unfold add_uniq. destruct (n =? 1).
    + rewrite (lookup_update_at _ _ _ _ j Hum).
      by destruct (UniqMatch t0 !! j), (decide _).
    + injection Hum as <-. by destruct (UniqMatch t0 !! j), (decide _).
Qed.

Lemma lookup_or_new_found (h : Z) (p : gmap Z TargetRec) (m : MatchResult)
    (t : TargetRec) :
  p !! h = Some t → lookup_or_new h p m = Done t.
Proof. unfold lookup_or_new. by intros ->. Qed.

Lemma lookup_or_new_ext (h : Z) (p p' : gmap Z TargetRec) (m : MatchResult) :
  p !! h = p' !! h → lookup_or_new h p m = lookup_or_new h p' m.
Proof. unfold lookup_or_new. by intros ->. Qed.

Lemma hits_at_cons (j : nat) (m : MatchResult) (ms : list MatchResult) :
  hits_at j (m :: ms)
  = ((if decide (FragIdx m = Z.of_nat j) then 1 else 0) + hits_at j ms)%nat.
Proof.
  unfold hits_at. rewrite filter_cons. by destruct (decide _).
Qed.

(** The hits of a group, credited one after the other to a target that is
    already in the profile. *)
Lemma credit_group_found (h n : Z) (fn : float) (ms : list MatchResult) :
  ∀ (p p' : gmap Z TargetRec) (t0 : TargetRec),
  p !! h = Some t0 →
  foldM (credit h n fn) ms p = Done p' →
  (∀ h', h' ≠ h → p' !! h' = p !! h') ∧
  ∃ t',
    p' !! h = Some t' ∧
    (∀ j, Match t' !! j
          = Nat.iter (hits_at j ms) (λ c, (c + floatOne / fn)%float)
              <$> Match t0 !! j) ∧
    (∀ j, UniqMatch t' !! j
          = Nat.iter (if n =? 1 then hits_at j ms else 0)
                     (λ u, int_add u 1) <$> UniqMatch t0 !! j) ∧
    SumUniqMatch t' = SumUniqMatch t0 ∧ FragsProp t' = FragsProp t0 ∧
    MeanAbundance t' = MeanAbundance t0.
Proof.
  induction ms as [|m ms IH]; intros p p' t0 Hp; simpl.
  - intros [= <-]. split; [done|]. exists t0. split_and!; try done.
    + intros j. by destruct (Match t0 !! j).
    + intros j. destruct (n =? 1); by destruct (UniqMatch t0 !! j).
  - intros (p1 & Hstep & Hrest)%bind_done.
    apply credit_done in Hstep
      as (t0' & t1 & Hnew & -> & Hm1 & Hu1 & Hs1 & Hf1 & Ha1).
    rewrite (lookup_or_new_found _ _ _ _ Hp) in Hnew. injection Hnew as <-.
    destruct (IH _ _ t1 (lookup_insert_eq _ _ _) Hrest)
      as (Hother & t' & Ht' & Hm & Hu & Hs & Hf & Ha).
    split.
    { intros h' Hne. rewrite Hother by done. by rewrite lookup_insert_ne. }
    exists t'. split_and!; [done|..|congruence|congruence|congruence].
    + intros j. rewrite Hm, Hm1, hits_at_cons. unfold add_match.
      destruct (Match t0 !! j) as [c|]; simpl; [|done].
      destruct (decide _); simpl; [|done].
      f_equal. exact (iter_shift (λ c, (c + floatOne / fn)%float) _ _).
    + intros j. rewrite Hu, Hu1, hits_at_cons. unfold add_uniq.
      destruct (UniqMatch t0 !! j) as [u|]; simpl; [|done].
      destruct (n =? 1); [|by destruct (decide _)].
      destruct (decide _); simpl; [|done].
      f_equal. exact (iter_shift (λ u, int_add u 1) _ _).
Qed.

(** What the flush of one query does to the target of key [h], when [ms]
    are the hits of the query in the group of that key: every hit on
    fragment [j] adds [1 / float64(len(ms))] to [Match[j]], and adds 1 to
    [UniqMatch[j]] when [len(ms) = 1]. *)
Definition credited_group (p p' : gmap Z TargetRec) (h : Z)
    (ms : list MatchResult) : Prop :=
  match ms with
  | [] => p' !! h = p !! h
  | m0 :: _ =>
      ∃ t0 t',
        lookup_or_new h p m0 = Done t0 ∧ p' !! h = Some t' ∧
        (∀ j, Match t' !! j
              = Nat.iter (hits_at j ms)
                  (λ c, (c + floatOne / float64_of_int (len ms))%float)
                  <$> Match t0 !! j) ∧
        (∀ j, UniqMatch t' !! j
              = Nat.iter (if len ms =? 1 then hits_at j ms else 0)
                  (λ u, int_add u 1) <$> UniqMatch t0 !! j)
  end.

Lemma credited_group_ext (p1 p1' p2 p2' : gmap Z TargetRec) (h : Z)
    (ms : list MatchResult) :
  p1 !! h = p2 !! h → p1' !! h = p2' !! h →
  credited_group p1 p1' h ms → credited_group p2 p2' h ms.
Proof.
  intros Hp Hp'. destruct ms as [|m0 ms]; simpl.
  - congruence.
  - intros (t0 & t' & Hnew & Ht' & Hm & Hu). exists t0, t'.
    rewrite <- (lookup_or_new_ext h p1 p2 m0 Hp).
    split_and!; [done|congruence|done|done].
Qed.

Lemma flush_group_spec (p p' : gmap Z TargetRec) (h : Z)
    (ms : list MatchResult) :
  flush_group p (h, ms) = Done p' →
  credited_group p p' h ms ∧ ∀ h', h' ≠ h → p' !! h' = p !! h'.
Proof.
  unfold flush_group. destruct ms as [|m0 ms].
  - simpl. by intros [= <-].
  - unfold credited_group.
    remember (len (m0 :: ms)) as n eqn:Hn.
    remember (float64_of_int n) as fn eqn:Hfn. clear Hn Hfn.
    change (foldM (credit h n fn) (m0 :: ms) p)
      with (credit h n fn p m0 ≫= foldM (credit h n fn) ms).
    intros (p1 & Hstep & Hrest)%bind_done.
    apply credit_done in Hstep
      as (t0 & t1 & Hnew & -> & Hm1 & Hu1 & _).
    destruct (credit_group_found h n fn ms _ _ t1 (lookup_insert_eq _ _ _)
                Hrest) as (Hother & t' & Ht' & Hm & Hu & _).
    split.
    + exists t0, t'. split_and!; [done|done|..].
      * intros j. rewrite Hm, Hm1, hits_at_cons. unfold add_match.
        destruct (Match t0 !! j) as [c|]; simpl; [|done].
        destruct (decide _); simpl; [|done].
        f_equal. exact (iter_shift (λ c, (c + floatOne / fn)%float) _ _).
      * intros j. rewrite Hu, Hu1, hits_at_cons. unfold add_uniq.
        destruct (UniqMatch t0 !! j) as [u|]; simpl; [|done].
        destruct (n =? 1); [|by destruct (decide _)].
        destruct (decide _); simpl; [|done].
        f_equal. exact (iter_shift (λ u, int_add u 1) _ _).
    + intros h' Hne. rewrite Hother by done. by rewrite lookup_insert_ne.
Qed.

Lemma flush_other (groups : list (Z * list MatchResult)) :
  ∀ (p p' : gmap Z TargetRec) (h : Z),
  flush groups p = Done p' → h ∉ groups.*1 → p' !! h = p !! h.
Proof.
  unfold flush. induction groups as [|[h0 ms0] groups IH]; intros p p' h; simpl.
  - by intros [= <-].
  - intros (p1 & Hg & Hrest)%bind_done Hnotin.
    apply not_elem_of_cons in Hnotin as [Hne Hnotin].
    rewrite (IH _ _ _ Hrest Hnotin).
    by apply (flush_group_spec _ _ _ _ Hg).
Qed.

(** The flush of a query treats each group on its own, whatever the order
    in which the map is ranged over. *)
Lemma flush_spec (groups : list (Z * list MatchResult)) :
  ∀ (p p' : gmap Z TargetRec) (h : Z) (ms : list MatchResult),
  NoDup groups.*1 → flush groups p = Done p' → (h, ms) ∈ groups →
  credited_group p p' h ms.
Proof.
  induction groups as [|[h0 ms0] groups IH]; intros p p' h ms Hnd Hfl Hin.
  - by apply elem_of_nil in Hin.
  - apply NoDup_cons in Hnd as [Hh0 Hnd].
    unfold flush in Hfl. simpl in Hfl.
    apply bind_done in Hfl as (p1 & Hg & Hrest).
    apply flush_group_spec in Hg as [Hcred Hother].
    apply elem_of_cons in Hin as [[= -> ->]|Hin].
    + eapply credited_group_ext; [done| |exact Hcred].
      symmetry. by apply (flush_other groups).
    + assert (h ≠ h0) as Hne.
      { intros ->. apply Hh0. apply list_elem_of_fmap. by exists (h0, ms). }
      eapply credited_group_ext; [by apply Hother|done|].
      by apply (IH p1).
Qed.

Section Grouping.
Context `{Xxh3}.

(** The hits of a list whose target has key [h]. *)
Definition hits_on (h : Z) (hs : list MatchResult) : list MatchResult :=
  filter (λ m, HashString (Target m) = h) hs.

Definition add_hit (ms : gmap Z (list MatchResult)) (m : MatchResult)
  : gmap Z (list MatchResult) :=
  <[HashString (Target m)
    := default [] (ms !! HashString (Target m)) ++ [m]]> ms.

Lemma scan_match_same (st : scan_state) (m : MatchResult) :
  prevQuery st = Query m →
  scan_match st m
  = Done {| profile := profile st; matches := add_hit (matches st) m;
            prevQuery := Query m |}.
Proof.
  intros Hq. unfold scan_match, add_hit. rewrite decide_True by done. simpl.
  destruct (matches st !! HashString (Target m)) as [l|] eqn:Hl.
  - by rewrite Hl.
  - by rewrite lookup_insert_eq, insert_insert_eq.
Qed.

Lemma scan_match_new (st : scan_state) (m : MatchResult) :
  prevQuery st ≠ Query m →
  scan_match st m
  = flush (map_to_list (matches st)) (profile st)
      ≫= λ p, Done {| profile := p; matches := add_hit ∅ m;
                      prevQuery := Query m |}.
Proof.
  intros Hq. unfold scan_match, add_hit. rewrite decide_False by done.
  destruct (flush _ _) as [p| |]; simpl; [|done..].
  by rewrite lookup_empty, lookup_insert_eq, insert_insert_eq.
Qed.

Lemma scan_match_init (p : gmap Z TargetRec) (m : MatchResult) :
  scan_match {| profile := p; matches := ∅; prevQuery := "" |} m
  = Done {| profile := p; matches := add_hit ∅ m; prevQuery := Query m |}.
Proof.
  destruct (decide (("" : string) = Query m)) as [Hq|Hq].
  - by rewrite scan_match_same.
  - rewrite scan_match_new by done. simpl. by rewrite map_to_list_empty.
Qed.

Lemma scan_same_query (q : string) (hs : list MatchResult) :
  ∀ st, Forall (λ m, Query m = q) hs → prevQuery st = q →
  foldM scan_match hs st
  = Done {| profile := profile st;
            matches := fold_left add_hit hs (matches st);
            prevQuery := q |}.
Proof.
  induction hs as [|m hs IH]; intros st Hall Hq; simpl.
  - destruct st; simpl in *. by subst.
  - apply Forall_cons in Hall as [Hm Hall].
    rewrite scan_match_same by congruence. simpl.
    by rewrite IH by done.
Qed.

Lemma hits_on_lookup (h : Z) (hs : list MatchResult) :
  ∀ ms0 : gmap Z (list MatchResult),
  fold_left add_hit hs ms0 !! h
  = match hits_on h hs with
    | [] => ms0 !! h
    | l => Some (default [] (ms0 !! h) ++ l)
    end.
Proof.
  unfold hits_on.
  induction hs as [|m hs IH]; intros ms0; simpl; [done|].
  rewrite IH, filter_cons. unfold add_hit.
  destruct (decide (HashString (Target m) = h)) as [->|Hne].
  - rewrite lookup_insert_eq. simpl.
    destruct (filter _ hs); simpl; [done|]. by rewrite <- app_assoc.
  - by rewrite lookup_insert_ne.
Qed.

(** The lines of one query, from a fresh set of groups: one flush of the
    groups by key. *)
Lemma scan_block (q : string) (p : gmap Z TargetRec)
    (block : list MatchResult) :
  Forall (λ m, Query m = q) block →
  scan_matches p block
  = flush (map_to_list (fold_left add_hit block ∅)) p.
Proof.
  intros Hall. unfold scan_matches. destruct block as [|m0 block]; [done|].
  apply Forall_cons in Hall as [Hm0 Hall].
  simpl. rewrite scan_match_init. simpl.
  by rewrite (scan_same_query q) by done.
Qed.

Lemma scan_prevQuery (xs : list MatchResult) :
  ∀ st st', foldM scan_match xs st = Done st' →
  prevQuery st' = from_option Query (prevQuery st) (last xs).
Proof.
  induction xs as [|x xs IH]; intros st st' Hfold; simpl in Hfold.
  - by injection Hfold as <-.
  - apply bind_done in Hfold as (st1 & Hx & Hxs). rewrite (IH _ _ Hxs).
    assert (prevQuery st1 = Query x) as ->.
    { unfold scan_match in Hx.
      apply bind_done in Hx as ([p ms] & _ & [= <-]). done. }
    rewrite last_cons. by destruct (last xs).
Qed.

(** A change of query between two parts of the input separates their
    effects: the flush at the first line of the new query is the flush
    that ends a file. *)
Lemma scan_matches_app (p : gmap Z TargetRec) (xs ys : list MatchResult) :
  (∀ x y, last xs = Some x → head ys = Some y → Query x ≠ Query y) →
  scan_matches p (xs ++ ys) = scan_matches p xs ≫= λ p1, scan_matches p1 ys.
Proof.
  intros Hbound. unfold scan_matches. rewrite foldM_app.
  destruct xs as [|x0 xs'] eqn:Hxs_eq.
  { simpl. by rewrite map_to_list_empty. }
  rewrite <- Hxs_eq in *.
  destruct (foldM scan_match xs _) as [st1| |] eqn:Hxs; simpl; [|done..].
  destruct ys as [|y ys]; simpl.
  - rewrite map_to_list_empty.
    by destruct (flush (map_to_list (matches st1)) (profile st1)).
  - apply scan_prevQuery in Hxs.
    destruct (last xs) as [x|] eqn:Hlast.
    2:{ subst xs. by rewrite last_cons in Hlast; destruct (last xs'). }
    simpl in Hxs.
    rewrite scan_match_new by (rewrite Hxs; by apply Hbound).
    destruct (flush (map_to_list (matches st1)) (profile st1)) as [p1| |];
      simpl; [|done..].
    by rewrite scan_match_init.
Qed.

End Grouping.

Section Credit.
Context `{Xxh3}.

(** What the lines [block] of one query do to the profile [p1], giving
    [p2]: for every key [h], the hits of the query whose target has that
    key are credited as one group. *)
Definition query_credited (p1 p2 : gmap Z TargetRec)
    (block : list MatchResult) : Prop :=
  ∀ h : Z, credited_group p1 p2 h (hits_on h block).

(** C1, as the code has it.  For every query of the input (the lines
    [block], between lines of other queries), the scan first brings the
    profile to [p1], then the query's flush brings it to [p2]: each hit on
    target [t] at fragment [f] adds [1/n] to [Match[f]] of [t], where [n]
    is the number of hits of that query on the same target (the hits whose
    target has the same xxh3 key), not the number of its hits across all
    targets; and it adds 1 to [UniqMatch[f]] if and only if [n = 1]. *)
Theorem query_credit_by_target (p0 p' : gmap Z TargetRec) (q : string)
    (before block after : list MatchResult) :
  Forall (λ m, Query m = q) block →
  block ≠ [] →
  (∀ x, last before = Some x → Query x ≠ q) →
  (∀ y, head after = Some y → Query y ≠ q) →
  scan_matches p0 (before ++ block ++ after) = Done p' →
  ∃ p1 p2,
    scan_matches p0 before = Done p1 ∧
    scan_matches p1 block = Done p2 ∧
    scan_matches p2 after = Done p' ∧
    query_credited p1 p2 block.
Proof.
  intros Hall Hne Hbefore Hafter Hscan.
  rewrite scan_matches_app in Hscan.
  2:{ intros x y Hx Hy. destruct block as [|m0 block]; [done|].
      simpl in Hy. injection Hy as <-.
      apply Forall_cons in Hall as [-> _]. by apply Hbefore. }
  apply bind_done in Hscan as (p1 & Hp1 & Hscan).
  rewrite scan_matches_app in Hscan.
  2:{ intros x y Hx Hy.
      assert (Query x = q) as ->.
      { eapply (proj1 (Forall_forall _ _) Hall).
        apply last_Some in Hx as [l' ->]. set_solver. }
      intros Heq. by apply (Hafter y). }
  apply bind_done in Hscan as (p2 & Hp2 & Hp').
  exists p1, p2. split_and!; [done..|].
  intros h. rewrite (scan_block q) in Hp2 by done.
  destruct (hits_on h block) as [|m0 ms] eqn:Hhits.
  - simpl. apply (flush_other _ _ _ _ Hp2).
    intros ([h' ms'] & Hh & Hin%elem_of_map_to_list)%list_elem_of_fmap.
    simpl in Hh. subst h'.
    rewrite hits_on_lookup, Hhits, lookup_empty in Hin. done.
  - rewrite <- Hhits.
    apply (flush_spec _ _ _ _ _ (NoDup_fst_map_to_list _) Hp2).
    apply elem_of_map_to_list.
    rewrite hits_on_lookup, Hhits, lookup_empty. done.
Qed.

End Credit.

Section ThreeReads.
Import Demo.
#[local] Existing Instance demoXxh3.

(** The claim fails on its own example: of the three reads hitting {A, B},
    {A, C} and {A}, each hit is the only one of its read on its target, so
    A is credited 3 (not 2), B and C 1 each (not 0.5), and every hit counts
    as a unique match. *)
Lemma three_reads_credit_counterexample :
  ∃ p a b c,
    scan_matches ∅ three_reads = Done p ∧
    p !! HashString "A" = Some a ∧ p !! HashString "B" = Some b ∧
    p !! HashString "C" = Some c ∧
    Match a = [3%float] ∧ Match b = [1%float] ∧ Match c = [1%float] ∧
    UniqMatch a = [3] ∧ UniqMatch b = [1] ∧ UniqMatch c = [1] ∧
    Match a ≠ [2%float] ∧ Match b ≠ [0.5%float] ∧ Match c ≠ [0.5%float] ∧
    UniqMatch b ≠ [0].
Proof.
  eexists _, _, _, _.
  split; [vm_compute; reflexivity|].
  split; [vm_compute; reflexivity|].
  split; [vm_compute; reflexivity|].
  split; [vm_compute; reflexivity|].
  simpl. split_and!; try reflexivity; try discriminate.
  all: intros [= Heq];
    apply (f_equal (λ x, PrimFloat.eqb x x)) in Heq as Hrefl;
    apply (f_equal (PrimFloat.eqb _)) in Heq; vm_compute in Heq;
    discriminate.
Qed.

(** The theorem at the second of the three reads. *)
Lemma query_credit_by_target_witness :
  ∃ p' p1 p2,
    scan_matches ∅ three_reads = Done p' ∧
    scan_matches ∅ [hit "r1" "A"; hit "r1" "B"] = Done p1 ∧
    scan_matches p1 [hit "r2" "A"; hit "r2" "C"] = Done p2 ∧
    scan_matches p2 [hit "r3" "A"] = Done p' ∧
    query_credited p1 p2 [hit "r2" "A"; hit "r2" "C"].
Proof.
  assert (∃ p', scan_matches ∅ three_reads = Done p') as [p' Hrun]
    by (eexists; vm_compute; reflexivity).
  exists p'.
  destruct (query_credit_by_target ∅ p' "r2"
              [hit "r1" "A"; hit "r1" "B"]
              [hit "r2" "A"; hit "r2" "C"]
              [hit "r3" "A"])
    as (p1 & p2 & H1 & H2 & H3 & H4).
  - by repeat constructor.
  - discriminate.
  - simpl. by intros x [= <-].
  - simpl. by intros y [= <-].
  - exact Hrun.
  - exists p1, p2. split_and!; [exact Hrun|done..].
Defined.

End ThreeReads.

(** ** The profile command: summarising and ranking the targets *)

(** The scan leaves the summary fields of every target at zero. *)
Definition unsummarised (t : TargetRec) : Prop :=
  SumUniqMatch t = 0 ∧ FragsProp t = 0%float ∧ MeanAbundance t = 0%float.

Definition all_unsummarised (p : gmap Z TargetRec) : Prop :=
  map_Forall (λ _, unsummarised) p.

Lemma lookup_or_new_done (h : Z) (p : gmap Z TargetRec) (m : MatchResult)
    (t0 : TargetRec) :
  lookup_or_new h p m = Done t0 → p !! h = Some t0 ∨ unsummarised t0.
Proof.
  unfold lookup_or_new. destruct (p !! h) as [t|].
  - intros [= <-]. by left.
  - intros (mt & _ & (um & _ & (fl & _ & [= <-])%bind_done)%bind_done)
      %bind_done.
    by right.
Qed.

Lemma credit_unsummarised (h n : Z) (fn : float) (p p' : gmap Z TargetRec)
    (m : MatchResult) :
  all_unsummarised p → credit h n fn p m = Done p' → all_unsummarised p'.
Proof.
  intros Hp (t0 & t1 & Hnew & -> & _ & _ & Hs & Hf & Ha)%credit_done.
  apply map_Forall_insert_2; [|done].
  assert (unsummarised t0) as (? & ? & ?).
  { apply lookup_or_new_done in Hnew as [Hin|]; [|done]. by apply (Hp h). }
  unfold unsummarised. split_and!; congruence.
Qed.

Lemma flush_unsummarised (groups : list (Z * list MatchResult))
    (p p' : gmap Z TargetRec) :
  all_unsummarised p → flush groups p = Done p' → all_unsummarised p'.
Proof.
  apply foldM_invariant. intros p1 [h ms] p2 Hp1. unfold flush_group.
  apply foldM_invariant; [|done]. intros ????. by apply credit_unsummarised.
Qed.

Section ScanInvariant.
Context `{Strconv} `{Xxh3}.
Variable stringSplitN : string → string → Z → list string.
Variable opt : Options.

Lemma scan_match_unsummarised (st st' : scan_state) (m : MatchResult) :
  all_unsummarised (profile st) → scan_match st m = Done st' →
  all_unsummarised (profile st').
Proof.
  intros Hst. unfold scan_match.
  intros ([p ms] & Hpm & [= <-])%bind_done. simpl.
  destruct (decide _).
  - by injection Hpm as <- <-.
  - apply bind_done in Hpm as (p1 & Hfl & [= <- <-]).
    by apply (flush_unsummarised _ _ _ Hst Hfl).
Qed.

Lemma scan_file_unsummarised (p p' : gmap Z TargetRec) (lines : list string) :
  all_unsummarised p → scan_file stringSplitN opt p lines = Done p' →
  all_unsummarised p'.
Proof.
  intros Hp. unfold scan_file. intros (st & Hst & Hfl)%bind_done.
  eapply flush_unsummarised; [|exact Hfl].
  revert Hst.
  apply (foldM_invariant (λ st, all_unsummarised (profile st))); [|done].
  intros s line s' Hs. unfold scan_line.
  intros ([m ok] & _ & Hstep)%bind_done.
  destruct ok.
  - by apply (scan_match_unsummarised s s' m).
  - by injection Hstep as <-.
Qed.

Lemma scan_files_unsummarised (files : list (list string))
    (p : gmap Z TargetRec) :
  foldM (scan_file stringSplitN opt) files ∅ = Done p → all_unsummarised p.
Proof.
  apply foldM_invariant; [|apply map_Forall_empty].
  intros ????. by apply scan_file_unsummarised.
Qed.

End ScanInvariant.

Section Summary.
Variable opt : Options.

(** The number of fragments whose match count is above [minReads]. *)
Definition frags_above (cs : list float) : nat :=
  length (filter (λ c, (float64_of_int (minReads opt) <? c)%float = true) cs).

Lemma scan_fragments_spec (cs : list float) :
  ∀ fp ma : float,
  scan_fragments opt cs (fp, ma)
  = (Nat.iter (frags_above cs) (λ x, (x + 1)%float) fp,
     fold_left (λ a c, (a + c)%float) cs ma).
Proof.
  unfold scan_fragments, frags_above.
  induction cs as [|c cs IH]; intros fp ma; simpl; [done|].
  rewrite IH, filter_cons.
  destruct (float64_of_int (minReads opt) <? c)%float eqn:Hc.
  - rewrite decide_True by done. simpl.
    by rewrite (iter_shift (λ x, (x + 1)%float)).
  - by rewrite decide_False by done.
Qed.

(** The two thresholds, on a target as it is printed. *)
Definition meets_thresholds (t : TargetRec) : Prop :=
  FragsProp t
  = (Nat.iter (frags_above (Match t)) (λ x, (x + 1)%float) 0
     / float64_of_int (len (Match t)))%float ∧
  (FragsProp t <? minFragsProp opt)%float = false ∧
  SumUniqMatch t = fold_left int_add (UniqMatch t) 0 ∧
  minUReads opt ≤ SumUniqMatch t.

Lemma summarise_fields (t0 : TargetRec) :
  let t := (summarise opt t0).1 in
  Name t = Name t0 ∧ Match t = Match t0 ∧ UniqMatch t = UniqMatch t0 ∧
  FragsProp t
  = (Nat.iter (frags_above (Match t0)) (λ x, (x + 1)%float) (FragsProp t0)
     / float64_of_int (len (Match t0)))%float.
Proof.
  unfold summarise. rewrite scan_fragments_spec.
  destruct (_ <? minFragsProp opt)%float; [done|].
  by destruct (_ <? minUReads opt).
Qed.

(** A target is appended to [targets] exactly when it passes the two
    tests of the loop. *)
Lemma summarise_kept (t0 : TargetRec) :
  let t := (summarise opt t0).1 in
  (summarise opt t0).2 = true ↔
  (FragsProp t <? minFragsProp opt)%float = false ∧
  SumUniqMatch t = sum_uniq (UniqMatch t0) (SumUniqMatch t0) ∧
  minUReads opt ≤ SumUniqMatch t.
Proof.
  unfold summarise. rewrite scan_fragments_spec.
  destruct (_ <? minFragsProp opt)%float eqn:Hfp; simpl.
  { rewrite Hfp. split; [done|]. by intros [? _]. }
  destruct (Z.ltb_spec (sum_uniq (UniqMatch t0) (SumUniqMatch t0))
              (minUReads opt)); simpl.
  - split; [done|]. intros (_ & _ & ?). lia.
  - by rewrite Hfp.
Qed.

Lemma summarise_meets (t0 : TargetRec) :
  unsummarised t0 → (summarise opt t0).2 = true →
  meets_thresholds (summarise opt t0).1.
Proof.
  intros (Hs & Hf & _) (Hfp & Hsum & Hu)%summarise_kept.
  destruct (summarise_fields t0) as (_ & Hm & Hum & Hfrags).
  unfold meets_thresholds. rewrite Hm, Hum, Hfrags, Hsum.
  rewrite Hsum in Hu. rewrite Hfrags in Hfp. rewrite Hs, Hf in *.
  done.
Qed.

(** The targets that the summary loop appends. *)
Definition kept (e : Z * TargetRec) : option TargetRec :=
  let '(t, keep) := summarise opt e.2 in if keep then Some t else None.

Lemma collect_targets (entries : list (Z * TargetRec)) :
  ∀ (p : gmap Z TargetRec),
  (collect opt entries p).1 = omap kept entries.
Proof.
  unfold collect.
  assert (∀ (acc : list TargetRec) (p : gmap Z TargetRec),
    (fold_left (collect_step opt) entries (acc, p)).1
    = acc ++ omap kept entries) as Hgen.
  { induction entries as [|[h t] entries IH]; intros acc p; simpl.
    - by rewrite app_nil_r.
    - assert (kept (h, t)
              = if (summarise opt t).2 then Some (summarise opt t).1 else None)
        as Hk by (unfold kept; simpl; by destruct (summarise opt t) as [? []]).
      rewrite Hk. destruct (summarise opt t) as [t' []]; simpl.
      + by rewrite IH, <- app_assoc.
      + by rewrite IH. }
  intros p. by rewrite Hgen.
Qed.

Lemma collect_other (entries : list (Z * TargetRec)) :
  ∀ (h : Z) (acc : list TargetRec) (p : gmap Z TargetRec),
  h ∉ entries.*1 →
  (fold_left (collect_step opt) entries (acc, p)).2 !! h = p !! h.
Proof.
  induction entries as [|[h1 t1] entries IH]; intros h acc p Hnotin;
    simpl; [done|].
  apply not_elem_of_cons in Hnotin as [Hne Hnotin]. simpl in Hne.
  destruct (summarise opt t1) as [t' []]; rewrite IH by done.
  - by rewrite lookup_insert_ne.
  - by rewrite lookup_delete_ne.
Qed.

Lemma collect_dropped (entries : list (Z * TargetRec)) :
  ∀ (p : gmap Z TargetRec) (h : Z) (t0 : TargetRec),
  NoDup entries.*1 → (h, t0) ∈ entries → (summarise opt t0).2 = false →
  (collect opt entries p).2 !! h = None.
Proof.
  unfold collect. generalize (@nil TargetRec) as acc.
  induction entries as [|[h1 t1] entries IH];
    intros acc p h t0 Hnd Hin Hdrop.
  - by apply elem_of_nil in Hin.
  - apply NoDup_cons in Hnd as [Hh1 Hnd]. simpl.
    apply elem_of_cons in Hin as [[= -> ->]|Hin].
    + destruct (summarise opt t1) as [t' keep]. simpl in Hdrop. subst keep.
      rewrite collect_other by done. apply lookup_delete_eq.
    + destruct (summarise opt t1) as [t' []]; by eapply IH.
Qed.

End Summary.

Lemma summarise_pass (opt : Options) (t0 : TargetRec) :
  let t := (summarise opt t0).1 in
  (FragsProp t <? minFragsProp opt)%float = false →
  minUReads opt ≤ sum_uniq (UniqMatch t0) (SumUniqMatch t0) →
  (summarise opt t0).2 = true.
Proof.
  unfold summarise. rewrite scan_fragments_spec.
  destruct (Nat.iter (frags_above opt (Match t0)) (λ x, (x + 1)%float)
              (FragsProp t0) / float64_of_int (len (Match t0))
            <? minFragsProp opt)%float eqn:Hfp; simpl.
  { congruence. }
  intros _ Hu.
  destruct (Z.ltb_spec (sum_uniq (UniqMatch t0) (SumUniqMatch t0))
              (minUReads opt)); [lia|done].
Qed.

Section Ranked.
Context `{Strconv} `{Xxh3} `{Sorts}.
Variable stringSplitN : string → string → Z → list string.
Variable range_profile : gmap Z TargetRec → list (Z * TargetRec).
Variable opt : Options.

(** The command prints the sorted summaries of the scanned profile. *)
Lemma profileCmd_done (files : list (list string)) (out : list TargetRec) :
  profileCmd stringSplitN range_profile opt files = Done out ↔
  ∃ p, foldM (scan_file stringSplitN opt) files ∅ = Done p ∧
       out = Quicksort (A := TargetRec) Less
               (collect opt (range_profile p) p).1.
Proof.
  unfold profileCmd, ranked. split.
  - intros (p & Hp & [= <-])%bind_done. by exists p.
  - intros (p & Hp & ->). apply bind_done. by exists p.
Qed.

(** The printed targets, up to their order: the summaries that the
    summary loop kept. *)
Lemma printed_targets (files : list (list string)) (out : list TargetRec)
    (p : gmap Z TargetRec) :
  (∀ l : list TargetRec, Quicksort Less l ≡ₚ l) →
  (∀ p, range_profile p ≡ₚ map_to_list p) →
  foldM (scan_file stringSplitN opt) files ∅ = Done p →
  out = Quicksort (A := TargetRec) Less (collect opt (range_profile p) p).1 →
  out ≡ₚ omap (kept opt) (map_to_list p).
Proof.
  intros Hsort Hrange Hp ->.
  by rewrite Hsort, collect_targets, Hrange.
Qed.

(** C6.  Every target that the profiler prints has a proportion of matched
    fragments that is not below [min_frags_prop] (at least it, when both
    are numbers) and a sum of unique matches of at least [min_uniq_reads];
    the proportion is the count of the fragments whose match count is
    strictly above [min_reads], over the number of fragments.  A target of
    the profile that fails either bound is deleted from the profile and is
    not among the printed ones. *)
Theorem emitted_targets_meet_thresholds (files : list (list string))
    (out : list TargetRec) :
  (∀ l : list TargetRec, Quicksort Less l ≡ₚ l) →
  (∀ p, range_profile p ≡ₚ map_to_list p) →
  profileCmd stringSplitN range_profile opt files = Done out →
  ∃ p,
    foldM (scan_file stringSplitN opt) files ∅ = Done p ∧
    (∀ t, t ∈ out →
       meets_thresholds opt t ∧
       ((FragsProp t =? FragsProp t)%float = true →
        (minFragsProp opt =? minFragsProp opt)%float = true →
        (minFragsProp opt <=? FragsProp t)%float = true)) ∧
    out ≡ₚ omap (kept opt) (map_to_list p) ∧
    (∀ h t0,
       p !! h = Some t0 →
       (FragsProp (summarise opt t0).1 <? minFragsProp opt)%float = true
       ∨ sum_uniq (UniqMatch t0) 0 < minUReads opt →
       kept opt (h, t0) = None ∧
       (collect opt (range_profile p) p).2 !! h = None).
Proof.
  intros Hsort Hrange (p & Hp & Hout)%profileCmd_done.
  pose proof (printed_targets files out p Hsort Hrange Hp Hout) as Hperm.
  pose proof (scan_files_unsummarised _ _ _ _ Hp) as Hzero.
  exists p. split_and!; [done| |done|].
  - intros t Ht. rewrite Hperm in Ht.
    apply list_elem_of_omap in Ht as ([h t0] & Hin & Hkept).
    apply elem_of_map_to_list in Hin.
    unfold kept in Hkept. simpl in Hkept.
    destruct (summarise opt t0) as [t' keep] eqn:Hsum.
    destruct keep; [|done]. injection Hkept as ->.
    assert (meets_thresholds opt t) as Hmeets.
    { replace t with (summarise opt t0).1 by by rewrite Hsum.
      apply summarise_meets; [by apply (Hzero h)|by rewrite Hsum]. }
    split; [done|]. intros Hx Hy.
    destruct Hmeets as (_ & Hfp & _). by apply not_ltb_leb.
  - intros h t0 Hin Hfail.
    assert ((summarise opt t0).2 = false) as Hdrop.
    { destruct ((summarise opt t0).2) eqn:Hkeep; [|done].
      apply summarise_kept in Hkeep as (Hfp & Hsum & Hu).
      destruct (Hzero h t0 Hin) as (Hs0 & _).
      rewrite Hs0 in Hsum. destruct Hfail as [Hfail|Hfail]; [congruence|lia]. }
    split.
    + unfold kept. simpl. destruct (summarise opt t0) as [t' keep].
      simpl in Hdrop. by subst keep.
    + apply (collect_dropped opt _ p h t0); [|by rewrite Hrange;
        apply elem_of_map_to_list|done].
      rewrite Hrange. apply NoDup_fst_map_to_list.
Qed.

(** C8, as the code has it.  The only tests between the scan and the
    ranking are the two thresholds: every target of the profile whose
    proportion of matched fragments is not below [min_frags_prop] and whose
    sum of unique matches is at least [min_uniq_reads] is printed.  The
    query coverage of the reads plays no part: a target does not record
    it. *)
Theorem thresholds_are_the_only_gate (files : list (list string))
    (out : list TargetRec) :
  (∀ l : list TargetRec, Quicksort Less l ≡ₚ l) →
  (∀ p, range_profile p ≡ₚ map_to_list p) →
  profileCmd stringSplitN range_profile opt files = Done out →
  ∃ p,
    foldM (scan_file stringSplitN opt) files ∅ = Done p ∧
    ∀ h t0,
      p !! h = Some t0 →
      (FragsProp (summarise opt t0).1 <? minFragsProp opt)%float = false →
      minUReads opt ≤ sum_uniq (UniqMatch t0) 0 →
      (summarise opt t0).1 ∈ out.
Proof.
  intros Hsort Hrange (p & Hp & Hout)%profileCmd_done.
  pose proof (printed_targets files out p Hsort Hrange Hp Hout) as Hperm.
  pose proof (scan_files_unsummarised _ _ _ _ Hp) as Hzero.
  exists p. split; [done|]. intros h t0 Hin Hfp Hu.
  rewrite Hperm. apply list_elem_of_omap. exists (h, t0).
  split; [by apply elem_of_map_to_list|].
  destruct (Hzero h t0 Hin) as (Hs0 & _).
  pose proof (summarise_pass opt t0 Hfp) as Hkeep.
  rewrite Hs0 in Hkeep. specialize (Hkeep Hu).
  unfold kept. simpl. destruct (summarise opt t0) as [t' keep].
  simpl in *. by subst keep.
Qed.

End Ranked.

(** ** The profile command: lines that do not parse *)

Section ParseErrors.
Context `{Strconv} `{Xxh3} `{Sorts}.
Variable stringSplitN : string → string → Z → list string.
Variable range_profile : gmap Z TargetRec → list (Z * TargetRec).
Variable opt : Options.

(** The text of column [i] of a line. *)
Definition field (items : list string) (i : nat) : string :=
  default ""%string (items !! i).


Lemma item_field (items : list string) (i : nat) :
  (i < length items)%nat → item items i = Done (field items i).
Proof.
  intros Hi. unfold item, field.
  destruct (lookup_lt_is_Some_2 items i Hi) as [x ->]. done.
Qed.



End ParseErrors.

(** ** The profile command on the worked examples *)

Section Examples.
Import Demo.

(** The command with the stand-ins, ranging over the profile in the order
    of [map_to_list]. *)
Definition demo_profileCmd : list (list string) → outcome (list TargetRec) :=
  @profileCmd demoStrconv demoXxh3 demoSorts demoSplitN map_to_list demo_opt.

Lemma demo_sorts_perm (l : list TargetRec) :
  @Quicksort demoSorts TargetRec Less l ≡ₚ l.
Proof. apply insertionSort_perm. Qed.

Lemma demo_range_perm (p : gmap Z TargetRec) :
  map_to_list p ≡ₚ map_to_list p.
Proof. done. Qed.

(** The order that C7 states for two consecutive lines [a], [b] of the
    output: [a] has the greater fragsProp, or the same and a meanReads
    that is not smaller. *)
Definition lex_descending (a b : TargetRec) : bool :=
  (FragsProp b <? FragsProp a)%float
  || ((FragsProp a =? FragsProp b)%float
      && (MeanAbundance b <=? MeanAbundance a)%float).

(** C7 on the code.  On the search result [xy_file], with the profile
    ranged over with Y before X, the profiler prints Y (fragsProp 0.5,
    meanReads 3) before X (fragsProp 1, meanReads 2): [Less] holds in
    neither direction, since it asks for both fields to be greater, so the
    sort leaves the two as they came. *)
Theorem ranking_is_not_lexicographic :
  ∃ y x,
    demo_profileCmd [xy_file] = Done [y; x] ∧
    Name y = "Y"%string ∧ Name x = "X"%string ∧
    FragsProp y = 0.5%float ∧ MeanAbundance y = 3%float ∧
    FragsProp x = 1%float ∧ MeanAbundance x = 2%float ∧
    Less x y = false ∧ Less y x = false ∧
    lex_descending y x = false.
Proof.
  eexists _, _. split; [vm_compute; reflexivity|].
  vm_compute. by repeat split.
Qed.

(** The unique reads of a target, and those of them with a query coverage
    of at least [H_hic], as the specification words the high-confidence
    gate. *)
Definition unique_reads (reads : list MatchResult) (name : string)
  : list MatchResult :=
  filter (λ m, Target m = name ∧
               length (filter (λ m', Query m' = Query m) reads) = 1%nat)
         reads.

Definition hic_unique_reads (H_hic : float) (reads : list MatchResult)
    (name : string) : list MatchResult :=
  filter (λ m, (H_hic <=? QCov m)%float = true) (unique_reads reads name).

(** The default of [min_hic_qcov], 0.8 rounded to a binary64. *)
Definition H_hic : float := 0x1.999999999999ap-1%float.

(** C8 fails on the code: in [xy_file] every read of X has query coverage
    0.75, so X has no unique read of coverage 0.8 or more and would not
    pass a gate that asks for one; X is printed. *)
Lemma hic_gate_counterexample :
  Forall2 (λ l m, @parseMatchResult demoStrconv demoSplitN l numFields
                    (maxFPR demo_opt) (minQcov demo_opt) = Done (m, true))
          (tail xy_file) xy_reads ∧
  length (unique_reads xy_reads "X") = 2%nat ∧
  length (hic_unique_reads H_hic xy_reads "X") = 0%nat ∧
  ∃ out, demo_profileCmd [xy_file] = Done out ∧
         "X"%string ∈ Name <$> out.
Proof.
  split_and!.
  - repeat constructor.
  - reflexivity.
  - reflexivity.
  - eexists. split; [vm_compute; reflexivity|]. set_solver.
Qed.


(** The theorem of C6 on [xy_file]. *)
Lemma emitted_targets_meet_thresholds_witness :
  ∃ out, demo_profileCmd [xy_file] = Done out ∧
         ∀ t, t ∈ out → meets_thresholds demo_opt t.
Proof.
  assert (∃ out, demo_profileCmd [xy_file] = Done out) as [out Hout]
    by (eexists; vm_compute; reflexivity).
  exists out. split; [done|]. unfold demo_profileCmd in Hout.
  destruct (@emitted_targets_meet_thresholds demoStrconv demoXxh3 demoSorts
              demoSplitN map_to_list demo_opt [xy_file] out
              demo_sorts_perm demo_range_perm Hout)
    as (p & _ & Hmeets & _).
  intros t Ht. by apply Hmeets.
Defined.

(** The theorem of C8 on [xy_file]: X passes the two thresholds and is
    printed. *)
Lemma thresholds_are_the_only_gate_witness :
  ∃ out x, demo_profileCmd [xy_file] = Done out ∧ x ∈ out ∧
           Name x = "X"%string.
Proof.
  assert (∃ out, demo_profileCmd [xy_file] = Done out) as [out Hout]
    by (eexists; vm_compute; reflexivity).
  pose proof Hout as Hrun. unfold demo_profileCmd in Hrun.
  destruct (@thresholds_are_the_only_gate demoStrconv demoXxh3 demoSorts
              demoSplitN map_to_list demo_opt [xy_file] out
              demo_sorts_perm demo_range_perm Hrun)
    as (p & Hp & Hgate).
  assert (∃ t0, p !! demoHash "X" = Some t0 ∧ Name t0 = "X"%string ∧
                Match t0 = [2%float] ∧ UniqMatch t0 = [2] ∧
                FragsProp t0 = 0%float) as (t0 & Ht0 & Hname & Hm & Hu & Hf).
  { vm_compute in Hp. injection Hp as <-. eexists. split; [reflexivity|].
    by repeat split. }
  exists out, (summarise demo_opt t0).1. split; [done|]. split.
  - apply (Hgate _ _ Ht0).
    + destruct (summarise_fields demo_opt t0) as (_ & _ & _ & ->).
      rewrite Hm, Hf. reflexivity.
    + rewrite Hu. vm_compute. discriminate.
  - destruct (summarise_fields demo_opt t0) as (-> & _). done.
Defined.


End Examples.

End ProfilerFacts.

(** ** The search command *)

Module SearcherFacts.
Import Searcher GoFacts.

(** A NaN compares false with everything. *)
Lemma nan_compares_false (x y : float) :
  (x =? x)%float = false →
  (x <? y)%float = false ∧ (y <? x)%float = false ∧
  (x <=? y)%float = false.
Proof.
  intros Hx. rewrite FloatAxioms.eqb_spec in Hx.
  assert (Prim2SF x = S754_nan) as Hnan.
  { revert Hx. unfold SFeqb, SFcompare.
    destruct (Prim2SF x) as [[]|[]| |[] mx ex]; try done.
    all: rewrite Z.compare_refl.
    all: change (PosDef.Pos.compare_cont Eq ?a ?b) with (Pos.compare a b).
    all: rewrite Pos.compare_refl; simpl; done. }
  rewrite !FloatAxioms.ltb_spec, FloatAxioms.leb_spec, Hnan.
  unfold SFltb, SFleb.
  by destruct (Prim2SF y) as [[]|[]| |[] my ey].
Qed.

(** *** The order of the results *)

(** What holds between the results received so far ([received]) and the
    variables of the loop: the results sent on are those of the indices
    0, ..., k-1 in this order, [id] is the next index, and every other
    result received waits in the map under its index. *)
Definition reorder_inv (received : list QueryResult) (st : reorder_state)
  : Prop :=
  ∃ k : Z,
    0 ≤ k ≤ 2 ^ 64 ∧
    QueryIdx <$> sent st = seqZ 0 k ∧
    id st = k mod 2 ^ 64 ∧
    (∀ i r, m st !! i = Some r → QueryIdx r = i) ∧
    sent st ++ (map_to_list (m st)).*2 ≡ₚ received.

Lemma reorder_inv_fresh (received : list QueryResult) (st : reorder_state)
    (k : Z) (x : Z) :
  QueryIdx <$> sent st = seqZ 0 k →
  (∀ i r, m st !! i = Some r → QueryIdx r = i) →
  sent st ++ (map_to_list (m st)).*2 ≡ₚ received →
  0 ≤ x → x ∉ QueryIdx <$> received →
  k ≤ x ∧ m st !! x = None.
Proof.
  intros Hsent Hkeys Hperm Hx Hnotin.
  rewrite <- Hperm, fmap_app, Hsent in Hnotin.
  apply not_elem_of_app in Hnotin as [Hseq Hmap].
  rewrite elem_of_seqZ in Hseq. split; [lia|].
  destruct (m st !! x) as [r|] eqn:Hr; [|done].
  exfalso. apply Hmap. apply list_elem_of_fmap. exists r.
  split; [by rewrite (Hkeys x r)|].
  apply list_elem_of_fmap. exists (x, r).
  split; [done|]. by apply elem_of_map_to_list.
Qed.

Lemma reorder_step_inv (received : list QueryResult) (st : reorder_state)
    (r : QueryResult) :
  reorder_inv received st →
  QueryIdx r ∉ QueryIdx <$> received →
  0 ≤ QueryIdx r < 2 ^ 64 →
  reorder_inv (received ++ [r]) (reorder_step st r).
Proof.
  intros (k & Hk & Hsent & Hid & Hkeys & Hperm) Hnew Hrange.
  destruct (reorder_inv_fresh received st k (QueryIdx r))
    as [Hkx Hfresh]; [done..|lia|done|].
  assert (id st = k) as Hidk by (rewrite Hid; apply Z.mod_small; lia).
  assert (uint64_add (id st) 1 = (k + 1) mod 2 ^ 64) as Hnext
    by (by rewrite Hidk).
  unfold reorder_step. destruct (decide (QueryIdx r = id st)) as [Heq|Hne].
  - (* the result that is waited for *)
    exists (k + 1). cbn [m id sent]. split_and!; [lia|lia| |done|done|].
    + rewrite fmap_app, Hsent, seqZ_snoc by lia.
      cbn [fmap list_fmap]. by rewrite Heq, Hidk.
    + rewrite <- Hperm. by rewrite <- !app_assoc, (comm (++) [r]).
  - assert (map_to_list (<[QueryIdx r := r]> (m st))
            ≡ₚ (QueryIdx r, r) :: map_to_list (m st)) as Hins
      by (by apply map_to_list_insert).
    rewrite lookup_insert_ne by done.
    destruct (m st !! id st) as [r'|] eqn:Hwait.
    + (* the result that is waited for is in the map *)
      exists (k + 1). cbn [m id sent].
      assert (QueryIdx r' = k) as Hr' by (rewrite <- Hidk; by apply Hkeys).
      split_and!; [lia|lia| |done| |].
      * rewrite fmap_app, Hsent, seqZ_snoc by lia.
        cbn [fmap list_fmap]. by rewrite Hr'.
      * intros i r0 Hi. apply lookup_delete_Some in Hi as [_ Hi].
        apply lookup_insert_Some in Hi as [[<- <-]|[_ Hi]]; [done|].
        by apply Hkeys.
      * assert ((id st, r')
                  :: map_to_list (delete (id st) (<[QueryIdx r := r]> (m st)))
                ≡ₚ map_to_list (<[QueryIdx r := r]> (m st))) as Hdel.
        { apply map_to_list_delete. by rewrite lookup_insert_ne. }
        assert ((map_to_list (<[QueryIdx r := r]> (m st))).*2
                ≡ₚ r' :: (map_to_list
                            (delete (id st) (<[QueryIdx r := r]> (m st)))).*2)
          as Hvals by (by rewrite <- Hdel).
        rewrite <- app_assoc. change ([r'] ++ ?l) with (r' :: l).
        rewrite <- Hvals, Hins, <- Hperm. cbn [fmap list_fmap snd].
        by rewrite <- Permutation_middle, Permutation_cons_append.
    + exists k. cbn [m id sent]. split_and!; [lia|lia|done|done| |].
      * intros i r0 Hi.
        apply lookup_insert_Some in Hi as [[<- <-]|[_ Hi]]; [done|].
        by apply Hkeys.
      * rewrite Hins, <- Hperm. cbn [fmap list_fmap snd].
        by rewrite <- Permutation_middle, Permutation_cons_append.
Qed.

Lemma reorder_loop_inv (rest : list QueryResult) :
  ∀ (received : list QueryResult) (st : reorder_state),
  reorder_inv received st →
  NoDup (QueryIdx <$> (received ++ rest)) →
  Forall (λ r, 0 ≤ QueryIdx r < 2 ^ 64) rest →
  reorder_inv (received ++ rest) (fold_left reorder_step rest st).
Proof.
  induction rest as [|r rest IH]; intros received st Hinv Hnd Hrange; simpl.
  - by rewrite app_nil_r.
  - apply Forall_cons in Hrange as [Hr Hrange].
    rewrite cons_middle, app_assoc in Hnd |- *.
    apply IH; [|done..].
    apply reorder_step_inv; [done| |done].
    rewrite !fmap_app in Hnd. apply NoDup_app in Hnd as [Hnd _].
    apply NoDup_app in Hnd as (_ & Hdisj & _).
    intros Hin. apply (Hdisj _ Hin). constructor.
Qed.

(** The results that wait in the map at the end, in the order of their
    indices. *)
Lemma waiting_results (mm : gmap Z QueryResult) :
  (∀ i r, mm !! i = Some r → QueryIdx r = i) →
  omap (λ i, mm !! i) (sorted_ids mm) ≡ₚ (map_to_list mm).*2 ∧
  QueryIdx <$> omap (λ i, mm !! i) (sorted_ids mm) = sorted_ids mm.
Proof.
  intros Hkeys. unfold sorted_ids. split.
  - rewrite merge_sort_Permutation. rewrite omap_lookup_keys; [done|].
    apply Forall_forall. intros [i r] Hin. by apply elem_of_map_to_list.
  - assert (Forall (λ i, ∃ r, mm !! i = Some r)
              (merge_sort Z.le (map_to_list mm).*1)) as Hall.
    { apply Forall_forall. intros i Hi.
      rewrite merge_sort_Permutation in Hi.
      apply list_elem_of_fmap in Hi as ([i' r] & -> & Hin).
      exists r. by apply elem_of_map_to_list. }
    induction Hall as [|i l [r Hr] _ IH]; csimpl; [done|].
    rewrite Hr. csimpl. by rewrite IH, (Hkeys i r).
Qed.

Lemma reorder_inv_init :
  reorder_inv [] {| m := ∅; id := 0; sent := [] |}.
Proof.
  exists 0. cbn [m id sent]. split_and!; [lia|lia|done|done| |].
  - intros i r Hi. by rewrite lookup_empty in Hi.
  - by rewrite map_to_list_empty.
Qed.

Lemma reorder_finish_spec (arrivals : list QueryResult) (st : reorder_state) :
  reorder_inv arrivals st →
  NoDup (QueryIdx <$> arrivals) →
  Forall (λ r, 0 ≤ QueryIdx r < 2 ^ 64) arrivals →
  reorder_finish st ≡ₚ arrivals ∧
  StronglySorted Z.lt (QueryIdx <$> reorder_finish st).
Proof.
  intros (k & Hk & Hsent & _ & Hkeys & Hperm) Hnd Hrange.
  unfold reorder_finish. destruct (decide (0 < size (m st))%nat) as [Hsz|Hsz].
  - destruct (waiting_results (m st) Hkeys) as [Hwperm Hwidx].
    split; [by rewrite Hwperm|].
    rewrite fmap_app, Hsent, Hwidx.
    apply StronglySorted_app_2.
    + intros x1 x2 Hx1%elem_of_seqZ Hx2.
      unfold sorted_ids in Hx2. rewrite merge_sort_Permutation in Hx2.
      apply list_elem_of_fmap in Hx2 as ([i r] & -> & Hin).
      simpl. pose proof Hin as Hir%elem_of_map_to_list.
      assert (r ∈ (map_to_list (m st)).*2) as Hr.
      { apply list_elem_of_fmap. by exists (i, r). }
      assert (0 ≤ i) as Hi0.
      { rewrite Forall_forall in Hrange. rewrite <- (Hkeys i r Hir).
        apply Hrange. rewrite <- Hperm. apply elem_of_app. by right. }
      assert (i ∉ seqZ 0 k) as Hnotin.
      { rewrite <- Hperm, fmap_app, Hsent in Hnd.
        apply NoDup_app in Hnd as (_ & Hdisj & _).
        intros Hin'. apply (Hdisj _ Hin'). apply list_elem_of_fmap.
        exists r. split; [by rewrite (Hkeys i r)|done]. }
      rewrite elem_of_seqZ in Hnotin. lia.
    + apply StronglySorted_seqZ.
    + apply StronglySorted_le_lt.
      * apply (StronglySorted_merge_sort Z.le).
      * unfold sorted_ids. rewrite merge_sort_Permutation.
        apply NoDup_fst_map_to_list.
  - assert (m st = ∅) as Hempty by (apply map_size_empty_iff; lia).
    rewrite Hempty, map_to_list_empty, app_nil_r in Hperm.
    split; [done|]. rewrite Hsent. apply StronglySorted_seqZ.
Qed.

Section Lines.
Context `{Strconv}.
Variable opt : Options.

(** The output is the lines of each result, one result after the other. *)
Lemma write_all_blocks (results : list QueryResult) (lines : list Line) :
  write_all opt results = Done lines →
  ∃ blocks,
    Forall2 (λ r block, write_result opt r = Done block) results blocks ∧
    lines = concat blocks.
Proof.
  unfold write_all.
  assert (∀ acc lines,
    foldM (λ out result, ls ← write_result opt result; Done (out ++ ls))
          results acc = Done lines →
    ∃ blocks,
      Forall2 (λ r block, write_result opt r = Done block) results blocks ∧
      lines = acc ++ concat blocks) as Hgen.
  { clear lines.
    induction results as [|r results IH]; intros acc lines; simpl.
    - intros [= <-]. exists []. split; [constructor|by rewrite app_nil_r].
    - intros (acc' & (ls & Hr & [= <-])%bind_done & Hrest)%bind_done.
      destruct (IH _ _ Hrest) as (blocks & Hblocks & ->).
      exists (ls :: blocks). split; [by constructor|].
      simpl. by rewrite app_assoc. }
  intros Hrun. destruct (Hgen [] lines Hrun) as (blocks & Hb & ->).
  by exists blocks.
Qed.

(** C3.  Whatever the order in which the results of the queries arrive
    from the workers (each query once, its index a uint64), the serialiser
    sends them on in strictly ascending order of [QueryIdx], none lost and
    none added; the output is the records of each result in that order,
    one result after the other, so the records of query q come before
    those of query q+1 and the records of a query are contiguous. *)
Theorem results_written_in_query_order (arrivals : list QueryResult) :
  NoDup (QueryIdx <$> arrivals) →
  Forall (λ r, 0 ≤ QueryIdx r < 2 ^ 64) arrivals →
  keepOrder = true ∧
  reorder arrivals ≡ₚ arrivals ∧
  StronglySorted Z.lt (QueryIdx <$> reorder arrivals) ∧
  ∀ lines,
    write_all opt (reorder arrivals) = Done lines →
    ∃ blocks,
      Forall2 (λ r block, write_result opt r = Done block)
              (reorder arrivals) blocks ∧
      lines = concat blocks.
Proof.
  intros Hnd Hrange. split; [done|].
  assert (reorder_inv arrivals
            (fold_left reorder_step arrivals
               {| m := ∅; id := 0; sent := [] |})) as Hinv.
  { apply (reorder_loop_inv arrivals [] _ reorder_inv_init); done. }
  destruct (reorder_finish_spec _ _ Hinv Hnd Hrange) as [Hperm Hsorted].
  split_and!; [done|done|]. apply write_all_blocks.
Qed.

(** C4.  For a query without matches ([Matches == nil]) the command
    writes a record if and only if [keepUnmatched] is set; that record has
    an empty target, fragIdx -1, hits 0 and 0 in frags, tLen, mKmers, qCov,
    tCov and jacc, and the values of the query in query, qLen, qKmers, FPR,
    kSize and queryIdx. *)
Theorem unmatched_query_record (result : QueryResult) :
  Matches result = None →
  ∃ lines,
    write_result opt result = Done lines ∧
    (keepUnmatched opt = false → lines = []) ∧
    (keepUnmatched opt = true →
     ∃ l, lines = [l] ∧
       target l = "" ∧ fragIdx l = "-1" ∧ hits l = "0" ∧
       frags l = "0" ∧ tLen l = "0" ∧ mKmers l = "0" ∧
       qCov l = "0" ∧ tCov l = "0" ∧ jacc l = "0" ∧
       query l = QueryID result ∧
       qLen l = Itoa (QueryLen result) ∧
       qKmers l = Itoa (QNumKmers result) ∧
       cFPR l = FormatFloat (FPR result) "e" 4 ∧
       kSize l = Itoa (K result) ∧
       queryIdx l = Itoa (wrap_int (QueryIdx result))).
Proof.
  intros Hnil. unfold write_result. rewrite Hnil.
  destruct (keepUnmatched opt); simpl.
  - eexists. split; [done|]. split; [done|]. intros _.
    eexists. split; [done|]. by repeat split.
  - exists []. by repeat split.
Qed.

(** *** The test of the query coverage against the databases *)

Lemma check_dbs_spec (dbs : list DBInfo) :
  (Exists (λ db, (queryCov opt <=? InfoFPR db)%float = true) dbs →
   ∃ msg, check_dbs opt dbs = Fatal msg) ∧
  (Forall (λ db, (queryCov opt <=? InfoFPR db)%float = false) dbs →
   check_dbs opt dbs = Done ()).
Proof.
  unfold check_dbs. induction dbs as [|db dbs [IHbad IHgood]]; simpl.
  - split; [by intros ?%Exists_nil|done].
  - split.
    + intros [Hdb|Hrest]%Exists_cons.
      * rewrite Hdb. simpl. by eexists.
      * destruct (queryCov opt <=? InfoFPR db)%float; simpl; [by eexists|].
        by apply IHbad.
    + intros [Hdb Hrest]%Forall_cons. rewrite Hdb. simpl. by apply IHgood.
Qed.

Lemma check_flags_no_panic : check_flags opt ≠ Panic.
Proof.
  unfold check_flags.
  destruct (_ || _ || _); simpl; [|done].
  destruct ((queryCov opt <? 0) || (1 <? queryCov opt))%float; simpl; [done|].
  by destruct ((targetCov opt <? 0) || (1 <? targetCov opt))%float.
Qed.

(** C10.  When the query-coverage threshold is at most the false-positive
    rate recorded for one of the loaded databases, the command ends in a
    fatal error and no query has been handed to the engine.  A run that
    hands a query to the engine, or that ends normally, has a threshold
    that is not at most the rate of any database: above it, when both are
    numbers.  A threshold that is not a number is not at most any rate:
    it passes the test of every database. *)
Theorem query_cov_must_exceed_fpr (dbs : list DBInfo)
    (records : list (string * string))
    (engine : list Query → list QueryResult) :
  let run := searchCmd opt dbs records engine in
  (Exists (λ db, (queryCov opt <=? InfoFPR db)%float = true) dbs →
   queries run = [] ∧ ∃ msg, result run = Fatal msg) ∧
  (queries run ≠ [] ∨ is_done (result run) = true →
   Forall (λ db,
             (queryCov opt <=? InfoFPR db)%float = false ∧
             ((queryCov opt =? queryCov opt)%float = true →
              (InfoFPR db =? InfoFPR db)%float = true →
              (InfoFPR db <? queryCov opt)%float = true)) dbs) ∧
  ((queryCov opt =? queryCov opt)%float = false →
   check_dbs opt dbs = Done ()).
Proof.
  intros run. subst run. unfold searchCmd.
  destruct (check_dbs_spec dbs) as [Hbad Hgood]. split_and!.
  - intros [msg Hmsg]%Hbad.
    destruct (check_flags opt) as [[]|msg'|] eqn:Hflags; simpl.
    + rewrite Hmsg. split; [done|by eexists].
    + split; [done|by eexists].
    + by apply check_flags_no_panic in Hflags.
  - intros Hrun.
    destruct (decide (Forall (λ db, (queryCov opt <=? InfoFPR db)%float = false)
                        dbs)) as [Hall|Hnot].
    + eapply Forall_impl; [exact Hall|]. intros db Hdb. split; [done|].
      intros Hq Hf. by apply not_leb_ltb.
    + apply not_Forall_Exists in Hnot; [|apply _].
      assert (Exists (λ db, (queryCov opt <=? InfoFPR db)%float = true) dbs)
        as [msg Hmsg]%Hbad.
      { eapply Exists_impl; [exact Hnot|]. intros db Hdb. simpl in Hdb.
        by destruct (queryCov opt <=? InfoFPR db)%float. }
      destruct (check_flags opt) as [[]|msg'|]; simpl in Hrun.
      * rewrite Hmsg in Hrun. simpl in Hrun. by destruct Hrun.
      * by destruct Hrun.
      * by destruct Hrun.
  - intros Hnan. apply Hgood, Forall_forall. intros db _.
    by destruct (nan_compares_false (queryCov opt) (InfoFPR db) Hnan)
      as (_ & _ & ?).
Qed.

End Lines.

Section SearchExamples.
Import Demo.

(** The theorem of C3 on four results that arrive as 2, 0, 3, 1. *)
Lemma results_written_in_query_order_witness :
  QueryIdx <$> reorder [matched 2; unmatched 0; matched 3; unmatched 1]
  = [0; 1; 2; 3] ∧
  StronglySorted Z.lt
    (QueryIdx <$> reorder [matched 2; unmatched 0; matched 3; unmatched 1]).
Proof.
  split; [vm_compute; reflexivity|].
  apply (@results_written_in_query_order demoStrconv (search_opt true 0.75)
           [matched 2; unmatched 0; matched 3; unmatched 1]).
  - apply (bool_decide_unpack _). vm_compute. exact I.
  - repeat constructor; simpl; lia.
Defined.

(** The theorem of C4 on a query without matches, with the flag set. *)
Lemma unmatched_query_record_witness :
  ∃ lines,
    @write_result demoStrconv (search_opt true 0.75) (unmatched 7)
    = Done lines ∧ length lines = 1%nat.
Proof.
  destruct (@unmatched_query_record demoStrconv (search_opt true 0.75)
              (unmatched 7) eq_refl) as (lines & Hlines & _ & Hkept).
  exists lines. split; [done|].
  destruct (Hkept eq_refl) as (l & -> & _). done.
Defined.

(** The theorem of C10 on a threshold of 0.25 against a database built with
    a false-positive rate of 0.5: a fatal error, and no query is sent. *)
Lemma query_cov_must_exceed_fpr_witness :
  queries (@searchCmd demoStrconv (search_opt false 0.25)
             [ {| InfoFPR := 0.5%float |} ]
             [("read"%string, "ACGT"%string)] (λ _, [])) = [] ∧
  ∃ msg,
    result (@searchCmd demoStrconv (search_opt false 0.25)
              [ {| InfoFPR := 0.5%float |} ]
              [("read"%string, "ACGT"%string)] (λ _, [])) = Fatal msg.
Proof.
  destruct (@query_cov_must_exceed_fpr demoStrconv (search_opt false 0.25)
              [ {| InfoFPR := 0.5%float |} ]
              [("read"%string, "ACGT"%string)] (λ _, []))
    as (Hfatal & _ & _).
  apply Hfatal. constructor. vm_compute. reflexivity.
Defined.

(** C10 fails on the code as the claim has it: with a threshold that is
    not a number and a database of false-positive rate 0.5 the tests of
    the flag and of the database pass, the query is handed to the engine
    and the run ends normally, while the threshold is not above the
    rate. *)
Lemma nan_threshold_counterexample :
  queries (@searchCmd demoStrconv (search_opt true nan)
             [ {| InfoFPR := 0.5%float |} ]
             [("read"%string, "ACGT"%string)] answer_backwards)
  = send [("read"%string, "ACGT"%string)] ∧
  is_done (result (@searchCmd demoStrconv (search_opt true nan)
                     [ {| InfoFPR := 0.5%float |} ]
                     [("read"%string, "ACGT"%string)] answer_backwards))
  = true ∧
  (0.5 <? nan)%float = false.
Proof. split_and!; vm_compute; reflexivity. Qed.

End SearchExamples.

End SearcherFacts.

(** ** The index command: batching *)

Module IndexerFacts.
Import Indexer GoFacts.

(** *** The blocks, described from the list of groups *)

(** Filling batches of [n] entries from the entries [xs], starting with
    the open batch [cur]: an entry is added to the batch, and a batch that
    has reached [n] entries is closed. *)
Fixpoint chunks_from {A} (n : Z) (cur : list A) (xs : list A)
  : list (list A) :=
  match xs with
  | [] => match cur with [] => [] | _ => [cur] end
  | x :: xs' =>
      if len (cur ++ [x]) <? n then chunks_from n (cur ++ [x]) xs'
      else (cur ++ [x]) :: chunks_from n [] xs'
  end.

(** The longest prefix whose elements satisfy [P], and the rest. *)
Fixpoint span {A} (P : A → bool) (xs : list A) : list A * list A :=
  match xs with
  | [] => ([], [])
  | x :: xs' =>
      if P x then let '(a, b) := span P xs' in (x :: a, b) else ([], xs)
  end.

(** The groups that are not skipped as empty buckets. *)
Definition nonempty (groups : list UnikFileInfoGroup)
  : list UnikFileInfoGroup :=
  filter (λ g, GKmers g ≠ 0) groups.

(** The blocks in three runs: the groups up to the first one above
    [kmerThreshold8] in batches of [sBlock0]; from there up to the first
    one above [kmerThresholdS] in batches of 8; every group from there on
    in a block of its own. *)
Definition blocks_in_runs (kmerThreshold8 kmerThresholdS sBlock0 : Z)
    (groups : list UnikFileInfoGroup) : list (list (list UnikFileInfo)) :=
  let '(small, rest) :=
    span (λ g, GKmers g <=? kmerThreshold8) (nonempty groups) in
  let '(mid, big) := span (λ g, GKmers g <=? kmerThresholdS) rest in
  chunks_from sBlock0 [] (Infos <$> small)
  ++ chunks_from 8 [] (Infos <$> mid)
  ++ ((λ g, [Infos g]) <$> big).

(** A group as the command builds it: its [Kmers] is the total of its
    infos, so a group with k-mers has infos. *)
Definition well_formed (g : UnikFileInfoGroup) : Prop :=
  GKmers g = totalKmers (Infos g).

Lemma well_formed_infos (g : UnikFileInfoGroup) :
  well_formed g → GKmers g ≠ 0 → as_last (Infos g) = Some (Infos g).
Proof.
  unfold well_formed. destruct (Infos g) as [|info infos]; simpl; [|done].
  intros -> Hne. done.
Qed.

Lemma emit_batch (st : batching_state) :
  batch st ≠ [] →
  emit st
  = ({| batch := []; flag8 := flag8 st; flag := flag st;
        lastInfos := lastInfos st; sBlock := sBlock st;
        b := int_add (b st) 1; blocks := blocks st ++ [batch st] |},
     Continue).
Proof.
  intros Hne. unfold emit, len.
  destruct (batch st) as [|x bt]; [done|].
  by destruct (Z.eqb_spec (Z.of_nat (length (x :: bt))) 0).
Qed.

Lemma emit_nothing (st : batching_state) :
  batch st = [] →
  emit st
  = (st, match lastInfos st with None => Break | Some _ => Continue end).
Proof. intros Hnil. unfold emit. by rewrite Hnil. Qed.

Section Loop.
Variables kmerThreshold8 kmerThresholdS : Z.
Abbreviation loop := (batching_loop kmerThreshold8 kmerThresholdS).

Lemma loop_skip (g : UnikFileInfoGroup) (gs : list UnikFileInfoGroup)
    (st : batching_state) :
  GKmers g = 0 → loop (g :: gs) st = loop gs st.
Proof.
  intros Hz. simpl. unfold iteration, consider. rewrite Hz. done.
Qed.

(** After a group above [kmerThresholdS] was met: the group left for the
    next round goes in a block alone, and so does every later group. *)
Lemma loop_flag (gs : list UnikFileInfoGroup) :
  ∀ (st : batching_state) (last : list UnikFileInfo),
  Forall well_formed gs →
  flag st = true → lastInfos st = Some last → batch st = [] →
  blocks (loop gs st)
  = blocks st ++ [last] :: ((λ g, [Infos g]) <$> nonempty gs).
Proof.
  induction gs as [|g gs IH];
    intros [bt f8 fl li sb nb bl] last Hwf; simpl; intros -> -> ->.
  - unfold iteration. cbn. by rewrite emit_batch.
  - apply Forall_cons in Hwf as [Hg Hwf]. unfold nonempty.
    rewrite filter_cons. destruct (decide (GKmers g ≠ 0)) as [Hnz|Hz].
    + unfold iteration, consider. cbn -[as_last].
      rewrite (proj2 (Z.eqb_neq _ _) Hnz).
      rewrite (well_formed_infos g Hg Hnz).
      rewrite emit_batch by done. cbn.
      erewrite IH; [|done|reflexivity|reflexivity|reflexivity].
      cbn. by rewrite <- app_assoc.
    + assert (GKmers g = 0) as Hz' by lia.
      unfold iteration, consider. cbn. rewrite Hz'. cbn.
      by erewrite IH.
Qed.

(** What waits to be put in a block: the open batch and the group left
    for the next round. *)
Definition pending (st : batching_state) : list (list UnikFileInfo) :=
  batch st ++ from_option (λ infos, [infos]) [] (lastInfos st).

Lemma add_previous_batch (st : batching_state) :
  batch (add_previous st) = pending st ∧
  lastInfos (add_previous st) = None ∧
  flag8 (add_previous st) = flag8 st ∧ flag (add_previous st) = flag st ∧
  sBlock (add_previous st) = sBlock st ∧ blocks (add_previous st) = blocks st.
Proof.
  unfold add_previous, pending. destruct (lastInfos st) eqn:Hl; simpl.
  - done.
  - by rewrite app_nil_r.
Qed.

(** After a group above [kmerThreshold8] was met: batches of 8, up to the
    first group above [kmerThresholdS]. *)
Lemma loop_flag8 (gs : list UnikFileInfoGroup) :
  ∀ st : batching_state,
  Forall well_formed gs →
  flag8 st = true → flag st = false → sBlock st = 8 →
  blocks (loop gs st)
  = blocks st
    ++ chunks_from 8 (pending st)
         (Infos <$> (span (λ g, GKmers g <=? kmerThresholdS) (nonempty gs)).1)
    ++ ((λ g, [Infos g])
          <$> (span (λ g, GKmers g <=? kmerThresholdS) (nonempty gs)).2).
Proof.
  induction gs as [|g gs IH]; intros st Hwf H8 Hflag Hsb.
  - cbn. unfold iteration, consider. rewrite Hflag, H8. cbn.
    destruct (add_previous_batch st) as (Hb & Hl & _ & _ & _ & Hbl).
    destruct (pending st) as [|x pend] eqn:Hpend.
    + rewrite emit_nothing by done. cbn. by rewrite Hbl, ?app_nil_r.
    + rewrite emit_batch by (by rewrite Hb). cbn.
      by rewrite Hbl, Hb, ?app_nil_r.
  - apply Forall_cons in Hwf as [Hg Hwf]. unfold nonempty.
    rewrite filter_cons. destruct (decide (GKmers g ≠ 0)) as [Hnz|Hz].
    2:{ rewrite loop_skip by lia. by apply IH. }
    cbn [batching_loop]. unfold iteration, consider.
    rewrite (proj2 (Z.eqb_neq _ _) Hnz), Hflag, H8. cbn -[as_last].
    destruct (add_previous_batch st) as (Hb & Hl & H8' & Hflag' & Hsb' & Hbl).
    rewrite Hflag', Hflag. cbn [span].
    destruct (Z.ltb_spec kmerThresholdS (GKmers g)) as [Hbig|Hmid].
    + (* the first group above kmerThresholdS *)
      rewrite (proj2 (Z.leb_gt _ _) Hbig). cbn -[as_last].
      rewrite (well_formed_infos g Hg Hnz).
      destruct (pending st) as [|x pend] eqn:Hpend.
      * rewrite emit_nothing by done. cbn.
        erewrite loop_flag; [|done|reflexivity|reflexivity|done].
        cbn. by rewrite Hbl.
      * rewrite emit_batch by (cbn; by rewrite Hb). cbn.
        erewrite loop_flag; [|done|reflexivity|reflexivity|reflexivity].
        cbn. by rewrite Hbl, Hb, <- ?app_assoc.
    + rewrite (proj2 (Z.leb_le _ _) Hmid).
      destruct (span _ (filter _ gs)) as [mid big] eqn:Hspan.
      cbn [fst snd fmap list_fmap chunks_from].
      unfold add_to_batch. cbn [batch sBlock].
      rewrite Hb, Hsb', Hsb, H8', Hl, Hbl, H8, Hflag', Hflag.
      destruct (len (pending st ++ [Infos g]) <? 8) eqn:Hfull.
      * rewrite IH by done. unfold nonempty. rewrite Hspan.
        cbn [fst snd blocks]. f_equal. f_equal.
        unfold pending. cbn. by rewrite app_nil_r.
      * rewrite emit_batch by (cbn; by destruct (pending st)).
        cbn [fst snd]. rewrite IH by done. unfold nonempty. rewrite Hspan.
        cbn [fst snd blocks batch]. by rewrite <- app_assoc.
Qed.

Lemma chunks_from_first {A} (x : A) (xs : list A) :
  chunks_from 8 [] (x :: xs) = chunks_from 8 [x] xs.
Proof. reflexivity. Qed.

(** The whole loop, from a state in which no group above
    [kmerThreshold8] was met. *)
Lemma loop_normal (gs : list UnikFileInfoGroup) :
  ∀ st : batching_state,
  Forall well_formed gs →
  flag8 st = false → flag st = false → lastInfos st = None →
  blocks (loop gs st)
  = blocks st
    ++ chunks_from (sBlock st) (batch st)
         (Infos <$> (span (λ g, GKmers g <=? kmerThreshold8) (nonempty gs)).1)
    ++ chunks_from 8 []
         (Infos <$> (span (λ g, GKmers g <=? kmerThresholdS)
                       (span (λ g, GKmers g <=? kmerThreshold8)
                          (nonempty gs)).2).1)
    ++ ((λ g, [Infos g])
          <$> (span (λ g, GKmers g <=? kmerThresholdS)
                 (span (λ g, GKmers g <=? kmerThreshold8)
                    (nonempty gs)).2).2).
Proof.
  induction gs as [|g gs IH]; intros st Hwf H8 Hflag Hlast.
  - cbn. unfold iteration, consider. rewrite Hflag, H8. cbn.
    destruct (batch st) as [|x bt] eqn:Hbatch.
    + rewrite emit_nothing by done. cbn. by rewrite ?app_nil_r.
    + rewrite emit_batch by (by rewrite Hbatch). cbn.
      by rewrite Hbatch, ?app_nil_r.
  - apply Forall_cons in Hwf as [Hg Hwf]. unfold nonempty.
    rewrite filter_cons. destruct (decide (GKmers g ≠ 0)) as [Hnz|Hz].
    2:{ rewrite loop_skip by lia. by apply IH. }
    cbn [batching_loop]. unfold iteration, consider.
    rewrite (proj2 (Z.eqb_neq _ _) Hnz), Hflag, H8. cbn -[as_last].
    cbn [span].
    destruct (Z.ltb_spec kmerThreshold8 (GKmers g)) as [Habove|Hsmall].
    + rewrite (proj2 (Z.leb_gt _ _) Habove). cbn [fst snd span].
      destruct (Z.ltb_spec kmerThresholdS (GKmers g)) as [Hbig|Hmid].
      * (* a group above kmerThresholdS *)
        rewrite (proj2 (Z.leb_gt _ _) Hbig). cbn -[as_last].
        rewrite (well_formed_infos g Hg Hnz).
        destruct (batch st) as [|x bt] eqn:Hbatch.
        -- rewrite emit_nothing by done. cbn.
           erewrite loop_flag; [|done|reflexivity|reflexivity|done].
           done.
        -- rewrite emit_batch by done. cbn.
           erewrite loop_flag; [|done|reflexivity|reflexivity|reflexivity].
           cbn. by rewrite <- ?app_assoc.
      * (* a group above kmerThreshold8 only *)
        rewrite (proj2 (Z.leb_le _ _) Hmid). cbn -[as_last].
        rewrite (well_formed_infos g Hg Hnz).
        destruct (span _ (filter _ gs)) as [mid big] eqn:Hspan.
        cbn [fst snd fmap list_fmap]. rewrite chunks_from_first.
        destruct (batch st) as [|x bt] eqn:Hbatch.
        -- rewrite emit_nothing by done. cbn.
           rewrite loop_flag8 by done. unfold nonempty. rewrite Hspan.
           cbn. unfold pending. cbn. done.
        -- rewrite emit_batch by done. cbn.
           rewrite loop_flag8 by done. unfold nonempty. rewrite Hspan.
           cbn. unfold pending. cbn. by rewrite <- ?app_assoc.
    + rewrite (proj2 (Z.leb_le _ _) Hsmall).
      destruct (span _ (filter _ gs)) as [small rest] eqn:Hspan.
      cbn [fst snd fmap list_fmap chunks_from].
      unfold add_to_batch. cbn [batch sBlock].
      destruct (len (batch st ++ [Infos g]) <? sBlock st) eqn:Hfull.
      * rewrite IH by (cbn; done). unfold nonempty. rewrite Hspan. done.
      * rewrite emit_batch by (cbn; by destruct (batch st)).
        cbn. rewrite IH by (cbn; done). unfold nonempty. rewrite Hspan.
        cbn. by rewrite <- ?app_assoc.
Qed.

(** The loop builds the blocks in the three runs. *)
Lemma batching_in_runs (sBlock0 : Z) (groups : list UnikFileInfoGroup) :
  Forall well_formed groups →
  batching kmerThreshold8 kmerThresholdS sBlock0 groups
  = blocks_in_runs kmerThreshold8 kmerThresholdS sBlock0 groups.
Proof.
  intros Hwf. unfold batching, blocks_in_runs.
  rewrite loop_normal by done. cbn.
  destruct (span _ (nonempty groups)) as [small rest]. cbn [fst snd].
  by destruct (span _ rest) as [mid big].
Qed.

End Loop.

(** *** Batches and prefixes *)

Lemma chunks_from_concat {A} (n : Z) (xs : list A) :
  ∀ cur, concat (chunks_from n cur xs) = cur ++ xs.
Proof.
  induction xs as [|x xs IH]; intros cur; simpl.
  - destruct cur; simpl; [done|]. by rewrite ?app_nil_r.
  - destruct (len (cur ++ [x]) <? n); simpl; rewrite IH.
    + by rewrite <- app_assoc.
    + by rewrite ?app_nil_r, <- ?app_assoc.
Qed.

(** A batch is closed as soon as it has [n] entries: no batch has more,
    and every batch but the last has exactly [n]. *)
Lemma chunks_from_sizes {A} (n : Z) (xs : list A) :
  ∀ cur, len cur < n →
  Forall (λ blk, 1 ≤ len blk ≤ n) (chunks_from n cur xs) ∧
  ∀ blks lastblk, chunks_from n cur xs = blks ++ [lastblk] →
                  Forall (λ blk, len blk = n) blks.
Proof.
  induction xs as [|x xs IH]; intros cur Hcur; simpl.
  - destruct cur as [|c cur]; split.
    + constructor.
    + intros blks lastblk Heq. by destruct blks.
    + constructor; [|constructor]. unfold len in *. simpl in *. lia.
    + intros blks lastblk Heq.
      destruct blks as [|blk blks]; [constructor|].
      injection Heq as _ Heq. by destruct blks.
  - assert (len (cur ++ [x]) = len cur + 1) as Hlen.
    { unfold len. rewrite length_app. simpl. lia. }
    destruct (Z.ltb_spec (len (cur ++ [x])) n) as [Hopen|Hfull].
    + by apply IH.
    + assert (0 < n) as Hn by (pose proof (len_nonneg cur); lia).
      destruct (IH [] Hn) as [IHsize IHfull]. split.
      * constructor; [lia|done].
      * intros blks lastblk Heq.
        destruct blks as [|blk blks].
        { constructor. }
        injection Heq as <- Heq. constructor; [lia|]. by eapply IHfull.
Qed.

Lemma singles_concat (gs : list UnikFileInfoGroup) :
  concat ((λ g, [Infos g]) <$> gs) = Infos <$> gs.
Proof. induction gs as [|g gs IH]; csimpl; [done|]. by rewrite IH. Qed.

Lemma span_app {A} (P : A → bool) (xs : list A) :
  (span P xs).1 ++ (span P xs).2 = xs.
Proof.
  induction xs as [|x xs IH]; simpl; [done|].
  destruct (P x); [|done]. destruct (span P xs) as [a b]. simpl in *.
  by rewrite IH.
Qed.

(** The prefix stops at the latest at an element that fails [P]. *)
Lemma span_stop {A} (P : A → bool) (xs ys : list A) (y : A) :
  P y = false →
  span P (xs ++ y :: ys) = ((span P xs).1, (span P xs).2 ++ y :: ys).
Proof.
  intros Hy. induction xs as [|x xs IH]; simpl.
  - by rewrite Hy.
  - destruct (P x); [|done]. rewrite IH. by destruct (span P xs).
Qed.

Lemma span_all {A} (P : A → bool) (xs : list A) :
  Forall (λ x, P x = true) xs → span P xs = (xs, []).
Proof.
  induction 1 as [|x xs Hx _ IH]; simpl; [done|]. by rewrite Hx, IH.
Qed.

Lemma nonempty_app (xs ys : list UnikFileInfoGroup) :
  nonempty (xs ++ ys) = nonempty xs ++ nonempty ys.
Proof. unfold nonempty. apply filter_app. Qed.

Lemma nonempty_cons (g : UnikFileInfoGroup) (gs : list UnikFileInfoGroup) :
  GKmers g ≠ 0 → nonempty (g :: gs) = g :: nonempty gs.
Proof. intros Hg. unfold nonempty. by rewrite filter_cons, decide_True. Qed.

Lemma nonempty_below (T : Z) (gs : list UnikFileInfoGroup) :
  Forall (λ g, GKmers g ≤ T) gs →
  Forall (λ g, (GKmers g <=? T) = true) (nonempty gs).
Proof.
  intros Hall. apply Forall_forall. intros g Hg.
  apply list_elem_of_filter in Hg as [_ Hg].
  rewrite Forall_forall in Hall. apply Z.leb_le. by apply Hall.
Qed.

(** C5.  The groups that are not empty are put in blocks in their order.
    (a) While no group with more k-mers than [T8] (block-max-kmers-t1) is
    met, a batch is closed when it reaches the block size [sBlock0]: every
    block has at most that many groups, and every block but the last has
    exactly that many.  (b) A group with more k-mers than [TS]
    (block-max-kmers-t2) is a block of its own, after the blocks of the
    groups before it and before those of the groups after it.  (c) From
    the first group with more than [T8] but not more than [TS] k-mers on,
    the batches are closed at 8 groups, up to the first group above
    [TS]. *)
Theorem batching_by_thresholds (T8 TS sBlock0 : Z)
    (groups : list UnikFileInfoGroup) :
  Forall well_formed groups →
  0 ≤ T8 < TS →
  1 ≤ sBlock0 →
  (Forall (λ g, GKmers g ≤ T8) groups →
   batching T8 TS sBlock0 groups
   = chunks_from sBlock0 [] (Infos <$> nonempty groups) ∧
   Forall (λ blk, 1 ≤ len blk ≤ sBlock0) (batching T8 TS sBlock0 groups) ∧
   ∀ blks lastblk, batching T8 TS sBlock0 groups = blks ++ [lastblk] →
                   Forall (λ blk, len blk = sBlock0) blks) ∧
  (∀ pre g post,
     groups = pre ++ g :: post → TS < GKmers g →
     ∃ before after,
       batching T8 TS sBlock0 groups = before ++ [[Infos g]] ++ after ∧
       concat before = Infos <$> nonempty pre ∧
       concat after = Infos <$> nonempty post) ∧
  (∀ pre g post,
     groups = pre ++ g :: post →
     Forall (λ g', GKmers g' ≤ T8) pre → T8 < GKmers g ≤ TS →
     let '(mid, big) :=
       span (λ g', GKmers g' <=? TS) (nonempty (g :: post)) in
     batching T8 TS sBlock0 groups
     = chunks_from sBlock0 [] (Infos <$> nonempty pre)
       ++ chunks_from 8 [] (Infos <$> mid)
       ++ ((λ g', [Infos g']) <$> big) ∧
     Forall (λ blk, 1 ≤ len blk ≤ 8)
       (chunks_from 8 [] (Infos <$> mid) ++ ((λ g', [Infos g']) <$> big))).
Proof.
  intros Hwf HT Hb. rewrite (batching_in_runs T8 TS sBlock0 groups Hwf).
  unfold blocks_in_runs. split_and!.
  - intros Hsmall.
    rewrite (span_all _ _ (nonempty_below T8 groups Hsmall)). simpl.
    rewrite app_nil_r.
    destruct (chunks_from_sizes sBlock0 (Infos <$> nonempty groups) [])
      as [Hsizes Hfull]; [unfold len; simpl; lia|].
    done.
  - intros pre g post -> Hbig.
    assert (GKmers g ≠ 0) as Hnz by lia.
    rewrite nonempty_app, (nonempty_cons g post Hnz).
    rewrite span_stop by (apply Z.leb_gt; lia).
    pose proof (span_app (λ g', GKmers g' <=? T8) (nonempty pre)) as Hpre.
    destruct (span (λ g', GKmers g' <=? T8) (nonempty pre)) as [small r1].
    simpl in Hpre. cbn [fst snd].
    rewrite span_stop by (apply Z.leb_gt; lia).
    pose proof (span_app (λ g', GKmers g' <=? TS) r1) as Hr1.
    destruct (span (λ g', GKmers g' <=? TS) r1) as [mid r2].
    simpl in Hr1. cbn [fst snd].
    exists (chunks_from sBlock0 [] (Infos <$> small)
            ++ chunks_from 8 [] (Infos <$> mid)
            ++ ((λ g', [Infos g']) <$> r2)),
           ((λ g', [Infos g']) <$> nonempty post).
    split_and!.
    + rewrite fmap_app. simpl. by rewrite <- !app_assoc.
    + rewrite !concat_app, !chunks_from_concat, singles_concat. simpl.
      by rewrite <- Hpre, <- Hr1, !fmap_app.
    + apply singles_concat.
  - intros pre g post -> Hpre Hg.
    assert (GKmers g ≠ 0) as Hnz by lia.
    rewrite nonempty_app, (nonempty_cons g post Hnz).
    rewrite span_stop by (apply Z.leb_gt; lia).
    rewrite (span_all _ _ (nonempty_below T8 pre Hpre)). cbn [fst snd app].
    rewrite <- (nonempty_cons g post Hnz).
    destruct (span (λ g', GKmers g' <=? TS) (nonempty (g :: post)))
      as [mid big].
    split; [done|]. apply Forall_app. split.
    + apply chunks_from_sizes. unfold len. simpl. lia.
    + apply Forall_fmap, Forall_forall. intros g' _. unfold len. simpl. lia.
Qed.

Section BatchingExamples.
Import Demo.

Lemma group_of_well_formed (infos : list UnikFileInfo) :
  well_formed (group_of infos).
Proof. reflexivity. Qed.

(** The scenario of a hundred references of which one has a hundred times
    the k-mers of the others, with [TS] at ten times the median, [T8] at
    five times and a block size of 16: six blocks of 16 references, one of
    3, and the huge reference in a block of its own. *)
Example hundred_references_blocks :
  length <$> batching 5000 10000 16 hundred_references
  = [16; 16; 16; 16; 16; 16; 3; 1]%nat ∧
  last (batching 5000 10000 16 hundred_references)
  = Some [Infos huge_reference] ∧
  length (filter (λ blk, Infos huge_reference ∈ blk)
            (batching 5000 10000 16 hundred_references)) = 1%nat.
Proof. split_and!; vm_compute; reflexivity. Qed.

(** The theorem of C5 on the hundred references: the huge one is a block
    of its own, after the blocks of the 99 others. *)
Lemma batching_by_thresholds_witness :
  ∃ before after,
    batching 5000 10000 16 hundred_references
    = before ++ [[Infos huge_reference]] ++ after ∧
    concat before = Infos <$> nonempty small_references ∧
    concat after = Infos <$> nonempty [].
Proof.
  assert (Forall well_formed hundred_references) as Hwf.
  { apply Forall_app. split.
    - apply Forall_replicate. apply group_of_well_formed.
    - repeat constructor. }
  destruct (batching_by_thresholds 5000 10000 16 hundred_references Hwf)
    as (_ & Hbig & _); [lia|lia|].
  apply (Hbig small_references huge_reference []); [reflexivity|].
  vm_compute. reflexivity.
Defined.

End BatchingExamples.

(** ** The index command: filling the Bloom filters *)

(** Bit [k] of the byte at row [loc] of a plane is set. *)
Definition has_bit (sigs : list Z) (loc k : Z) : Prop :=
  ∃ byte, sigs !! Z.to_nat loc = Some byte ∧ Z.testbit byte k = true.

Lemma shifted_one (k : Z) :
  0 ≤ k ≤ 7 → Z.shiftl 1 (7 - k) mod 2 ^ 8 = 2 ^ (7 - k).
Proof.
  intros Hk. rewrite Z.shiftl_1_l. apply Z.mod_small.
  split; [apply Z.pow_nonneg; lia|]. apply Z.pow_lt_mono_r; lia.
Qed.

Lemma set_bit_update (k : Z) (sigs : list Z) (loc : Z) :
  0 ≤ k ≤ 7 →
  set_bit k sigs loc = update_at sigs loc (λ byte, Z.lor byte (2 ^ (7 - k))).
Proof.
  intros Hk. unfold set_bit.
  destruct (Z.ltb_spec (7 - k) 0); [lia|]. by rewrite shifted_one.
Qed.

Lemma set_bit_sets (k : Z) (sigs sigs' : list Z) (loc : Z) :
  0 ≤ k ≤ 7 → set_bit k sigs loc = Done sigs' → has_bit sigs' loc (7 - k).
Proof.
  intros Hk. rewrite set_bit_update by done. intros Hup.
  pose proof (lookup_update_at _ _ _ _ (Z.to_nat loc) Hup) as Hlook.
  apply update_at_done in Hup as ([Hloc _] & byte & Hbyte & _).
  rewrite Hbyte in Hlook. simpl in Hlook.
  rewrite decide_True in Hlook by lia.
  eexists. split; [exact Hlook|].
  rewrite Z.lor_spec, Z.pow2_bits_true by lia. apply orb_true_r.
Qed.

Lemma set_bit_keeps (k : Z) (sigs sigs' : list Z) (loc : Z) (l b : Z) :
  0 ≤ k ≤ 7 → has_bit sigs l b → set_bit k sigs loc = Done sigs' →
  has_bit sigs' l b.
Proof.
  intros Hk (byte & Hbyte & Hbit). rewrite set_bit_update by done.
  intros Hup.
  pose proof (lookup_update_at _ _ _ _ (Z.to_nat l) Hup) as Hlook.
  rewrite Hbyte in Hlook. simpl in Hlook.
  eexists. split; [exact Hlook|].
  destruct (decide _); [|done]. rewrite Z.lor_spec, Hbit. done.
Qed.

Lemma set_bit_length (k : Z) (sigs sigs' : list Z) (loc : Z) :
  set_bit k sigs loc = Done sigs' → length sigs' = length sigs.
Proof.
  unfold set_bit. destruct (7 - k <? 0); [done|]. apply update_at_length.
Qed.

Section Fill.
Variable hash64 : Z → Z.
Variable hashLocationsFaster : Z → Z → Z → list Z.
Variable inStream : string → UnikFile.

(** The command with one hash per k-mer. *)
Abbreviation add_code1 := (add_code hash64 hashLocationsFaster 1).
Abbreviation add_file1 := (add_file hash64 hashLocationsFaster inStream 1).
Abbreviation add_columns1 :=
  (add_columns hash64 hashLocationsFaster inStream 1).
(** The one row of a code: the code of a hashed file, else its hash. *)
Definition position (isHashed : bool) (numSigsM1 x : Z) : Z :=
  Z.land (if isHashed then x else hash64 x) numSigsM1.

Lemma add_code_single (isHashed : bool) (numSigsM1 k : Z) (sigs : list Z)
    (x : Z) :
  add_code1 isHashed numSigsM1 k sigs x
  = set_bit k sigs (position isHashed numSigsM1 x).
Proof. unfold add_code, position. by destruct isHashed. Qed.

Lemma add_file_keeps (numSigsM1 k : Z) (sigs sigs' : list Z)
    (info : UnikFileInfo) (l b : Z) :
  0 ≤ k ≤ 7 → has_bit sigs l b →
  add_file1 numSigsM1 k sigs info = Done sigs' → has_bit sigs' l b.
Proof.
  intros Hk Hbit. unfold add_file.
  intros (_ & _ & (s1 & Hcodes & (_ & _ & [= <-])%bind_done)%bind_done)
    %bind_done.
  revert Hcodes. apply (foldM_invariant (λ s, has_bit s l b)); [|done].
  intros s x s' Hs. rewrite add_code_single. by apply set_bit_keeps.
Qed.

Lemma add_file_length (numSigsM1 k : Z) (sigs sigs' : list Z)
    (info : UnikFileInfo) :
  add_file1 numSigsM1 k sigs info = Done sigs' → length sigs' = length sigs.
Proof.
  unfold add_file.
  intros (_ & _ & (s1 & Hcodes & (_ & _ & [= <-])%bind_done)%bind_done)
    %bind_done.
  revert Hcodes.
  apply (foldM_invariant (λ s, length s = length sigs)); [|done].
  intros s x s' Hs. rewrite add_code_single. intros Hset.
  by rewrite (set_bit_length _ _ _ _ Hset).
Qed.

Lemma add_file_sets (numSigsM1 k : Z) (sigs sigs' : list Z)
    (info : UnikFileInfo) (x : Z) :
  0 ≤ k ≤ 7 → x ∈ Codes (inStream (Path info)) →
  add_file1 numSigsM1 k sigs info = Done sigs' →
  has_bit sigs'
    (position (IsHashed (inStream (Path info))) numSigsM1 x) (7 - k).
Proof.
  intros Hk Hx. unfold add_file.
  intros (_ & _ & (s1 & Hcodes & (_ & _ & [= <-])%bind_done)%bind_done)
    %bind_done.
  eapply (foldM_establish
            (λ s, has_bit s
               (position (IsHashed (inStream (Path info))) numSigsM1 x)
               (7 - k)) _ _ x); [exact Hx|exact Hcodes|..].
  - intros s s'. rewrite add_code_single. by apply set_bit_sets.
  - intros s y s' Hs. rewrite add_code_single. by apply set_bit_keeps.
Qed.

Lemma add_columns_keeps (numSigsM1 : Z) (cols : list (list UnikFileInfo)) :
  ∀ (k : Z) (sigs sigs' : list Z) (l b : Z),
  0 ≤ k → k + len cols ≤ 8 → has_bit sigs l b →
  add_columns1 numSigsM1 k cols sigs = Done sigs' →
  has_bit sigs' l b ∧ length sigs' = length sigs.
Proof.
  induction cols as [|infos cols IH]; intros k sigs sigs' l b Hk0 Hk8 Hbit;
    simpl.
  - by intros [= <-].
  - unfold len in *. simpl in Hk8.
    intros (s1 & Hcol & Hrest)%bind_done.
    assert (has_bit s1 l b ∧ length s1 = length sigs) as [Hs1 Hlen1].
    { revert Hcol.
      apply (foldM_invariant
               (λ s, has_bit s l b ∧ length s = length sigs)); [|done].
      intros s info s' [Hs Hlen] Hfile. split.
      - eapply add_file_keeps; [|done..]. lia.
      - by rewrite (add_file_length _ _ _ _ _ Hfile). }
    destruct (IH (k + 1) s1 sigs' l b) as [Hb Hl]; [lia|lia|done|done|].
    split; [done|congruence].
Qed.

Lemma add_columns_sets (numSigsM1 : Z) (cols : list (list UnikFileInfo)) :
  ∀ (k : Z) (sigs sigs' : list Z) (j : nat) (infos : list UnikFileInfo)
    (info : UnikFileInfo) (x : Z),
  0 ≤ k → k + len cols ≤ 8 →
  cols !! j = Some infos → info ∈ infos →
  x ∈ Codes (inStream (Path info)) →
  add_columns1 numSigsM1 k cols sigs = Done sigs' →
  has_bit sigs'
    (position (IsHashed (inStream (Path info))) numSigsM1 x)
    (7 - (k + Z.of_nat j)).
Proof.
  induction cols as [|col cols IH];
    intros k sigs sigs' j infos info x Hk0 Hk8 Hj Hinfo Hx; [done|].
  unfold len in *. simpl in Hk8. simpl.
  intros (s1 & Hcol & Hrest)%bind_done.
  destruct j as [|j]; simpl in Hj.
  - injection Hj as ->. replace (k + Z.of_nat 0) with k by lia.
    eapply add_columns_keeps; [| |
      |exact Hrest]; [lia|unfold len; lia|].
    eapply (foldM_establish
              (λ s, has_bit s
                 (position (IsHashed (inStream (Path info))) numSigsM1 x)
                 (7 - k)) _ _ info); [exact Hinfo|exact Hcol|..].
    + intros s s'. apply add_file_sets; [lia|done].
    + intros s y s' Hs. apply add_file_keeps; [lia|done].
  - replace (k + Z.of_nat (S j)) with (k + 1 + Z.of_nat j) by lia.
    eapply (IH (k + 1)); [lia|unfold len; lia|done..].
Qed.

End Fill.

(** *** The collector of the planes *)

(** The ids of the builders are ints from 1 on and [id + 1] does not
    overflow. *)
Definition builder_id (b : batch8s) : Prop := 1 ≤ id b < 2 ^ 63 - 1.

(** What holds between the batches received so far and the variables of
    the collector: the batches appended are those of the ids 1, ..., k-1 in
    this order, [id] is k, and every other batch received waits in [buf]
    under its id. *)
Definition collector_inv (received : list batch8s) (st : collector_state)
  : Prop :=
  ∃ k : Z,
    1 ≤ k ∧
    id <$> appended st = seqZ 1 (k - 1) ∧
    next st = k ∧
    (∀ i b, buf st !! i = Some b → id b = i) ∧
    appended st ++ (map_to_list (buf st)).*2 ≡ₚ received.

Lemma int_add_builder_id (k : Z) : 1 ≤ k < 2 ^ 63 - 1 → int_add k 1 = k + 1.
Proof.
  intros Hk. unfold int_add, wrap_int.
  rewrite Z.mod_small; lia.
Qed.

Lemma waiting_in_received (received : list batch8s) (st : collector_state)
    (i : Z) (b : batch8s) :
  appended st ++ (map_to_list (buf st)).*2 ≡ₚ received →
  buf st !! i = Some b → b ∈ received.
Proof.
  intros Hperm Hb. rewrite <- Hperm. apply elem_of_app. right.
  apply list_elem_of_fmap. exists (i, b). split; [done|].
  by apply elem_of_map_to_list.
Qed.

(** The inner loop keeps it. *)
Lemma drain_inv (received : list batch8s) (rounds : nat) :
  ∀ st : collector_state,
  Forall builder_id received →
  collector_inv received st →
  collector_inv received (drain rounds st).
Proof.
  induction rounds as [|rounds IH]; intros st Hrange Hinv; simpl; [done|].
  destruct (buf st !! next st) as [b|] eqn:Hwait; [|done].
  apply IH; [done|].
  destruct Hinv as (k & Hk & Happ & Hnext & Hkeys & Hperm).
  assert (id b = k) as Hb by (rewrite <- Hnext; by apply Hkeys).
  assert (builder_id b) as Hbid.
  { rewrite Forall_forall in Hrange. apply Hrange.
    by eapply waiting_in_received. }
  unfold builder_id in Hbid. rewrite Hb in Hbid.
  exists (k + 1). cbn [buf next appended]. split_and!.
  - lia.
  - rewrite fmap_app, Happ. cbn [fmap list_fmap]. rewrite Hb.
    replace (k + 1 - 1) with (k - 1 + 1) by lia.
    rewrite (seqZ_app 1 (k - 1) 1) by lia.
    by replace (1 + (k - 1)) with k by lia.
  - rewrite Hnext. by apply int_add_builder_id.
  - intros i b0 [_ Hi]%lookup_delete_Some. by apply Hkeys.
  - rewrite <- Hperm, <- app_assoc. apply Permutation_app_head.
    rewrite <- (map_to_list_delete (buf st) (next st) b) by done.
    done.
Qed.

(** The inner loop is left by its [break]: the rounds given to [drain]
    are enough. *)
Lemma drain_breaks (rounds : nat) :
  ∀ st : collector_state,
  (size (buf st) ≤ rounds)%nat →
  buf (drain rounds st) !! next (drain rounds st) = None.
Proof.
  induction rounds as [|rounds IH]; intros st Hsize; simpl.
  - assert (buf st = ∅) as -> by (apply map_size_empty_iff; lia). done.
  - destruct (buf st !! next st) as [b|] eqn:Hwait; [|done].
    apply IH. cbn [buf]. rewrite map_size_delete_Some by done. lia.
Qed.

Lemma collector_fresh (received : list batch8s) (st : collector_state)
    (k x : Z) :
  id <$> appended st = seqZ 1 (k - 1) →
  (∀ i b, buf st !! i = Some b → id b = i) →
  appended st ++ (map_to_list (buf st)).*2 ≡ₚ received →
  1 ≤ x → x ∉ id <$> received →
  k ≤ x ∧ buf st !! x = None.
Proof.
  intros Happ Hkeys Hperm Hx Hnotin.
  rewrite <- Hperm, fmap_app, Happ in Hnotin.
  apply not_elem_of_app in Hnotin as [Hseq Hmap].
  rewrite elem_of_seqZ in Hseq. split; [lia|].
  destruct (buf st !! x) as [b|] eqn:Hb; [|done].
  exfalso. apply Hmap. apply list_elem_of_fmap. exists b.
  split; [by rewrite (Hkeys x b)|].
  apply list_elem_of_fmap. exists (x, b).
  split; [done|]. by apply elem_of_map_to_list.
Qed.

Lemma collector_step_inv (received : list batch8s) (st : collector_state)
    (batch2 : batch8s) :
  collector_inv received st →
  Forall builder_id received →
  id batch2 ∉ id <$> received →
  builder_id batch2 →
  collector_inv (received ++ [batch2]) (collector_step st batch2).
Proof.
  intros Hinv Hrange Hnew Hid2. unfold collector_step.
  destruct (decide (id batch2 = next st)) as [Heq|Hne].
  - (* the batch that is waited for *)
    destruct Hinv as (k & Hk & Happ & Hnext & Hkeys & Hperm).
    unfold builder_id in Hid2. rewrite Heq, Hnext in Hid2.
    exists (k + 1). cbn [buf next appended]. split_and!.
    + lia.
    + rewrite fmap_app, Happ. cbn [fmap list_fmap]. rewrite Heq, Hnext.
      replace (k + 1 - 1) with (k - 1 + 1) by lia.
      rewrite (seqZ_app 1 (k - 1) 1) by lia.
      by replace (1 + (k - 1)) with k by lia.
    + rewrite Hnext. by apply int_add_builder_id.
    + done.
    + rewrite <- Hperm. by rewrite <- !app_assoc, (comm (++) [batch2]).
  - pose proof (drain_inv received (size (buf st)) st Hrange Hinv) as Hinv'.
    destruct Hinv' as (k & Hk & Happ & Hnext & Hkeys & Hperm).
    destruct (collector_fresh received _ k (id batch2) Happ Hkeys Hperm)
      as [_ Hfresh]; [unfold builder_id in Hid2; lia|done|].
    exists k. cbn [buf next appended]. split_and!; [done..| |].
    + intros i b Hi.
      apply lookup_insert_Some in Hi as [[<- <-]|[_ Hi]]; [done|].
      by apply Hkeys.
    + rewrite map_to_list_insert by done. rewrite <- Hperm.
      cbn [fmap list_fmap snd].
      by rewrite <- Permutation_middle, Permutation_cons_append.
Qed.

Lemma collector_loop_inv (rest : list batch8s) :
  ∀ (received : list batch8s) (st : collector_state),
  collector_inv received st →
  NoDup (id <$> (received ++ rest)) →
  Forall builder_id (received ++ rest) →
  collector_inv (received ++ rest) (fold_left collector_step rest st).
Proof.
  induction rest as [|b rest IH]; intros received st Hinv Hnd Hrange; simpl.
  - by rewrite app_nil_r.
  - rewrite cons_middle, app_assoc in Hnd, Hrange |- *.
    apply IH; [|done..].
    apply Forall_app in Hrange as [Hrange _].
    apply Forall_app in Hrange as [Hrange Hb].
    rewrite Forall_singleton in Hb.
    apply collector_step_inv; [done..| |done].
    rewrite !fmap_app in Hnd. apply NoDup_app in Hnd as [Hnd _].
    apply NoDup_app in Hnd as (_ & Hdisj & _).
    intros Hin. apply (Hdisj _ Hin). constructor.
Qed.

(** The batches that wait in [buf] at the end, in the order of their
    ids. *)
Lemma waiting_batches (mm : gmap Z batch8s) :
  (∀ i b, mm !! i = Some b → id b = i) →
  omap (λ i, mm !! i) (merge_sort Z.le (map_to_list mm).*1)
    ≡ₚ (map_to_list mm).*2 ∧
  id <$> omap (λ i, mm !! i) (merge_sort Z.le (map_to_list mm).*1)
    = merge_sort Z.le (map_to_list mm).*1.
Proof.
  intros Hkeys. split.
  - rewrite merge_sort_Permutation. rewrite omap_lookup_keys; [done|].
    apply Forall_forall. intros [i b] Hin. by apply elem_of_map_to_list.
  - assert (Forall (λ i, ∃ b, mm !! i = Some b)
              (merge_sort Z.le (map_to_list mm).*1)) as Hall.
    { apply Forall_forall. intros i Hi.
      rewrite merge_sort_Permutation in Hi.
      apply list_elem_of_fmap in Hi as ([i' b] & -> & Hin).
      exists b. by apply elem_of_map_to_list. }
    induction Hall as [|i l [b Hb] _ IH]; csimpl; [done|].
    rewrite Hb. csimpl. by rewrite IH, (Hkeys i b).
Qed.

(** Whatever the order of arrival, the collector lists every batch once,
    in strictly ascending order of the ids. *)
Lemma collector_sorted (arrivals : list batch8s) :
  NoDup (id <$> arrivals) →
  Forall builder_id arrivals →
  collector arrivals ≡ₚ arrivals ∧
  StronglySorted Z.lt (id <$> collector arrivals).
Proof.
  intros Hnd Hrange. unfold collector.
  assert (collector_inv arrivals
            (fold_left collector_step arrivals
               {| buf := ∅; next := 1; appended := [] |})) as Hinv.
  { apply (collector_loop_inv arrivals []); [|done..].
    exists 1. cbn [buf next appended]. split_and!; [lia|done|done| |].
    - intros i b Hi. by rewrite lookup_empty in Hi.
    - by rewrite map_to_list_empty. }
  set (st := fold_left _ _ _) in *. clearbody st.
  destruct Hinv as (k & Hk & Happ & _ & Hkeys & Hperm).
  unfold collector_finish.
  destruct (decide (0 < size (buf st))%nat) as [Hsz|Hsz].
  - destruct (waiting_batches (buf st) Hkeys) as [Hwperm Hwid].
    split; [by rewrite Hwperm|].
    rewrite fmap_app, Happ, Hwid.
    apply StronglySorted_app_2.
    + intros x1 x2 Hx1%elem_of_seqZ Hx2.
      rewrite merge_sort_Permutation in Hx2.
      apply list_elem_of_fmap in Hx2 as ([i b] & -> & Hin).
      simpl. pose proof Hin as Hib%elem_of_map_to_list.
      assert (b ∈ arrivals) as Hb by (by eapply waiting_in_received).
      assert (1 ≤ i) as Hi1.
      { rewrite Forall_forall in Hrange. rewrite <- (Hkeys i b Hib).
        apply (Hrange b Hb). }
      assert (i ∉ seqZ 1 (k - 1)) as Hnotin.
      { rewrite <- Hperm, fmap_app, Happ in Hnd.
        apply NoDup_app in Hnd as (_ & Hdisj & _).
        intros Hin'. apply (Hdisj _ Hin'). apply list_elem_of_fmap.
        exists b. split; [by rewrite (Hkeys i b)|].
        apply list_elem_of_fmap. by exists (i, b). }
      rewrite elem_of_seqZ in Hnotin. lia.
    + apply StronglySorted_seqZ.
    + apply StronglySorted_le_lt.
      * apply (StronglySorted_merge_sort Z.le).
      * rewrite merge_sort_Permutation. apply NoDup_fst_map_to_list.
  - assert (buf st = ∅) as Hempty by (apply map_size_empty_iff; lia).
    rewrite Hempty, map_to_list_empty, app_nil_r in Hperm.
    split; [done|]. rewrite Happ. apply StronglySorted_seqZ.
Qed.

Lemma builder_ids (n : nat) :
  (λ i : nat, Z.of_nat i + 1) <$> seq 0 n = seqZ 1 (Z.of_nat n).
Proof. unfold seqZ. by rewrite Nat2Z.id. Qed.

Lemma columns_from_lookup {A} (batch : list A) (c : nat) :
  columns_from batch (8 * (c / 8)) !! (c mod 8)%nat = batch !! c.
Proof.
  unfold columns_from.
  rewrite lookup_take_lt by (apply Nat.mod_upper_bound; lia).
  rewrite lookup_drop. f_equal. symmetry. apply Nat.div_mod_eq.
Qed.

Section Planes.
Variable hash64 : Z → Z.
Variable hashLocationsFaster : Z → Z → Z → list Z.
Variable inStream : string → UnikFile.

Abbreviation fill_plane1 :=
  (fill_plane hash64 hashLocationsFaster inStream 1).
Abbreviation builder1 := (builder hash64 hashLocationsFaster inStream 1).
Abbreviation fill_block1 :=
  (fill_block hash64 hashLocationsFaster inStream 1).

Lemma builder_done (numSigs : Z) (batch : list (list UnikFileInfo))
    (i : nat) (b : batch8s) :
  builder1 numSigs batch i = Done b ↔
  id b = Z.of_nat i + 1 ∧
  fill_plane1 numSigs (columns_from batch (8 * i)) = Done (sigs b).
Proof.
  unfold builder. rewrite bind_done. split.
  - by intros (plane & Hplane & [= <-]).
  - intros [Hid Hplane]. exists (sigs b). split; [done|].
    destruct b as [i' plane]. simpl in *. by rewrite Hid.
Qed.

(** Whatever the order in which the builders send, [sigsBlock] holds their
    planes in the order of the builders. *)
Lemma fill_block_planes (numSigs : Z) (batch : list (list UnikFileInfo))
    (schedule : list nat) (planes : list (list Z)) :
  schedule ≡ₚ builders batch →
  len batch < 2 ^ 63 →
  fill_block1 numSigs batch schedule = Done planes →
  Forall2 (λ i plane,
             fill_plane1 numSigs (columns_from batch (8 * i)) = Done plane)
          (builders batch) planes.
Proof.
  intros Hsched Hlen. unfold fill_block.
  intros (arrivals & Hbuilt & [= <-])%bind_done.
  apply foldM_collect in Hbuilt as (bs & Hbs & ->). rewrite app_nil_l.
  assert (id <$> bs = (λ i : nat, Z.of_nat i + 1) <$> schedule) as Hids.
  { clear Hsched. induction Hbs as [|i b sch bs Hb _ IH]; [done|].
    apply builder_done in Hb as [Hb _]. csimpl. by rewrite Hb, IH. }
  assert (NoDup (id <$> bs)) as Hnd.
  { rewrite Hids. apply NoDup_fmap_2; [intros i j ?; lia|].
    rewrite Hsched. apply NoDup_seq. }
  assert (Forall builder_id bs) as Hrange.
  { apply Forall_forall. intros b Hb.
    assert (id b ∈ id <$> bs) as Hin by (by apply list_elem_of_fmap_2).
    rewrite Hids, Hsched in Hin.
    apply list_elem_of_fmap in Hin as (i & Hi & Hin).
    unfold builders in Hin. apply elem_of_seq in Hin.
    unfold builder_id. rewrite Hi.
    assert ((len batch + 7) / 8 < 2 ^ 61)
      by (apply Z.div_lt_upper_bound; lia).
    lia. }
  destruct (collector_sorted bs Hnd Hrange) as [Hperm Hsorted].
  assert (id <$> collector bs
          = (λ i : nat, Z.of_nat i + 1) <$> builders batch) as Hout.
  { apply (StronglySorted_unique_strong Z.lt).
    - intros; lia.
    - done.
    - unfold builders. rewrite builder_ids. apply StronglySorted_seqZ.
    - by rewrite Hperm, Hids, Hsched. }
  unfold sigsBlock. apply Forall2_fmap_r.
  apply Forall2_same_length_lookup_2.
  - apply (f_equal length) in Hout. by rewrite !length_fmap in Hout.
  - intros j i b Hi Hb.
    assert (id b = Z.of_nat i + 1) as Hidb.
    { apply (f_equal (λ l, l !! j)) in Hout.
      rewrite !list_lookup_fmap, Hi, Hb in Hout. by injection Hout. }
    assert (b ∈ bs) as Hin.
    { rewrite <- Hperm. by eapply list_elem_of_lookup_2. }
    apply list_elem_of_lookup in Hin as (j' & Hj').
    destruct (Forall2_lookup_r _ _ _ _ _ Hbs Hj') as (i' & _ & Hb').
    apply builder_done in Hb' as [Hidb' Hplane].
    assert (i' = i) as -> by lia. done.
Qed.

Lemma add_columns_length (numSigsM1 : Z) (cols : list (list UnikFileInfo)) :
  ∀ (k : Z) (sigs sigs' : list Z),
  add_columns hash64 hashLocationsFaster inStream 1 numSigsM1 k cols sigs
  = Done sigs' →
  length sigs' = length sigs.
Proof.
  induction cols as [|infos cols IH]; intros k sigs sigs'; simpl.
  - by intros [= <-].
  - intros (s1 & Hcol & Hrest)%bind_done.
    rewrite (IH _ _ _ Hrest). revert Hcol.
    apply (foldM_invariant (λ s, length s = length sigs)); [|done].
    intros s info s' Hs Hfile.
    by rewrite (add_file_length _ _ _ _ _ _ _ _ Hfile).
Qed.

(** A plane of at most 8 columns has the bit [7 - j] set at the row of
    every code of column [j], and [numSigs] rows. *)
Lemma fill_plane_sets (numSigs : Z) (cols : list (list UnikFileInfo))
    (plane : list Z) (j : nat) (infos : list UnikFileInfo)
    (info : UnikFileInfo) (x : Z) :
  1 ≤ numSigs < 2 ^ 64 →
  (length cols ≤ 8)%nat →
  fill_plane1 numSigs cols = Done plane →
  cols !! j = Some infos → info ∈ infos →
  x ∈ Codes (inStream (Path info)) →
  has_bit plane
    (position hash64 (IsHashed (inStream (Path info))) (numSigs - 1) x)
    (7 - Z.of_nat j)
  ∧ length plane = Z.to_nat numSigs.
Proof.
  intros HnumSigs Hcols. unfold fill_plane.
  intros (zeros & [_ ->]%make_done & Hfill)%bind_done Hj Hinfo Hx.
  assert (uint64_sub numSigs 1 = numSigs - 1) as HM1.
  { unfold uint64_sub, wrap_uint64. apply Z.mod_small. lia. }
  rewrite HM1 in Hfill. split.
  - replace (7 - Z.of_nat j) with (7 - (0 + Z.of_nat j)) by lia.
    eapply add_columns_sets; [| |exact Hj|exact Hinfo|exact Hx|exact Hfill].
    + lia.
    + unfold len. lia.
  - rewrite (add_columns_length _ _ _ _ _ Hfill). apply length_replicate.
Qed.

(** C2.  Index build with one hash.  Let x be a code read from a file of
    column c of a block, and [code] be x if the file is hashed and
    [hash64(x)] if not.  The builder changes one byte for x, the one at
    row [code & (numSigs - 1)] of its [sigs], by OR with [1 << (7 - c%8)];
    the row is [code mod numSigs] when [numSigs] is a power of two; and when
    the block is filled, whatever the order in which the builders deliver,
    bit [7 - c%8] of that row is set in plane [c/8] of [sigsBlock]. *)
Theorem bloom_single_position (numSigs : Z)
    (batch : list (list UnikFileInfo)) (schedule : list nat)
    (planes : list (list Z)) (c : nat) (infos : list UnikFileInfo)
    (info : UnikFileInfo) (x : Z) :
  1 ≤ numSigs < 2 ^ 64 →
  len batch < 2 ^ 63 →
  schedule ≡ₚ builders batch →
  fill_block1 numSigs batch schedule = Done planes →
  batch !! c = Some infos → info ∈ infos →
  x ∈ Codes (inStream (Path info)) →
  let file := inStream (Path info) in
  let code := if IsHashed file then x else hash64 x in
  let row := Z.land code (numSigs - 1) in
  let _k := Z.of_nat (c mod 8) in
  (∀ sigs : list Z,
     add_code hash64 hashLocationsFaster 1 (IsHashed file)
              (uint64_sub numSigs 1) _k sigs x
     = update_at sigs row (λ byte, Z.lor byte (Z.shiftl 1 (7 - _k)))) ∧
  (∀ j, 0 ≤ j → numSigs = 2 ^ j → row = code mod numSigs) ∧
  0 ≤ row < numSigs ∧
  ∃ plane byte,
    planes !! (c / 8)%nat = Some plane ∧
    plane !! Z.to_nat row = Some byte ∧
    Z.testbit byte (7 - _k) = true.
Proof.
  intros HnumSigs Hlen Hsched Hfill Hc Hinfo Hx file code row _k.
  assert (uint64_sub numSigs 1 = numSigs - 1) as HM1.
  { unfold uint64_sub, wrap_uint64. apply Z.mod_small. lia. }
  assert (0 ≤ _k ≤ 7) as Hk.
  { subst _k. pose proof (Nat.mod_upper_bound c 8). lia. }
  assert (position hash64 (IsHashed file) (numSigs - 1) x = row) as Hrow
    by done.
  pose proof (lookup_lt_Some _ _ _ Hc) as Hclt.
  assert (builders batch !! (c / 8)%nat = Some (c / 8)%nat) as Hbb.
  { unfold builders. apply lookup_seq. split; [done|].
    unfold len. apply Nat.Div0.div_lt_upper_bound.
    rewrite Z2Nat.inj_div, Z2Nat.inj_add, Nat2Z.id by lia.
    change (Z.to_nat 7) with 7%nat. change (Z.to_nat 8) with 8%nat.
    pose proof (Nat.div_mod_eq (length batch + 7) 8).
    pose proof (Nat.mod_upper_bound (length batch + 7) 8). lia. }
  pose proof (fill_block_planes numSigs batch schedule planes
                Hsched Hlen Hfill) as Hplanes.
  destruct (Forall2_lookup_l _ _ _ _ _ Hplanes Hbb) as (plane & Hplane & Hp).
  destruct (fill_plane_sets numSigs (columns_from batch (8 * (c / 8)))
              plane (c mod 8) infos info x)
    as [(byte & Hbyte & Hbit) Hrows]; [done| |done| |done|done|].
  { unfold columns_from. rewrite length_take. lia. }
  { by rewrite columns_from_lookup. }
  change (plane !! Z.to_nat row = Some byte) in Hbyte. split_and!.
  - intros sigs. rewrite add_code_single, HM1, Hrow.
    rewrite set_bit_update by done. by rewrite Z.shiftl_1_l.
  - intros j Hj ->. subst row.
    replace (2 ^ j - 1) with (Z.ones j) by (rewrite Z.ones_equiv; lia).
    by apply Z.land_ones.
  - subst row. apply Z.land_nonneg. lia.
  - apply lookup_lt_Some in Hbyte. lia.
  - by exists plane, byte.
Qed.

End Planes.

Section FillExamples.
Import Demo.

(** The nine columns with 8 signatures: the codes 5 and 12 of the hashed
    files are at the rows 5 and 4, and the columns 0 to 7 have the bits 7
    to 0 of plane 0; the hash of the k-mer 2 is 7, and column 8 has bit 7
    of plane 1. *)
Example nine_columns_planes :
  fill_block demoHash64 noLocations demoInStream 1 8 nine_columns [1; 0]%nat
  = Done [ [0; 0; 0; 0; 255; 255; 0; 0]; [0; 0; 0; 0; 0; 0; 0; 128] ].
Proof. vm_compute. reflexivity. Qed.

(** The theorem of C2 on the k-mer 2 of column 8, the second builder
    delivering first. *)
Lemma bloom_single_position_witness :
  ∃ plane byte,
    [ [0; 0; 0; 0; 255; 255; 0; 0]; [0; 0; 0; 0; 0; 0; 0; 128] ] !! 1%nat
    = Some plane ∧
    plane !! 7%nat = Some byte ∧
    Z.testbit byte 7 = true.
Proof.
  destruct (bloom_single_position demoHash64 noLocations demoInStream
              8 nine_columns [1; 0]%nat
              [ [0; 0; 0; 0; 255; 255; 0; 0]; [0; 0; 0; 0; 0; 0; 0; 128] ]
              8%nat (Infos (reference "plain" 1))
              {| Path := "plain.unik"; Name := "plain"; Index := 0;
                 Kmers := 1 |} 2)
    as (_ & _ & _ & Hset).
  - lia.
  - vm_compute. reflexivity.
  - vm_compute. apply perm_swap.
  - vm_compute. reflexivity.
  - reflexivity.
  - vm_compute. constructor.
  - vm_compute. constructor.
  - exact Hset.
Defined.

End FillExamples.

End IndexerFacts.

(* ===================================================================== *)
(** * More on loops and integers                                         *)
(* ===================================================================== *)

Module LoopFacts.
Import Go GoFacts.

Lemma wrap_int_small (z : Z) : - 2 ^ 63 ≤ z < 2 ^ 63 → wrap_int z = z.
Proof. intros Hz. unfold wrap_int. rewrite Z.mod_small; lia. Qed.

Lemma foldM_ext {A S} (body1 body2 : S → A → outcome S) (xs : list A) :
  ∀ st,
  (∀ s x, x ∈ xs → body1 s x = body2 s x) →
  foldM body1 xs st = foldM body2 xs st.
Proof.
  induction xs as [|x xs IH]; intros st Hext; simpl; [done|].
  rewrite Hext by constructor.
  destruct (body2 st x) as [st'| |]; simpl; [|done..].
  apply IH. intros s y Hy. apply Hext. by constructor.
Qed.

(** A loop over the indexed elements whose body does not read the index. *)
Lemma foldM_indexed {A St} (body : St → A → outcome St) (xs : list A) :
  ∀ (f : nat → nat) (st : St),
  foldM (λ st '(jj, x), body st x) (imap (λ jj x, (f jj, x)) xs) st
  = foldM body xs st.
Proof.
  induction xs as [|x xs IH]; intros f st; simpl; [done|].
  destruct (body st x) as [st'| |]; simpl; [|done..].
  apply (IH (f ∘ S)).
Qed.

Lemma foldM_collect_done {A B} (f : A → outcome B) (xs : list A)
    (ys : list B) :
  Forall2 (λ x y, f x = Done y) xs ys →
  ∀ acc, foldM (λ acc x, y ← f x; Done (acc ++ [y])) xs acc
         = Done (acc ++ ys).
Proof.
  induction 1 as [|x y xs ys Hx _ IH]; intros acc; simpl.
  - by rewrite app_nil_r.
  - rewrite Hx. simpl. rewrite IH. by rewrite <- app_assoc.
Qed.

Lemma foldM_done_each {A St} (body : St → A → outcome St) (xs : list A)
    (x : A) :
  ∀ st st' : St,
  foldM body xs st = Done st' → x ∈ xs → ∃ s s', body s x = Done s'.
Proof.
  induction xs as [|a xs IH]; intros st st' Hrun Hin.
  - by apply elem_of_nil in Hin.
  - simpl in Hrun. apply bind_done in Hrun as (s1 & Ha & Hrest).
    apply elem_of_cons in Hin as [->|Hin]; [by eauto|].
    by eapply IH.
Qed.

(** What holds of the result of a loop comes from its start or from one of
    its rounds. *)
Lemma foldM_trace {A St} (P : St → Prop) (J : A → Prop)
    (body : St → A → outcome St) (xs : list A) :
  (∀ s x s', body s x = Done s' → P s' → P s ∨ J x) →
  ∀ st st',
  foldM body xs st = Done st' → P st' → P st ∨ ∃ x, x ∈ xs ∧ J x.
Proof.
  intros Hstep. induction xs as [|x xs IH]; intros st st'; simpl.
  - intros [= <-] HP. by left.
  - intros (s1 & Hx & Hrest)%bind_done HP.
    destruct (IH _ _ Hrest HP) as [H1|(y & Hy & HJ)].
    + destruct (Hstep _ _ _ Hx H1) as [H0|HJ]; [by left|].
      right. exists x. split; [constructor|done].
    + right. exists y. split; [by constructor|done].
Qed.

End LoopFacts.

(* ===================================================================== *)
(** * Further properties of the index command                            *)
(* ===================================================================== *)

Module IndexerProps.
Import Indexer GoFacts LoopFacts IndexerFacts.

(** ** Blocks and block size *)

Lemma blocks_in_runs_concat (T8 TS sBlock0 : Z)
    (groups : list UnikFileInfoGroup) :
  concat (blocks_in_runs T8 TS sBlock0 groups) = Infos <$> nonempty groups.
Proof.
  unfold blocks_in_runs.
  pose proof (span_app (λ g, GKmers g <=? T8) (nonempty groups)) as Hsmall.
  destruct (span (λ g, GKmers g <=? T8) (nonempty groups)) as [small rest].
  pose proof (span_app (λ g, GKmers g <=? TS) rest) as Hmid.
  destruct (span (λ g, GKmers g <=? TS) rest) as [mid big].
  simpl in Hsmall, Hmid.
  rewrite !concat_app, !chunks_from_concat, singles_concat. simpl.
  by rewrite <- Hsmall, <- Hmid, !fmap_app.
Qed.

(** The batching loses no group, repeats none and keeps their order: the
    blocks, one after the other, hold the infos of the groups that have
    k-mers, in the order of the groups; the groups without k-mers are in
    no block. *)
Theorem batching_keeps_every_group (T8 TS sBlock0 : Z)
    (groups : list UnikFileInfoGroup) :
  Forall well_formed groups →
  concat (batching T8 TS sBlock0 groups) = Infos <$> nonempty groups ∧
  ∀ g, g ∈ groups → GKmers g = 0 → Infos g ∉ concat (batching T8 TS sBlock0 groups).
Proof.
  intros Hwf. rewrite (batching_in_runs T8 TS sBlock0 groups Hwf).
  rewrite blocks_in_runs_concat. split; [done|].
  intros g Hg Hz Hin.
  apply list_elem_of_fmap in Hin as (g' & Heq & Hin).
  apply list_elem_of_filter in Hin as [Hnz Hin].
  rewrite Forall_forall in Hwf.
  pose proof (Hwf g Hg) as Hwg. pose proof (Hwf g' Hin) as Hwg'.
  unfold well_formed in Hwg, Hwg'. congruence.
Qed.

Lemma chunks_from_bound {A} (n bound : Z) (xs : list A) :
  ∀ cur, len cur < n → n ≤ bound →
  Forall (λ blk, 1 ≤ len blk ≤ bound) (chunks_from n cur xs).
Proof.
  intros cur Hcur Hn.
  destruct (chunks_from_sizes n xs cur Hcur) as [Hsz _].
  eapply Forall_impl; [exact Hsz|]. intros blk. simpl. lia.
Qed.

(** With --block-size [sBlock00] above 0 the blocks of a repeat are never
    empty and never hold more than [max(8, sBlock00)] groups, whatever the
    thresholds and the number of CPUs. *)
Theorem blocks_within_block_size (T8 TS sBlock00 filesPerCPU : Z)
    (groups : list UnikFileInfoGroup) :
  Forall well_formed groups →
  0 < sBlock00 →
  Forall (λ blk, 1 ≤ len blk ≤ Z.max 8 sBlock00)
         (batching T8 TS (block_size sBlock00 (len groups) filesPerCPU)
                   groups).
Proof.
  intros Hwf Hb. rewrite (batching_in_runs _ _ _ groups Hwf).
  destruct groups as [|g0 groups0] eqn:Hgroups; [by constructor|].
  rewrite <- Hgroups in *.
  assert (1 ≤ len groups) as Hn by (rewrite Hgroups; unfold len; simpl; lia).
  clear Hgroups.
  set (s := block_size sBlock00 (len groups) filesPerCPU).
  assert (1 ≤ s ≤ Z.max 8 sBlock00) as Hs.
  { subst s. unfold block_size.
    destruct (Z.leb_spec sBlock00 0); [lia|].
    destruct (Z.ltb_spec sBlock00 8); [lia|].
    destruct (Z.ltb_spec (len groups) sBlock00); lia. }
  unfold blocks_in_runs.
  destruct (span _ (nonempty groups)) as [small rest].
  destruct (span _ rest) as [mid big].
  rewrite !Forall_app. split_and!.
  - apply chunks_from_bound; unfold len; simpl; lia.
  - apply chunks_from_bound; unfold len; simpl; lia.
  - apply Forall_fmap, Forall_forall. intros g _. unfold len. simpl. lia.
Qed.

(** For at least one group the block size is at least 1, whatever the flag
    and the number of CPUs: a size below 8 is raised to 8, also when there
    are fewer than 8 groups, and a size of 8 or more is cut to the number
    of groups.  So the division that estimates the number of index files
    never divides by zero; it gives the number of groups over the block
    size, rounded up. *)
Theorem block_size_at_least_one (sBlock00 nFiles filesPerCPU : Z) :
  1 ≤ nFiles < 2 ^ 62 →
  let sBlock := block_size sBlock00 nFiles filesPerCPU in
  1 ≤ sBlock ≤ Z.max 8 nFiles ∧
  (sBlock < 8 → sBlock = nFiles) ∧
  (0 < sBlock00 →
   sBlock = if sBlock00 <? 8 then 8 else Z.min sBlock00 nFiles) ∧
  nIndexFiles nFiles sBlock = Done ((nFiles + sBlock - 1) / sBlock) ∧
  1 ≤ (nFiles + sBlock - 1) / sBlock.
Proof.
  intros Hn sBlock.
  assert (1 ≤ sBlock ≤ Z.max 8 nFiles ∧ (sBlock < 8 → sBlock = nFiles) ∧
          (0 < sBlock00 →
           sBlock = if sBlock00 <? 8 then 8 else Z.min sBlock00 nFiles))
    as (Hs & Hsmall & Hflag).
  { subst sBlock. unfold block_size.
    destruct (Z.leb_spec sBlock00 0) as [Hauto|Hgiven].
    - set (a := wrap_int _).
      destruct (Z.ltb_spec a 8); [lia|].
      destruct (Z.ltb_spec nFiles a); lia.
    - destruct (Z.ltb_spec sBlock00 8); [lia|].
      destruct (Z.ltb_spec nFiles sBlock00); lia. }
  split_and!; [lia|lia|done|done| |].
  - unfold nIndexFiles. destruct (Z.eqb_spec sBlock 0); [lia|].
    unfold int_add. rewrite (wrap_int_small (nFiles + sBlock)) by lia.
    rewrite (wrap_int_small (nFiles + sBlock + -1)) by lia.
    rewrite Z.quot_div_nonneg by lia.
    replace (nFiles + sBlock + -1) with (nFiles + sBlock - 1) by lia.
    assert (0 ≤ (nFiles + sBlock - 1) / sBlock ≤ nFiles + sBlock - 1) as Hq.
    { split; [apply Z.div_pos; lia|].
      apply Z.div_le_upper_bound; [lia|]. nia. }
    rewrite wrap_int_small by lia.
    destruct (Z.ltb_spec ((nFiles + sBlock - 1) / sBlock) 0); [lia|done].
  - apply Z.div_le_lower_bound; lia.
Qed.

(** ** The buckets of a repeat *)

Lemma append_to_bucket {A} (bs bs' : list (list A)) (i : Z) (x : A) :
  update_at bs i (λ bucket, bucket ++ [x]) = Done bs' →
  concat bs' ≡ₚ concat bs ++ [x].
Proof.
  intros ([Hi0 Hi] & bucket & Hb & ->)%update_at_done.
  rewrite insert_take_drop by (by eapply lookup_lt_Some).
  rewrite <- (take_drop_middle bs (Z.to_nat i) bucket Hb) at 3.
  rewrite !concat_app, !concat_cons.
  rewrite <- (app_assoc (concat (take _ bs))).
  apply Permutation_app_head. rewrite <- !app_assoc.
  apply Permutation_app_head. apply Permutation_app_comm.
Qed.

(** Filling buckets by an index that is in range for every element: the
    loop ends, bucket [b] gains the elements of index [b] in their order,
    and nothing else changes. *)
Lemma fill_by_index {A} (g : A → Z) (xs : list A) :
  ∀ bs : list (list A),
  Forall (λ x, 0 ≤ g x < len bs) xs →
  ∃ bs',
    foldM (λ bs x, update_at bs (g x) (λ bucket, bucket ++ [x])) xs bs
    = Done bs' ∧
    length bs' = length bs ∧
    (∀ b : nat,
       bs' !! b
       = (λ bucket, bucket ++ filter (λ x, g x = Z.of_nat b) xs)
           <$> bs !! b) ∧
    concat bs' ≡ₚ concat bs ++ xs.
Proof.
  induction xs as [|x xs IH]; intros bs Hrange; simpl.
  - exists bs. split_and!; [done|done| |by rewrite app_nil_r].
    intros b. destruct (bs !! b); simpl; [|done]. by rewrite app_nil_r.
  - apply Forall_cons in Hrange as [Hx Hrange].
    destruct (update_at bs (g x) (λ bucket, bucket ++ [x])) as [bs1| |] eqn:Hup.
    2,3: (exfalso; unfold update_at in Hup; unfold len in Hx;
          destruct (Z.leb_spec 0 (g x)); [|lia];
          destruct (Z.ltb_spec (g x) (len bs)); [|unfold len in *; lia];
          simpl in Hup;
          destruct (bs !! Z.to_nat (g x)) eqn:Hl; [done|];
          apply lookup_ge_None in Hl; unfold len in *; lia).
    pose proof (update_at_length _ _ _ _ Hup) as Hlen1.
    destruct (IH bs1) as (bs' & Hrun & Hlen & Hlook & Hperm).
    { eapply Forall_impl; [exact Hrange|]. intros y. unfold len.
      rewrite Hlen1. done. }
    exists bs'. simpl. split_and!; [done|congruence| |].
    + intros b. rewrite Hlook, (lookup_update_at _ _ _ _ b Hup).
      rewrite filter_cons.
      destruct (bs !! b) as [bucket|]; simpl; [|done].
      destruct (decide (g x = Z.of_nat b)); [|done].
      by rewrite <- app_assoc.
    + rewrite Hperm, (append_to_bucket _ _ _ _ Hup).
      by rewrite <- app_assoc.
Qed.

Lemma concat_replicate_nil {A} (n : nat) :
  concat (replicate n ([] : list A)) = [].
Proof. induction n as [|n IH]; simpl; [done|exact IH]. Qed.

Section BucketFacts.
Variable Sum64 : string → Z.
Variable baseHashes : Z → Z * Z.

(** The bucket of a file in repeat [rr] when --num-buckets is above 0. *)
Definition hashed_bucket (numBuckets rr seed : Z) (info : UnikFileInfo) : Z :=
  ((baseHashes (Sum64 (Path info))).1
   + (baseHashes (Sum64 (Path info))).2 * (int_add rr seed mod 2 ^ 32))
  mod 2 ^ 32 mod numBuckets.

Lemma bucket_index_hashed (numBuckets rr seed : Z) (jj : nat)
    (info : UnikFileInfo) :
  0 < numBuckets < 2 ^ 63 →
  bucket_index Sum64 baseHashes false numBuckets rr seed jj info
  = Done (hashed_bucket numBuckets rr seed info) ∧
  0 ≤ hashed_bucket numBuckets rr seed info < numBuckets.
Proof.
  intros Hn. unfold bucket_index, hashed_bucket.
  destruct (baseHashes (Sum64 (Path info))) as [h1 h2]. cbn [fst snd].
  assert (wrap_uint64 numBuckets = numBuckets) as ->
    by (unfold wrap_uint64; apply Z.mod_small; lia).
  destruct (Z.eqb_spec numBuckets 0); [lia|].
  pose proof (Z.mod_pos_bound
                ((h1 + h2 * (int_add rr seed mod 2 ^ 32)) mod 2 ^ 32)
                numBuckets) as Hb.
  split; [|lia]. rewrite wrap_int_small by lia. done.
Qed.

(** With --num-buckets above 0 every file is put in exactly one bucket,
    the one of its hash, and nothing fails: bucket [b] holds the files
    whose hash gives [b], in the order of the input, so the buckets hold
    the files of the input, each once. *)
Theorem every_file_in_one_bucket (numBuckets rr seed : Z)
    (fileInfos0 : list UnikFileInfo) :
  0 < numBuckets < 2 ^ 63 →
  ∃ buckets,
    buckets_of Sum64 baseHashes numBuckets rr seed fileInfos0 = Done buckets ∧
    len buckets = numBuckets ∧
    (∀ b : nat,
       (b < length buckets)%nat →
       buckets !! b
       = Some (filter (λ info, hashed_bucket numBuckets rr seed info
                               = Z.of_nat b) fileInfos0)) ∧
    concat buckets ≡ₚ fileInfos0.
Proof.
  intros Hn. unfold buckets_of.
  destruct (Z.eqb_spec numBuckets 0); [lia|].
  unfold fill_buckets.
  assert (make ([] : list UnikFileInfo) numBuckets
          = Done (replicate (Z.to_nat numBuckets) [])) as ->
    by (apply make_done; split; [lia|done]).
  cbn [mbind outcome_bind Go.bind].
  rewrite (foldM_ext _
             (λ bs '(jj, info),
                update_at bs (hashed_bucket numBuckets rr seed info)
                          (λ bucket, bucket ++ [info]))).
  2:{ intros bs [jj info] _.
      destruct (bucket_index_hashed numBuckets rr seed jj info Hn)
        as [-> _]. done. }
  rewrite (foldM_indexed
             (λ bs info,
                update_at bs (hashed_bucket numBuckets rr seed info)
                          (λ bucket, bucket ++ [info]))
             fileInfos0 (λ jj, jj)).
  destruct (fill_by_index (hashed_bucket numBuckets rr seed) fileInfos0
              (replicate (Z.to_nat numBuckets) []))
    as (buckets & Hrun & Hlen & Hlook & Hperm).
  { apply Forall_forall. intros info _. unfold len.
    rewrite length_replicate.
    destruct (bucket_index_hashed numBuckets rr seed 0 info Hn) as [_ Hb].
    lia. }
  exists buckets. rewrite length_replicate in Hlen.
  split_and!; [done|unfold len; lia| |].
  - intros b Hb. rewrite Hlook, lookup_replicate_2 by lia. done.
  - by rewrite Hperm, concat_replicate_nil.
Qed.

(** With --num-buckets 0 bucket [jj] is the file [jj] alone, whatever the
    hashes; a group for each file, with the k-mers of its file. *)
Theorem one_file_per_bucket (rr seed : Z) (fileInfos0 : list UnikFileInfo) :
  buckets_of Sum64 baseHashes 0 rr seed fileInfos0
  = Done ((λ info, [info]) <$> fileInfos0) ∧
  groups_of ((λ info, [info]) <$> fileInfos0)
  = (λ info, {| Infos := [info]; GKmers := Kmers info mod 2 ^ 64 |})
      <$> fileInfos0.
Proof.
  split.
  - unfold buckets_of, fill_buckets. simpl.
    assert (make ([] : list UnikFileInfo) (len fileInfos0)
            = Done (replicate (length fileInfos0) [])) as ->.
    { apply make_done. unfold len. split; [lia|]. by rewrite Nat2Z.id. }
    simpl.
    assert (∀ (k : nat) (filled : list (list UnikFileInfo)),
      length filled = k →
      foldM (λ buckets '(jj, info),
               bIdx ← bucket_index Sum64 baseHashes true
                        (len fileInfos0) rr seed jj info;
               update_at buckets bIdx (λ bucket, bucket ++ [info]))
            (imap (λ jj info, ((k + jj)%nat, info)) fileInfos0)
            (filled ++ replicate (length fileInfos0) [])
      = Done (filled ++ ((λ info, [info]) <$> fileInfos0))) as Hgen.
    { generalize (len fileInfos0). intros n.
      induction fileInfos0 as [|info infos IH]; intros k filled Hk.
      - done.
      - cbn [imap foldM length replicate].
        replace (k + 0)%nat with k by lia.
        change (bucket_index Sum64 baseHashes true n rr seed k info)
          with (Done (Z.of_nat k) : outcome Z).
        cbn [mbind outcome_bind Go.bind].
        assert (update_at (filled ++ [] :: replicate (length infos) [])
                  (Z.of_nat k) (λ bucket, bucket ++ [info])
                = Done ((filled ++ [[info]]) ++ replicate (length infos) []))
          as ->.
        { apply update_at_done. unfold len.
          rewrite length_app, Nat2Z.id. simpl. split; [lia|].
          exists []. split.
          - rewrite lookup_app_r by lia.
            by replace (k - length filled)%nat with 0%nat by lia.
          - rewrite insert_app_r_alt by lia.
            replace (k - length filled)%nat with 0%nat by lia.
            by rewrite <- app_assoc. }
        cbn [mbind outcome_bind Go.bind].
        rewrite (imap_ext _ (λ jj info, ((S k + jj)%nat, info)))
          by (intros; simpl; f_equal; lia).
        rewrite (IH (S k) (filled ++ [[info]])).
        + by rewrite <- app_assoc.
        + rewrite length_app. simpl. lia. }
    exact (Hgen 0%nat [] eq_refl).
  - unfold groups_of. rewrite <- list_fmap_compose.
    apply list_fmap_ext. intros _ info _. unfold group_of, totalKmers.
    simpl. unfold uint64_add, wrap_uint64. done.
Qed.

End BucketFacts.

(** ** The planes of a block, for any number of hashes *)

Lemma lor_byte (a v : Z) :
  0 ≤ a < 2 ^ 8 → 0 ≤ Z.lor a (v mod 2 ^ 8) < 2 ^ 8.
Proof.
  intros Ha. pose proof (Z.mod_pos_bound v (2 ^ 8)) as Hv.
  assert (0 ≤ Z.lor a (v mod 2 ^ 8)) as H0 by (apply Z.lor_nonneg; lia).
  split; [done|].
  apply (Z.bounded_iff_bits_nonneg 8); [lia|done|].
  intros l Hl. rewrite Z.lor_spec.
  rewrite (proj1 (Z.bounded_iff_bits_nonneg 8 a ltac:(lia) ltac:(lia))) by lia.
  rewrite (proj1 (Z.bounded_iff_bits_nonneg 8 (v mod 2 ^ 8)
                    ltac:(lia) ltac:(lia))) by lia.
  done.
Qed.

(** A plane of the right shape: [n] bytes. *)
Definition plane_of (n : nat) (sigs : list Z) : Prop :=
  length sigs = n ∧ Forall (λ byte, 0 ≤ byte < 2 ^ 8) sigs.

Lemma set_bit_plane (n : nat) (k : Z) (sigs sigs' : list Z) (loc : Z) :
  plane_of n sigs → set_bit k sigs loc = Done sigs' → plane_of n sigs'.
Proof.
  intros [Hlen Hbytes] Hset. split.
  - by rewrite (set_bit_length _ _ _ _ Hset).
  - unfold set_bit in Hset. destruct (7 - k <? 0); [done|].
    apply update_at_done in Hset as (_ & byte & Hbyte & ->).
    apply Forall_insert; [done|]. apply lor_byte.
    rewrite Forall_forall in Hbytes. apply Hbytes.
    by eapply list_elem_of_lookup_2.
Qed.

Section AnyHashes.
Variable hash64 : Z → Z.
Variable hashLocationsFaster : Z → Z → Z → list Z.
Variable inStream : string → UnikFile.
Variable numHashes : Z.

Abbreviation add_code' := (add_code hash64 hashLocationsFaster numHashes).
Abbreviation add_file' :=
  (add_file hash64 hashLocationsFaster inStream numHashes).
Abbreviation add_columns' :=
  (add_columns hash64 hashLocationsFaster inStream numHashes).
Abbreviation fill_plane' :=
  (fill_plane hash64 hashLocationsFaster inStream numHashes).
Abbreviation builder' :=
  (builder hash64 hashLocationsFaster inStream numHashes).
Abbreviation fill_block' :=
  (fill_block hash64 hashLocationsFaster inStream numHashes).

Lemma add_code_plane (n : nat) (isHashed : bool) (numSigsM1 k : Z)
    (sigs sigs' : list Z) (x : Z) :
  plane_of n sigs → add_code' isHashed numSigsM1 k sigs x = Done sigs' →
  plane_of n sigs'.
Proof.
  intros Hp. unfold add_code.
  destruct isHashed, (bool_decide (numHashes = 1));
    first [by apply set_bit_plane
          | apply (foldM_invariant (plane_of n)); [|done];
            intros s loc s' Hs; by apply set_bit_plane].
Qed.

Lemma add_file_done (numSigsM1 k : Z) (sigs sigs' : list Z)
    (info : UnikFileInfo) :
  add_file' numSigsM1 k sigs info = Done sigs' ↔
  OpenErr (inStream (Path info)) = None ∧
  ReadErr (inStream (Path info)) = None ∧
  foldM (add_code' (IsHashed (inStream (Path info))) numSigsM1 k)
        (Codes (inStream (Path info))) sigs = Done sigs'.
Proof.
  unfold add_file.
  destruct (OpenErr (inStream (Path info))) as [e|]; simpl.
  { split; [done|]. by intros [? _]. }
  destruct (foldM _ _ sigs) as [s1| |]; simpl.
  2,3: (split; [done|]; by intros (_ & _ & ?)).
  destruct (ReadErr (inStream (Path info))) as [e|]; simpl.
  - split; [done|]. by intros (_ & ? & _).
  - split; [by intros [= <-]|]. by intros (_ & _ & [= <-]).
Qed.

Lemma add_file_plane (n : nat) (numSigsM1 k : Z) (sigs sigs' : list Z)
    (info : UnikFileInfo) :
  plane_of n sigs → add_file' numSigsM1 k sigs info = Done sigs' →
  plane_of n sigs'.
Proof.
  intros Hp (_ & _ & Hcodes)%add_file_done. revert Hcodes.
  apply (foldM_invariant (plane_of n)); [|done].
  intros s x s' Hs. by apply add_code_plane.
Qed.

Lemma add_columns_plane (n : nat) (numSigsM1 : Z)
    (cols : list (list UnikFileInfo)) :
  ∀ (k : Z) (sigs sigs' : list Z),
  plane_of n sigs → add_columns' numSigsM1 k cols sigs = Done sigs' →
  plane_of n sigs'.
Proof.
  induction cols as [|infos cols IH]; intros k sigs sigs' Hp; simpl.
  - by intros [= <-].
  - intros (s1 & Hcol & Hrest)%bind_done.
    apply (IH (k + 1) s1 sigs'); [|done]. revert Hcol.
    apply (foldM_invariant (plane_of n)); [|done].
    intros s info s' Hs. by apply add_file_plane.
Qed.

Lemma fill_plane_shape (numSigs : Z) (cols : list (list UnikFileInfo))
    (plane : list Z) :
  fill_plane' numSigs cols = Done plane →
  0 ≤ numSigs ∧ plane_of (Z.to_nat numSigs) plane.
Proof.
  unfold fill_plane.
  intros (zeros & [Hn ->]%make_done & Hfill)%bind_done. split; [done|].
  eapply add_columns_plane; [|exact Hfill]. split.
  - apply length_replicate.
  - apply Forall_replicate. lia.
Qed.

Lemma builder_result (numSigs : Z) (batch : list (list UnikFileInfo))
    (i : nat) (b : batch8s) :
  builder' numSigs batch i = Done b ↔
  id b = Z.of_nat i + 1 ∧
  fill_plane' numSigs (columns_from batch (8 * i)) = Done (sigs b).
Proof.
  unfold builder. rewrite bind_done. split.
  - by intros (plane & Hplane & [= <-]).
  - intros [Hid Hplane]. exists (sigs b). split; [done|].
    destruct b as [i' plane]. simpl in *. by rewrite Hid.
Qed.

(** Whatever the order in which the builders send, [sigsBlock] holds their
    planes in the order of the builders. *)
Lemma planes_in_builder_order (numSigs : Z)
    (batch : list (list UnikFileInfo)) (schedule : list nat)
    (planes : list (list Z)) :
  schedule ≡ₚ builders batch →
  len batch < 2 ^ 63 →
  fill_block' numSigs batch schedule = Done planes →
  Forall2 (λ i plane,
             fill_plane' numSigs (columns_from batch (8 * i)) = Done plane)
          (builders batch) planes.
Proof.
  intros Hsched Hlen. unfold fill_block.
  intros (arrivals & Hbuilt & [= <-])%bind_done.
  apply foldM_collect in Hbuilt as (bs & Hbs & ->). rewrite app_nil_l.
  assert (id <$> bs = (λ i : nat, Z.of_nat i + 1) <$> schedule) as Hids.
  { clear Hsched. induction Hbs as [|i b sch bs Hb _ IH]; [done|].
    apply builder_result in Hb as [Hb _]. csimpl. by rewrite Hb, IH. }
  assert (NoDup (id <$> bs)) as Hnd.
  { rewrite Hids. apply NoDup_fmap_2; [intros i j ?; lia|].
    rewrite Hsched. apply NoDup_seq. }
  assert (Forall builder_id bs) as Hrange.
  { apply Forall_forall. intros b Hb.
    assert (id b ∈ id <$> bs) as Hin by (by apply list_elem_of_fmap_2).
    rewrite Hids, Hsched in Hin.
    apply list_elem_of_fmap in Hin as (i & Hi & Hin).
    unfold builders in Hin. apply elem_of_seq in Hin.
    unfold builder_id. rewrite Hi.
    assert ((len batch + 7) / 8 < 2 ^ 61)
      by (apply Z.div_lt_upper_bound; lia).
    lia. }
  destruct (collector_sorted bs Hnd Hrange) as [Hperm Hsorted].
  assert (id <$> collector bs
          = (λ i : nat, Z.of_nat i + 1) <$> builders batch) as Hout.
  { apply (StronglySorted_unique_strong Z.lt).
    - intros; lia.
    - done.
    - unfold builders. rewrite builder_ids. apply StronglySorted_seqZ.
    - by rewrite Hperm, Hids, Hsched. }
  unfold sigsBlock. apply Forall2_fmap_r.
  apply Forall2_same_length_lookup_2.
  - apply (f_equal length) in Hout. by rewrite !length_fmap in Hout.
  - intros j i b Hi Hb.
    assert (id b = Z.of_nat i + 1) as Hidb.
    { apply (f_equal (λ l, l !! j)) in Hout.
      rewrite !list_lookup_fmap, Hi, Hb in Hout. by injection Hout. }
    assert (b ∈ bs) as Hin.
    { rewrite <- Hperm. by eapply list_elem_of_lookup_2. }
    apply list_elem_of_lookup in Hin as (j' & Hj').
    destruct (Forall2_lookup_r _ _ _ _ _ Hbs Hj') as (i' & _ & Hb').
    apply builder_result in Hb' as [Hidb' Hplane].
    assert (i' = i) as -> by lia. done.
Qed.

(** A block that is filled has one plane for every 8 columns, the last
    one for the columns left, each plane with [numSigs] bytes. *)
Theorem filled_block_shape (numSigs : Z) (batch : list (list UnikFileInfo))
    (schedule : list nat) (planes : list (list Z)) :
  schedule ≡ₚ builders batch →
  len batch < 2 ^ 63 →
  fill_block' numSigs batch schedule = Done planes →
  len planes = (len batch + 7) / 8 ∧
  Forall (λ plane, len plane = numSigs ∧
                   Forall (λ byte, 0 ≤ byte < 2 ^ 8) plane) planes.
Proof.
  intros Hsched Hlen Hfill.
  pose proof (planes_in_builder_order numSigs batch schedule planes
                Hsched Hlen Hfill) as Hplanes.
  split.
  - apply Forall2_length in Hplanes. unfold len in *.
    rewrite <- Hplanes. unfold builders, len. rewrite length_seq.
    rewrite Z2Nat.id; [done|]. apply Z.div_pos; lia.
  - apply Forall_forall. intros plane Hin.
    apply list_elem_of_lookup in Hin as (j & Hj).
    destruct (Forall2_lookup_r _ _ _ _ _ Hplanes Hj) as (i & _ & Hp).
    apply fill_plane_shape in Hp as [Hn [Hl Hb]].
    split; [unfold len; lia|done].
Qed.

(** The order in which the builders deliver their planes changes nothing:
    a block filled under one order is filled under every order, with the
    same planes. *)
Theorem delivery_order_is_immaterial (numSigs : Z)
    (batch : list (list UnikFileInfo)) (schedule1 schedule2 : list nat)
    (planes : list (list Z)) :
  schedule1 ≡ₚ builders batch →
  schedule2 ≡ₚ builders batch →
  len batch < 2 ^ 63 →
  fill_block' numSigs batch schedule1 = Done planes →
  fill_block' numSigs batch schedule2 = Done planes.
Proof.
  intros Hs1 Hs2 Hlen Hfill1.
  pose proof (planes_in_builder_order numSigs batch schedule1 planes
                Hs1 Hlen Hfill1) as Hplanes.
  (* every builder ends, so the builders end in the second order too *)
  assert (∃ bs, Forall2 (λ i b, builder' numSigs batch i = Done b)
                        schedule2 bs) as [bs Hbs].
  { assert (Forall (λ i, i ∈ builders batch) schedule2) as Hin.
    { apply Forall_forall. intros i Hi. by rewrite <- Hs2. }
    clear Hs2. induction Hin as [|i sch Hi _ [bs IH]].
    - exists []. constructor.
    - apply list_elem_of_lookup in Hi as (j & Hj).
      destruct (Forall2_lookup_l _ _ _ _ _ Hplanes Hj) as (plane & _ & Hp).
      exists ({| id := Z.of_nat i + 1; sigs := plane |} :: bs).
      constructor; [|done]. by apply builder_result. }
  assert (fill_block' numSigs batch schedule2 = Done (sigsBlock bs)) as Hfill2.
  { unfold fill_block.
    rewrite (foldM_collect_done _ _ _ Hbs []). done. }
  pose proof (planes_in_builder_order numSigs batch schedule2 _
                Hs2 Hlen Hfill2) as Hplanes2.
  rewrite Hfill2. f_equal.
  clear -Hplanes Hplanes2. revert Hplanes2. generalize (sigsBlock bs).
  induction Hplanes as [|i plane idxs ps Hp _ IH]; intros ps2 Hps2.
  - by inversion Hps2.
  - inversion Hps2 as [|i' plane2 idxs' ps2' Hp2 Hrest]; subst.
    rewrite Hp in Hp2. injection Hp2 as <-. f_equal. by apply IH.
Qed.

Lemma add_columns_done_column (numSigsM1 : Z)
    (cols : list (list UnikFileInfo)) :
  ∀ (k : Z) (sigs sigs' : list Z) (j : nat) (infos : list UnikFileInfo),
  add_columns' numSigsM1 k cols sigs = Done sigs' →
  cols !! j = Some infos →
  ∃ s s', foldM (add_file' numSigsM1 (k + Z.of_nat j)) infos s = Done s'.
Proof.
  induction cols as [|col cols IH]; intros k sigs sigs' j infos; [done|].
  simpl. intros (s1 & Hcol & Hrest)%bind_done Hj.
  destruct j as [|j]; simpl in Hj.
  - injection Hj as ->. replace (k + Z.of_nat 0) with k by lia. by eauto.
  - replace (k + Z.of_nat (S j)) with (k + 1 + Z.of_nat j) by lia.
    by eapply IH.
Qed.

(** A block is filled only when every file of its columns was opened and
    read to its end without an error: one file that fails leaves the
    command without the planes of the block, whatever the order of the
    builders. *)
Theorem filled_block_read_every_file (numSigs : Z)
    (batch : list (list UnikFileInfo)) (schedule : list nat)
    (planes : list (list Z)) (c : nat) (infos : list UnikFileInfo)
    (info : UnikFileInfo) :
  schedule ≡ₚ builders batch →
  len batch < 2 ^ 63 →
  fill_block' numSigs batch schedule = Done planes →
  batch !! c = Some infos → info ∈ infos →
  OpenErr (inStream (Path info)) = None ∧
  ReadErr (inStream (Path info)) = None.
Proof.
  intros Hsched Hlen Hfill Hc Hinfo.
  pose proof (planes_in_builder_order numSigs batch schedule planes
                Hsched Hlen Hfill) as Hplanes.
  pose proof (lookup_lt_Some _ _ _ Hc) as Hclt.
  assert (builders batch !! (c / 8)%nat = Some (c / 8)%nat) as Hbb.
  { unfold builders. apply lookup_seq. split; [done|].
    unfold len. apply Nat.Div0.div_lt_upper_bound.
    rewrite Z2Nat.inj_div, Z2Nat.inj_add, Nat2Z.id by lia.
    change (Z.to_nat 7) with 7%nat. change (Z.to_nat 8) with 8%nat.
    pose proof (Nat.div_mod_eq (length batch + 7) 8).
    pose proof (Nat.mod_upper_bound (length batch + 7) 8). lia. }
  destruct (Forall2_lookup_l _ _ _ _ _ Hplanes Hbb) as (plane & _ & Hp).
  unfold fill_plane in Hp.
  apply bind_done in Hp as (zeros & _ & Hcols).
  destruct (add_columns_done_column _ _ _ _ _ (c mod 8) infos Hcols)
    as (s & s' & Hcol); [by rewrite columns_from_lookup|].
  destruct (foldM_done_each _ _ info _ _ Hcol Hinfo) as (s1 & s2 & Hfile).
  apply add_file_done in Hfile as (Hopen & Hread & _). done.
Qed.

End AnyHashes.

(** ** The bits of a block with one hash *)

(** Bit [b] of the byte at row [i] is set. *)
Definition bit_at (sigs : list Z) (i : nat) (b : Z) : Prop :=
  ∃ byte, sigs !! i = Some byte ∧ Z.testbit byte b = true.

Lemma set_bit_only (k : Z) (sigs sigs' : list Z) (loc : Z) (i : nat)
    (b : Z) :
  0 ≤ k ≤ 7 → set_bit k sigs loc = Done sigs' → bit_at sigs' i b →
  bit_at sigs i b ∨ (loc = Z.of_nat i ∧ b = 7 - k).
Proof.
  intros Hk. rewrite set_bit_update by done. intros Hup (byte & Hbyte & Hbit).
  rewrite (lookup_update_at _ _ _ _ i Hup) in Hbyte.
  destruct (sigs !! i) as [old|] eqn:Hold; [|done].
  simpl in Hbyte. injection Hbyte as <-.
  destruct (decide (loc = Z.of_nat i)) as [->|Hne].
  - rewrite Z.lor_spec, Z.pow2_bits_eqb in Hbit by lia.
    apply orb_true_iff in Hbit as [Hbit|Hbit%Z.eqb_eq].
    + left. by exists old.
    + right. split; [done|lia].
  - left. by exists old.
Qed.

Section OneHash.
Variable hash64 : Z → Z.
Variable hashLocationsFaster : Z → Z → Z → list Z.
Variable inStream : string → UnikFile.

(** A code of a file of column [j] of [cols] has the row [i] under the
    mask [numSigsM1]. *)
Definition code_at (numSigsM1 : Z) (cols : list (list UnikFileInfo))
    (j i : nat) : Prop :=
  ∃ infos info x,
    cols !! j = Some infos ∧ info ∈ infos ∧
    x ∈ Codes (inStream (Path info)) ∧
    Z.land (if IsHashed (inStream (Path info)) then x else hash64 x)
           numSigsM1 = Z.of_nat i.

Lemma add_code_only (isHashed : bool) (numSigsM1 k : Z)
    (sigs sigs' : list Z) (x : Z) (i : nat) (b : Z) :
  0 ≤ k ≤ 7 →
  add_code hash64 hashLocationsFaster 1 isHashed numSigsM1 k sigs x
  = Done sigs' →
  bit_at sigs' i b →
  bit_at sigs i b ∨
  (b = 7 - k ∧
   Z.land (if isHashed then x else hash64 x) numSigsM1 = Z.of_nat i).
Proof.
  intros Hk Hx Hs. rewrite add_code_single in Hx.
  destruct (set_bit_only _ _ _ _ _ _ Hk Hx Hs) as [?|[? ?]];
    [by left|by right].
Qed.

Lemma add_file_only (numSigsM1 k : Z) (sigs sigs' : list Z)
    (info : UnikFileInfo) (i : nat) (b : Z) :
  0 ≤ k ≤ 7 →
  add_file hash64 hashLocationsFaster inStream 1 numSigsM1 k sigs info
  = Done sigs' →
  bit_at sigs' i b →
  bit_at sigs i b ∨
  (b = 7 - k ∧
   ∃ x, x ∈ Codes (inStream (Path info)) ∧
        Z.land (if IsHashed (inStream (Path info)) then x else hash64 x)
               numSigsM1 = Z.of_nat i).
Proof.
  intros Hk (_ & _ & Hcodes)%add_file_done Hbit.
  pose proof (foldM_trace (λ s, bit_at s i b)
                (λ x, b = 7 - k ∧
                      Z.land (if IsHashed (inStream (Path info))
                              then x else hash64 x) numSigsM1 = Z.of_nat i)
                (add_code hash64 hashLocationsFaster 1
                   (IsHashed (inStream (Path info))) numSigsM1 k)
                (Codes (inStream (Path info)))) as Htrace.
  destruct (Htrace (λ s x s', add_code_only _ _ _ s s' x i b Hk)
              _ _ Hcodes Hbit) as [H0|(x & Hx & -> & Hrow)].
  - by left.
  - right. split; [done|]. by exists x.
Qed.

Lemma add_columns_only (numSigsM1 : Z) (cols : list (list UnikFileInfo)) :
  ∀ (k : Z) (sigs sigs' : list Z) (i : nat) (b : Z),
  0 ≤ k → k + len cols ≤ 8 →
  add_columns hash64 hashLocationsFaster inStream 1 numSigsM1 k cols sigs
  = Done sigs' →
  bit_at sigs' i b →
  bit_at sigs i b ∨
  ∃ j : nat, b = 7 - (k + Z.of_nat j) ∧ code_at numSigsM1 cols j i.
Proof.
  induction cols as [|infos cols IH]; intros k sigs sigs' i b Hk0 Hk8; simpl.
  - intros [= <-] Hbit. by left.
  - unfold len in *. simpl in Hk8.
    intros (s1 & Hcol & Hrest)%bind_done Hbit.
    destruct (IH (k + 1) s1 sigs' i b) as [H1|(j & -> & Hcode)];
      [lia|unfold len; lia|done|done| |].
    + assert (0 ≤ k ≤ 7) as Hk by lia.
      pose proof (foldM_trace (λ s, bit_at s i b)
                    (λ info, b = 7 - k ∧
                       ∃ x, x ∈ Codes (inStream (Path info)) ∧
                            Z.land (if IsHashed (inStream (Path info))
                                    then x else hash64 x) numSigsM1
                            = Z.of_nat i)
                    (add_file hash64 hashLocationsFaster inStream 1
                       numSigsM1 k) infos) as Htrace.
      destruct (Htrace (λ s info s', add_file_only _ _ s s' info i b Hk)
                  _ _ Hcol H1) as [H0|(info & Hinfo & -> & x & Hx & Hrow)].
      * by left.
      * right. exists 0%nat. split; [lia|]. by exists infos, info, x.
    + right. exists (S j). split; [lia|].
      destruct Hcode as (infos' & info & x & Hj & Hrest').
      by exists infos', info, x.
Qed.

(** With one hash the bits of a block are those of its codes and no
    others: bit [b] of row [i] of plane [p] is set if and only if a code
    of a file of some column [c] with [c/8 = p] and [7 - c%8 = b] has the
    row [i], the row of a code being [code & (numSigs - 1)] for the code
    of a hashed file and for [hash64] of the code of another. *)
Theorem bloom_bits_are_the_codes (numSigs : Z)
    (batch : list (list UnikFileInfo)) (schedule : list nat)
    (planes : list (list Z)) (p i : nat) (b : Z) :
  1 ≤ numSigs < 2 ^ 64 →
  len batch < 2 ^ 63 →
  schedule ≡ₚ builders batch →
  fill_block hash64 hashLocationsFaster inStream 1 numSigs batch schedule
  = Done planes →
  (∃ plane, planes !! p = Some plane ∧ bit_at plane i b) ↔
  (∃ c : nat, (c / 8)%nat = p ∧ b = 7 - Z.of_nat (c mod 8) ∧
              code_at (numSigs - 1) batch c i).
Proof.
  intros HnumSigs Hlen Hsched Hfill.
  pose proof (fill_block_planes _ _ _ numSigs batch schedule planes
                Hsched Hlen Hfill) as Hplanes.
  assert (uint64_sub numSigs 1 = numSigs - 1) as HM1.
  { unfold uint64_sub, wrap_uint64. apply Z.mod_small. lia. }
  split.
  - intros (plane & Hplane & Hbit).
    destruct (Forall2_lookup_r _ _ _ _ _ Hplanes Hplane) as (p' & Hp' & Hp).
    unfold builders in Hp'. apply lookup_seq in Hp' as [-> _].
    cbn beta in Hp. unfold fill_plane in Hp.
    apply bind_done in Hp as (zeros & [_ ->]%make_done & Hcols).
    rewrite HM1 in Hcols. change (0 + p)%nat with p in Hcols.
    destruct (add_columns_only (numSigs - 1) (columns_from batch (8 * p))
                0 (replicate (Z.to_nat numSigs) 0) plane i b)
      as [(byte & Hbyte & Hset)|(j & -> & Hcode)];
      [lia
      |unfold columns_from, len; rewrite length_take; lia
      |exact Hcols|exact Hbit| |].
    + apply lookup_replicate in Hbyte as [-> _]. by rewrite Z.bits_0 in Hset.
    + destruct Hcode as (infos & info & x & Hj & Hinfo & Hx & Hrow).
      pose proof (lookup_lt_Some _ _ _ Hj) as Hj8.
      unfold columns_from in Hj8, Hj. rewrite length_take in Hj8.
      rewrite lookup_take_lt, lookup_drop in Hj by lia.
      exists (8 * p + j)%nat. split_and!.
      * rewrite (Nat.mul_comm 8 p), Nat.div_add_l by lia.
        rewrite Nat.div_small by lia. lia.
      * rewrite (Nat.mul_comm 8 p), Nat.Div0.add_mod, Nat.Div0.mod_mul.
        rewrite Nat.add_0_l, Nat.Div0.mod_mod, Nat.mod_small by lia. lia.
      * by exists infos, info, x.
  - intros (c & <- & -> & infos & info & x & Hc & Hinfo & Hx & Hrow).
    pose proof (lookup_lt_Some _ _ _ Hc) as Hclt.
    assert (builders batch !! (c / 8)%nat = Some (c / 8)%nat) as Hbb.
    { unfold builders. apply lookup_seq. split; [done|].
      unfold len. apply Nat.Div0.div_lt_upper_bound.
      rewrite Z2Nat.inj_div, Z2Nat.inj_add, Nat2Z.id by lia.
      change (Z.to_nat 7) with 7%nat. change (Z.to_nat 8) with 8%nat.
      pose proof (Nat.div_mod_eq (length batch + 7) 8).
      pose proof (Nat.mod_upper_bound (length batch + 7) 8). lia. }
    destruct (Forall2_lookup_l _ _ _ _ _ Hplanes Hbb)
      as (plane & Hplane & Hp).
    destruct (fill_plane_sets hash64 hashLocationsFaster inStream numSigs
                (columns_from batch (8 * (c / 8))) plane (c mod 8)
                infos info x)
      as [(byte & Hbyte & Hbit) _]; [done| |done| |done|done|].
    { unfold columns_from. rewrite length_take. lia. }
    { by rewrite columns_from_lookup. }
    exists plane. split; [done|]. exists byte. split; [|done].
    unfold position in Hbyte. rewrite Hrow, Nat2Z.id in Hbyte. done.
Qed.

End OneHash.

(** ** The rows written for a block *)

Lemma at_index_done {A} (xs : list A) (i : nat) (x : A) :
  xs !! i = Some x → at_index xs (Z.of_nat i) = Done x.
Proof.
  intros Hx. pose proof (lookup_lt_Some _ _ _ Hx) as Hlt.
  unfold at_index, len.
  destruct (Z.leb_spec 0 (Z.of_nat i)); [|lia].
  destruct (Z.ltb_spec (Z.of_nat i) (Z.of_nat (length xs))); [|lia].
  simpl. by rewrite Nat2Z.id, Hx.
Qed.

(** Byte [ii] of plane [jj]. *)
Definition cell (planes : list (list Z)) (ii jj : nat) : option Z :=
  planes !! jj ≫= (λ plane, plane !! ii).

Lemma fill_row_rounds (planes : list (list Z)) (ii : nat) (row : list Z)
    (k : nat) :
  (k ≤ length row)%nat →
  (∀ jj, (jj < k)%nat → is_Some (cell planes ii jj)) →
  ∃ row',
    foldM (λ row jj,
             plane ← at_index planes jj;
             byte ← at_index plane (Z.of_nat ii);
             update_at row jj (λ _, byte))
          (seqZ 0 (Z.of_nat k)) row = Done row' ∧
    length row' = length row ∧
    (∀ jj, (jj < k)%nat → row' !! jj = cell planes ii jj) ∧
    (∀ jj, (k ≤ jj)%nat → row' !! jj = row !! jj).
Proof.
  induction k as [|k IH]; intros Hk Hcells.
  - exists row. rewrite seqZ_nil by done. split_and!; [done|done| |done].
    intros jj Hjj. lia.
  - destruct IH as (row1 & Hrun & Hlen & Hset & Hkeep);
      [lia|intros jj Hjj; apply Hcells; lia|].
    destruct (Hcells k) as [byte Hcell]; [lia|].
    unfold cell in Hcell.
    destruct (planes !! k) as [plane|] eqn:Hplane; [|done].
    simpl in Hcell.
    replace (Z.of_nat (S k)) with (Z.of_nat k + 1) by lia.
    rewrite seqZ_snoc, foldM_app, Hrun by lia. simpl.
    rewrite (at_index_done _ _ _ Hplane). simpl.
    rewrite (at_index_done _ _ _ Hcell). simpl.
    destruct (row1 !! k) as [old|] eqn:Hold.
    2:{ apply lookup_ge_None in Hold. lia. }
    assert (update_at row1 (Z.of_nat k) (λ _, byte)
            = Done (<[k := byte]> row1)) as Hup.
    { apply update_at_done. unfold len. split; [lia|].
      exists old. by rewrite Nat2Z.id. }
    rewrite Hup. eexists. split_and!; [done|..].
    + by rewrite length_insert.
    + intros jj Hjj. destruct (decide (jj = k)) as [->|Hne].
      * rewrite list_lookup_insert_eq by lia. unfold cell.
        by rewrite Hplane.
      * rewrite list_lookup_insert_ne by done. apply Hset. lia.
    + intros jj Hjj. rewrite list_lookup_insert_ne by lia. apply Hkeep. lia.
Qed.

Section WriteFacts.
Variable WriteBatchErr : list Z → Z → option string.
Variable WriteErr : list Z → option string.

Lemma write_rounds (planes : list (list Z)) (row : list Z) (n : nat) :
  length row = length planes →
  (∀ row', WriteErr row' = None) →
  (∀ ii jj, (ii < n)%nat → (jj < length planes)%nat →
            is_Some (cell planes ii jj)) →
  ∃ rown rows,
    foldM (λ '(row, rows) ii,
             row' ← fill_row (len planes) planes ii row;
             _ ← checkError (WriteErr row');
             Done (row', rows ++ [row']))
          (seqZ 0 (Z.of_nat n)) (row, []) = Done (rown, rows) ∧
    length rown = length planes ∧
    length rows = n ∧
    ∀ ii r, rows !! ii = Some r →
            length r = length planes ∧
            ∀ jj, (jj < length planes)%nat → r !! jj = cell planes ii jj.
Proof.
  intros Hrow Hwrite. induction n as [|n IH]; intros Hcells.
  - exists row, []. rewrite seqZ_nil by done. split_and!; done.
  - destruct IH as (row1 & rows1 & Hrun & Hlen1 & Hrows1 & Hspec1).
    { intros ii jj Hii Hjj. apply Hcells; lia. }
    replace (Z.of_nat (S n)) with (Z.of_nat n + 1) by lia.
    rewrite seqZ_snoc, foldM_app, Hrun by lia. simpl.
    destruct (fill_row_rounds planes n row1 (length planes))
      as (row2 & Hfill & Hlen2 & Hset & _).
    { lia. }
    { intros jj Hjj. apply Hcells; lia. }
    unfold fill_row, len. rewrite Hfill. simpl.
    rewrite Hwrite. simpl.
    exists row2, (rows1 ++ [row2]). split_and!; [done|lia| |].
    + rewrite length_app. simpl. lia.
    + intros ii r Hr.
      destruct (decide (ii < length rows1)%nat) as [Hlt|Hge].
      * rewrite lookup_app_l in Hr by done. by apply Hspec1.
      * rewrite lookup_app_r in Hr by lia.
        destruct (ii - length rows1)%nat as [|d] eqn:Hd; [|done].
        injection Hr as <-. assert (ii = n) as -> by lia.
        split; [lia|done].
Qed.

(** What is handed to the writer for planes of [numSigs] bytes each. *)
Lemma write_block_rows (numSigs : Z) (planes : list (list Z)) :
  0 ≤ numSigs < 2 ^ 63 →
  Forall (λ plane, len plane = numSigs) planes →
  (∀ plane, planes = [plane] →
     WriteBatchErr plane (len plane) = None →
     write_block WriteBatchErr WriteErr (len planes) numSigs planes
     = Done (WriteBatch plane numSigs)) ∧
  (len planes ≠ 1 → (∀ row, WriteErr row = None) →
   ∃ rows,
     write_block WriteBatchErr WriteErr (len planes) numSigs planes
     = Done (Write rows) ∧
     len rows = numSigs ∧
     Forall (λ row, len row = len planes) rows ∧
     ∀ ii jj : nat,
       rows !! ii ≫= (λ row, row !! jj) = cell planes ii jj).
Proof.
  intros HnumSigs Hshape. split.
  - intros plane -> Hok. unfold write_block. simpl.
    rewrite Hok. simpl. rewrite Forall_singleton in Hshape.
    by rewrite Hshape.
  - intros Hmany Hwrite. unfold write_block.
    destruct (Z.eqb_spec (len planes) 1); [done|].
    assert (make 0 (len planes) = Done (replicate (length planes) 0)) as ->.
    { apply make_done. unfold len. split; [lia|]. by rewrite Nat2Z.id. }
    simpl.
    rewrite wrap_int_small by lia.
    destruct (write_rounds planes (replicate (length planes) 0)
                (Z.to_nat numSigs))
      as (rown & rows & Hrun & _ & Hlen & Hspec).
    { apply length_replicate. }
    { done. }
    { intros ii jj Hii Hjj. unfold cell.
      destruct (planes !! jj) as [plane|] eqn:Hplane.
      - simpl. apply lookup_lt_is_Some.
        rewrite Forall_forall in Hshape.
        assert (len plane = numSigs) as Hl
          by (apply Hshape; by eapply list_elem_of_lookup_2).
        unfold len in Hl. lia.
      - apply lookup_ge_None in Hplane. lia. }
    rewrite Z2Nat.id in Hrun by lia. rewrite Hrun. simpl.
    exists rows. split_and!; [done|unfold len; lia| |].
    + apply Forall_forall. intros r Hr.
      apply list_elem_of_lookup in Hr as (ii & Hr).
      destruct (Hspec ii r Hr) as [Hl _]. unfold len. lia.
    + intros ii jj. destruct (rows !! ii) as [r|] eqn:Hr; simpl.
      * destruct (Hspec ii r Hr) as [Hl Hcells].
        destruct (decide (jj < length planes)%nat) as [Hlt|Hge].
        -- by apply Hcells.
        -- rewrite (proj2 (lookup_ge_None r jj)) by lia.
           unfold cell. by rewrite (proj2 (lookup_ge_None planes jj)) by lia.
      * apply lookup_ge_None in Hr. unfold cell.
        destruct (planes !! jj) as [plane|] eqn:Hplane; simpl; [|done].
        symmetry. apply lookup_ge_None.
        rewrite Forall_forall in Hshape.
        assert (len plane = numSigs) as Hl
          by (apply Hshape; by eapply list_elem_of_lookup_2).
        unfold len in Hl. lia.
Qed.

Variable hash64 : Z → Z.
Variable hashLocationsFaster : Z → Z → Z → list Z.
Variable inStream : string → UnikFile.
Variable numHashes : Z.

(** What is handed to the writer for a block that was filled, with
    [nBatchFiles = (len(batch) + 7) / 8].  One plane goes as it is, in one
    call.  Two planes or more go row by row, [numSigs] rows of one byte
    per plane, byte [jj] of row [ii] being byte [ii] of plane [jj]: the
    planes are transposed, no index is out of range, and nothing fails
    when the writer accepts the rows. *)
Theorem filled_block_is_written_by_rows (numSigs : Z)
    (batch : list (list UnikFileInfo)) (schedule : list nat)
    (planes : list (list Z)) :
  schedule ≡ₚ builders batch →
  len batch < 2 ^ 63 →
  0 ≤ numSigs < 2 ^ 63 →
  fill_block hash64 hashLocationsFaster inStream numHashes numSigs batch
             schedule = Done planes →
  let nBatchFiles := (len batch + 7) / 8 in
  (∀ plane, planes = [plane] →
     WriteBatchErr plane (len plane) = None →
     write_block WriteBatchErr WriteErr nBatchFiles numSigs planes
     = Done (WriteBatch plane numSigs)) ∧
  (nBatchFiles ≠ 1 → (∀ row, WriteErr row = None) →
   ∃ rows,
     write_block WriteBatchErr WriteErr nBatchFiles numSigs planes
     = Done (Write rows) ∧
     len rows = numSigs ∧
     Forall (λ row, len row = nBatchFiles) rows ∧
     ∀ ii jj : nat,
       rows !! ii ≫= (λ row, row !! jj) = cell planes ii jj).
Proof.
  intros Hsched Hlen HnumSigs Hfill nBatchFiles.
  pose proof (planes_in_builder_order _ _ _ _ numSigs batch schedule planes
                Hsched Hlen Hfill) as Hplanes.
  assert (len planes = nBatchFiles) as Hnb.
  { apply Forall2_length in Hplanes. unfold len in *.
    rewrite <- Hplanes. unfold builders, len. rewrite length_seq.
    rewrite Z2Nat.id; [done|]. apply Z.div_pos; lia. }
  assert (Forall (λ plane, len plane = numSigs) planes) as Hshape.
  { apply Forall_forall. intros plane Hin.
    apply list_elem_of_lookup in Hin as (j & Hj).
    destruct (Forall2_lookup_r _ _ _ _ _ Hplanes Hj) as (i & _ & Hpl).
    apply fill_plane_shape in Hpl as [Hn [Hl _]]. unfold len. lia. }
  rewrite <- Hnb. by apply write_block_rows.
Qed.

End WriteFacts.

Section IndexExamples.
Import Demo.

(** The hundred references in blocks of 16: the blocks hold the hundred
    references in their order. *)
Lemma batching_keeps_every_group_witness :
  concat (batching 5000 10000 16 hundred_references)
  = Infos <$> nonempty hundred_references ∧
  ∀ g, g ∈ hundred_references → GKmers g = 0 →
       Infos g ∉ concat (batching 5000 10000 16 hundred_references).
Proof.
  apply (batching_keeps_every_group 5000 10000 16 hundred_references).
  apply Forall_app. split.
  - apply Forall_replicate. apply group_of_well_formed.
  - repeat constructor.
Defined.

(** The hundred references with --block-size 16 on a machine where 12 files
    fall to a CPU. *)
Lemma blocks_within_block_size_witness :
  Forall (λ blk, 1 ≤ len blk ≤ Z.max 8 16)
         (batching 5000 10000 (block_size 16 (len hundred_references) 12)
                   hundred_references).
Proof.
  apply (blocks_within_block_size 5000 10000 16 12 hundred_references);
    [|lia].
  apply Forall_app. split.
  - apply Forall_replicate. apply group_of_well_formed.
  - repeat constructor.
Defined.

(** Three groups and --block-size 4: the block size is 8. *)
Lemma block_size_at_least_one_witness :
  1 ≤ block_size 4 3 0 ≤ Z.max 8 3 ∧
  (block_size 4 3 0 < 8 → block_size 4 3 0 = 3) ∧
  (0 < 4 → block_size 4 3 0 = if 4 <? 8 then 8 else Z.min 4 3) ∧
  nIndexFiles 3 (block_size 4 3 0)
  = Done ((3 + block_size 4 3 0 - 1) / block_size 4 3 0) ∧
  1 ≤ (3 + block_size 4 3 0 - 1) / block_size 4 3 0.
Proof. apply (block_size_at_least_one 4 3 0). lia. Defined.

(** Three files in two buckets. *)
Lemma every_file_in_one_bucket_witness :
  ∃ buckets,
    buckets_of demoSum64 demoBaseHashes 2 0 1 three_files = Done buckets ∧
    len buckets = 2 ∧
    (∀ b : nat,
       (b < length buckets)%nat →
       buckets !! b
       = Some (filter (λ info, hashed_bucket demoSum64 demoBaseHashes 2 0 1
                                 info = Z.of_nat b) three_files)) ∧
    concat buckets ≡ₚ three_files.
Proof.
  apply (every_file_in_one_bucket demoSum64 demoBaseHashes 2 0 1 three_files).
  lia.
Defined.

(** The nine columns with 8 signatures, the second builder delivering
    first. *)
Lemma filled_block_shape_witness :
  len [ [0; 0; 0; 0; 255; 255; 0; 0]; [0; 0; 0; 0; 0; 0; 0; 128] ]
  = (len nine_columns + 7) / 8 ∧
  Forall (λ plane, len plane = 8 ∧ Forall (λ byte, 0 ≤ byte < 2 ^ 8) plane)
         [ [0; 0; 0; 0; 255; 255; 0; 0]; [0; 0; 0; 0; 0; 0; 0; 128] ].
Proof.
  apply (filled_block_shape demoHash64 noLocations demoInStream 1 8
           nine_columns [1; 0]%nat).
  - vm_compute. apply perm_swap.
  - vm_compute. reflexivity.
  - vm_compute. reflexivity.
Defined.

Lemma delivery_order_is_immaterial_witness :
  fill_block demoHash64 noLocations demoInStream 1 8 nine_columns [0; 1]%nat
  = Done [ [0; 0; 0; 0; 255; 255; 0; 0]; [0; 0; 0; 0; 0; 0; 0; 128] ].
Proof.
  apply (delivery_order_is_immaterial demoHash64 noLocations demoInStream 1 8
           nine_columns [1; 0]%nat [0; 1]%nat).
  - vm_compute. apply perm_swap.
  - vm_compute. reflexivity.
  - vm_compute. reflexivity.
  - vm_compute. reflexivity.
Defined.

Lemma filled_block_read_every_file_witness :
  OpenErr (demoInStream "plain.unik") = None ∧
  ReadErr (demoInStream "plain.unik") = None.
Proof.
  apply (filled_block_read_every_file demoHash64 noLocations demoInStream 1 8
           nine_columns [1; 0]%nat
           [ [0; 0; 0; 0; 255; 255; 0; 0]; [0; 0; 0; 0; 0; 0; 0; 128] ]
           8%nat (Infos (reference "plain" 1))
           {| Path := "plain.unik"; Name := "plain"; Index := 0;
              Kmers := 1 |}).
  - vm_compute. apply perm_swap.
  - vm_compute. reflexivity.
  - vm_compute. reflexivity.
  - reflexivity.
  - vm_compute. constructor.
Defined.

(** Bit 7 of row 7 of plane 1 is set, by the k-mer 2 of column 8, whose
    hash is 7. *)
Lemma bloom_bits_are_the_codes_witness :
  (∃ plane,
     [ [0; 0; 0; 0; 255; 255; 0; 0]; [0; 0; 0; 0; 0; 0; 0; 128] ] !! 1%nat
     = Some plane ∧ bit_at plane 7 7) ↔
  (∃ c : nat, (c / 8)%nat = 1%nat ∧ 7 = 7 - Z.of_nat (c mod 8) ∧
              code_at demoHash64 demoInStream (8 - 1) nine_columns c 7).
Proof.
  apply (bloom_bits_are_the_codes demoHash64 noLocations demoInStream 8
           nine_columns [1; 0]%nat).
  - lia.
  - vm_compute. reflexivity.
  - vm_compute. apply perm_swap.
  - vm_compute. reflexivity.
Defined.

Lemma filled_block_is_written_by_rows_witness :
  ∃ rows,
    write_block noWriteBatchErr noWriteErr ((len nine_columns + 7) / 8) 8
      [ [0; 0; 0; 0; 255; 255; 0; 0]; [0; 0; 0; 0; 0; 0; 0; 128] ]
    = Done (Write rows) ∧
    len rows = 8 ∧
    Forall (λ row, len row = (len nine_columns + 7) / 8) rows ∧
    ∀ ii jj : nat,
      rows !! ii ≫= (λ row, row !! jj)
      = cell [ [0; 0; 0; 0; 255; 255; 0; 0]; [0; 0; 0; 0; 0; 0; 0; 128] ]
             ii jj.
Proof.
  destruct (filled_block_is_written_by_rows noWriteBatchErr noWriteErr
              demoHash64 noLocations demoInStream 1 8 nine_columns
              [1; 0]%nat
              [ [0; 0; 0; 0; 255; 255; 0; 0]; [0; 0; 0; 0; 0; 0; 0; 128] ])
    as [_ Hrows].
  - vm_compute. apply perm_swap.
  - vm_compute. reflexivity.
  - lia.
  - vm_compute. reflexivity.
  - apply Hrows; [vm_compute; discriminate|reflexivity].
Defined.

End IndexExamples.

End IndexerProps.

(* ===================================================================== *)
(** * Further properties of the search command                           *)
(* ===================================================================== *)

Module SearcherProps.
Import Searcher GoFacts LoopFacts SearcherFacts.

Section Flags.
Context `{Strconv}.
Variable opt : Options.

(** The flags and the databases pass the tests of the command. *)
Definition accepted (dbs : list DBInfo) : Prop :=
  (sortBy opt = "qcov" ∨ sortBy opt = "jacc" ∨ sortBy opt = "tcov") ∧
  (queryCov opt <? 0)%float = false ∧ (1 <? queryCov opt)%float = false ∧
  (targetCov opt <? 0)%float = false ∧ (1 <? targetCov opt)%float = false ∧
  Forall (λ db, (queryCov opt <=? InfoFPR db)%float = false) dbs.

Lemma check_flags_spec :
  ((sortBy opt = "qcov" ∨ sortBy opt = "jacc" ∨ sortBy opt = "tcov") ∧
   (queryCov opt <? 0)%float = false ∧ (1 <? queryCov opt)%float = false ∧
   (targetCov opt <? 0)%float = false ∧ (1 <? targetCov opt)%float = false →
   check_flags opt = Done ()) ∧
  (¬ ((sortBy opt = "qcov" ∨ sortBy opt = "jacc" ∨ sortBy opt = "tcov") ∧
      (queryCov opt <? 0)%float = false ∧ (1 <? queryCov opt)%float = false ∧
      (targetCov opt <? 0)%float = false ∧
      (1 <? targetCov opt)%float = false) →
   ∃ msg, check_flags opt = Fatal msg).
Proof.
  unfold check_flags. split.
  - intros (Hsort & Hq0 & Hq1 & Ht0 & Ht1).
    assert (bool_decide (sortBy opt = "qcov")
            || bool_decide (sortBy opt = "jacc")
            || bool_decide (sortBy opt = "tcov") = true) as ->.
    { destruct Hsort as [->| [->| ->]]; done. }
    simpl. by rewrite Hq0, Hq1, Ht0, Ht1.
  - intros Hnot.
    destruct (bool_decide (sortBy opt = "qcov")
              || bool_decide (sortBy opt = "jacc")
              || bool_decide (sortBy opt = "tcov")) eqn:Hsort; simpl;
      [|by eexists].
    destruct ((queryCov opt <? 0) || (1 <? queryCov opt))%float eqn:Hq;
      simpl; [by eexists|].
    destruct ((targetCov opt <? 0) || (1 <? targetCov opt))%float eqn:Ht;
      simpl; [by eexists|].
    exfalso. apply Hnot.
    apply orb_false_iff in Hq as [Hq0 Hq1].
    apply orb_false_iff in Ht as [Ht0 Ht1].
    split_and!; [|done..].
    apply orb_true_iff in Hsort as [Hsort|Hsort].
    + apply orb_true_iff in Hsort as [Hsort|Hsort].
      * left. by apply bool_decide_eq_true in Hsort.
      * right. left. by apply bool_decide_eq_true in Hsort.
    + right. right. by apply bool_decide_eq_true in Hsort.
Qed.

Lemma accepted_run (dbs : list DBInfo)
    (records : list (string * string))
    (engine : list Query → list QueryResult) :
  accepted dbs →
  queries (searchCmd opt dbs records engine) = send records ∧
  result (searchCmd opt dbs records engine)
  = write_all opt (reorder (engine (send records))).
Proof.
  intros (Hsort & Hq0 & Hq1 & Ht0 & Ht1 & Hdbs). unfold searchCmd.
  destruct check_flags_spec as [Hok _].
  destruct (check_dbs_spec opt dbs) as [_ Hdbok].
  rewrite Hok by done. simpl. by rewrite Hdbok.
Qed.

End Flags.

(** ** The records of a query with matches *)

Lemma first_done {A} (xs : list A) (x : A) :
  first xs = Done x ↔ head xs = Some x.
Proof. destruct xs; simpl; split; congruence. Qed.

Lemma halves_of_target_index (n i : Z) :
  0 ≤ n → 0 ≤ i < 2 ^ 16 →
  Z.lor (Z.shiftl n 16) i mod 2 ^ 16 = i ∧
  Z.shiftr (Z.lor (Z.shiftl n 16) i) 16 = n.
Proof.
  intros Hn Hi. split.
  - rewrite <- Z.land_ones by lia.
    rewrite Z.land_lor_distr_l, !Z.land_ones by lia.
    rewrite Z.shiftl_mul_pow2, Z.mod_mul by lia.
    rewrite Z.mod_small by lia. apply Z.lor_0_l.
  - rewrite Z.shiftr_lor, Z.shiftr_shiftl_l by lia.
    rewrite (Z.shiftr_div_pow2 i), Z.div_small by lia.
    rewrite Z.sub_diag, Z.shiftl_0_r. apply Z.lor_0_r.
Qed.

Section Records.
Context `{Strconv}.
Variable opt : Options.

(** What the line of a match shows of the query and of the match. *)
Definition line_of (result : QueryResult) (nhits : Z) (match_ : Match)
    (l : Line) : Prop :=
  query l = QueryID result ∧
  qLen l = Itoa (QueryLen result) ∧
  qKmers l = Itoa (QNumKmers result) ∧
  cFPR l = FormatFloat (FPR result) "e" 4 ∧
  hits l = Itoa nhits ∧
  kSize l = Itoa (K result) ∧
  queryIdx l = Itoa (wrap_int (QueryIdx result)) ∧
  head (Target match_) = Some (target l) ∧
  mKmers l = Itoa (NumKmers match_) ∧
  qCov l = FormatFloat (QCov match_) "f" 4 ∧
  tCov l = FormatFloat (TCov match_) "f" 4 ∧
  jacc l = FormatFloat (JaccardIndex match_) "f" 4.

Lemma matched_line_done (result : QueryResult) (nhits : Z) (match_ : Match)
    (l : Line) :
  matched_line result nhits match_ = Done l →
  line_of result nhits match_ l ∧
  ∃ tidx gsize,
    head (TargetIdx match_) = Some tidx ∧
    head (GenomeSize match_) = Some gsize ∧
    fragIdx l = Itoa (tidx mod 2 ^ 16) ∧
    frags l = Itoa (Z.shiftr tidx 16) ∧
    tLen l = Itoa (wrap_int gsize).
Proof.
  unfold matched_line.
  intros (tgt & Htgt%first_done & (tidx & Htidx%first_done &
    (gsize & Hgsize%first_done & [= <-])%bind_done)%bind_done)%bind_done.
  split; [by repeat split|]. by exists tidx, gsize.
Qed.



(** The columns fragIdx and frags are the two halves of [TargetIdx[0]]:
    for the index [n << 16 | i], with [i] below 65536, the record shows
    [i] as fragIdx and [n] as frags. *)
Theorem target_index_columns (result : QueryResult) (nhits : Z)
    (match_ : Match) (l : Line) (n i : Z) :
  0 ≤ n → 0 ≤ i < 2 ^ 16 →
  head (TargetIdx match_) = Some (Z.lor (Z.shiftl n 16) i) →
  matched_line result nhits match_ = Done l →
  fragIdx l = Itoa i ∧ frags l = Itoa n.
Proof.
  intros Hn Hi Htidx Hl.
  apply matched_line_done in Hl as [_ (tidx & gsize & Ht & _ & -> & -> & _)].
  rewrite Htidx in Ht. injection Ht as <-.
  destruct (halves_of_target_index n i Hn Hi) as [-> ->]. done.
Qed.

End Records.

(** ** From the input to the output *)

Lemma send_indices (records : list (string * string)) :
  len records ≤ 2 ^ 64 →
  Idx <$> send records = seqZ 0 (len records).
Proof.
  intros Hn. unfold send. rewrite fmap_imap.
  rewrite (imap_ext _ (λ i _, wrap_uint64 (Z.of_nat i))) by done.
  rewrite imap_seq_0. unfold seqZ, len. rewrite Nat2Z.id.
  apply list_fmap_ext. intros j i [-> Hj]%lookup_seq.
  unfold wrap_uint64, len in *. rewrite Z.mod_small; lia.
Qed.

Section Order.
Context `{Strconv}.
Variable opt : Options.

(** When the flags pass and the engine answers every query once, in any
    order, the results are written in the order of the input: the result
    written at place i is the one of the query read at place i, and the
    output is the records of these results, one result after the other. *)
Theorem output_follows_input_order (dbs : list DBInfo)
    (records : list (string * string))
    (engine : list Query → list QueryResult) :
  accepted opt dbs →
  len records ≤ 2 ^ 64 →
  QueryIdx <$> engine (send records) ≡ₚ Idx <$> send records →
  let run := searchCmd opt dbs records engine in
  queries run = send records ∧
  ∃ results,
    results ≡ₚ engine (send records) ∧
    QueryIdx <$> results = Idx <$> send records ∧
    result run = write_all opt results ∧
    ∀ lines,
      result run = Done lines →
      ∃ blocks,
        Forall2 (λ r block, write_result opt r = Done block) results blocks ∧
        lines = concat blocks.
Proof.
  intros Hacc Hn Hanswers run.
  destruct (accepted_run opt dbs records engine Hacc)
    as [Hq Hr].
  subst run. split; [done|].
  set (arrivals := engine (send records)) in *.
  rewrite send_indices in Hanswers |- * by done.
  assert (NoDup (QueryIdx <$> arrivals)) as Hnd.
  { rewrite Hanswers. apply NoDup_seqZ. }
  assert (Forall (λ r, 0 ≤ QueryIdx r < 2 ^ 64) arrivals) as Hrange.
  { apply Forall_forall. intros r Hr'.
    assert (QueryIdx r ∈ seqZ 0 (len records)) as Hin.
    { rewrite <- Hanswers. by apply list_elem_of_fmap_2. }
    apply elem_of_seqZ in Hin. lia. }
  assert (reorder_inv arrivals
            (fold_left reorder_step arrivals
               {| m := ∅; id := 0; sent := [] |})) as Hinv.
  { apply (reorder_loop_inv arrivals [] _ reorder_inv_init); done. }
  destruct (reorder_finish_spec _ _ Hinv Hnd Hrange) as [Hperm Hsorted].
  exists (reorder arrivals). split_and!; [done| |done|].
  - apply (StronglySorted_unique_strong Z.lt).
    + intros; lia.
    + done.
    + apply StronglySorted_seqZ.
    + unfold reorder. by rewrite Hperm.
  - intros lines Hlines. rewrite Hr in Hlines.
    by apply write_all_blocks in Hlines.
Qed.

End Order.

Section SearchMoreExamples.
Import Demo.


Lemma target_index_columns_witness :
  ∃ l,
    @matched_line demoStrconv (matched 3) 1 hit_on_X = Done l ∧
    fragIdx l = @Itoa demoStrconv 0 ∧ frags l = @Itoa demoStrconv 1.
Proof.
  eexists. split; [vm_compute; reflexivity|].
  apply (@target_index_columns demoStrconv (matched 3) 1 hit_on_X _ 1 0).
  - lia.
  - lia.
  - vm_compute. reflexivity.
  - vm_compute. reflexivity.
Defined.

(** Two reads against a database of rate 0.5 with a threshold of 0.75, the
    engine answering the second read first. *)
Lemma output_follows_input_order_witness :
  ∃ results,
    results ≡ₚ answer_backwards (send [("r1", "ACGT"); ("r2", "TTGA")]) ∧
    QueryIdx <$> results = [0; 1].
Proof.
  destruct (@output_follows_input_order demoStrconv (search_opt true 0.75)
              [ {| InfoFPR := 0.5%float |} ]
              [("r1"%string, "ACGT"%string); ("r2"%string, "TTGA"%string)]
              answer_backwards)
    as (_ & results & Hperm & Hidx & _).
  - unfold accepted. split_and!; try (vm_compute; reflexivity).
    + by left.
    + repeat constructor.
  - vm_compute. discriminate.
  - vm_compute. apply perm_swap.
  - exists results. by split.
Defined.

End SearchMoreExamples.

End SearcherProps.

(* ===================================================================== *)
(** * Further properties of the profile command                          *)
(* ===================================================================== *)

Module ProfilerProps.
Import Profiler GoFacts LoopFacts ProfilerFacts.

Section SetAside.
Context `{Strconv} `{Xxh3} `{Sorts}.
Variable stringSplitN : string → string → Z → list string.
Variable range_profile : gmap Z TargetRec → list (Z * TargetRec).
Variable opt : Options.

(** The line is set aside by one of the two filters: its FPR is above
    --max-fpr, or its FPR passes and its query coverage is below the
    minimum. *)
Definition set_aside (items : list string) : Prop :=
  ∃ fpr, ParseFloat (field items 3) = Some fpr ∧
         ((maxFPR opt <? fpr)%float = true ∨
          ∃ qcov, ParseFloat (field items 9) = Some qcov ∧
                  (qcov <? minQcov opt)%float = true).

Lemma scan_set_aside (st : scan_state) (line : string) :
  (10 ≤ length (stringSplitN line tab numFields))%nat →
  set_aside (stringSplitN line tab numFields) →
  scan_line stringSplitN opt st line = Done st.
Proof.
  intros Hlen (fpr & Hfpr & Hskip). unfold scan_line, parseMatchResult.
  set (items := stringSplitN line tab numFields) in *.
  rewrite (item_field items 3) by lia. simpl. rewrite Hfpr. simpl.
  destruct (maxFPR opt <? fpr)%float eqn:Hmax; simpl; [done|].
  destruct Hskip as [?|(qcov & Hqcov & Hmin)]; [done|].
  rewrite (item_field items 9) by lia. simpl. rewrite Hqcov. simpl.
  by rewrite Hmin.
Qed.

End SetAside.

Section Thresholds.
Context `{Strconv} `{Xxh3} `{Sorts}.
Variable stringSplitN : string → string → Z → list string.
Variable range_profile : gmap Z TargetRec → list (Z * TargetRec).
Variable opt : Options.
Hypothesis sort_perm : ∀ l : list TargetRec, Quicksort Less l ≡ₚ l.
Hypothesis range_perm : ∀ p, range_profile p ≡ₚ map_to_list p.

Lemma flush_nothing (p : gmap Z TargetRec) :
  flush (map_to_list (∅ : gmap Z (list MatchResult))) p = Done p.
Proof. by rewrite map_to_list_empty. Qed.

(** The options with another --min-uniq-reads. *)
Definition with_minUReads (u : Z) : Options :=
  {| maxFPR := maxFPR opt; minQcov := minQcov opt; minReads := minReads opt;
     minUReads := u; minFragsProp := minFragsProp opt |}.

Lemma kept_with_less (u : Z) (e : Z * TargetRec) (t : TargetRec) :
  u ≤ minUReads opt →
  kept opt e = Some t → kept (with_minUReads u) e = Some t.
Proof.
  intros Hu. destruct e as [h t0]. unfold kept, summarise. simpl.
  destruct (scan_fragments opt (Match t0) (FragsProp t0, MeanAbundance t0))
    as [fp ma] eqn:Hscan.
  change (scan_fragments (with_minUReads u) (Match t0)
            (FragsProp t0, MeanAbundance t0))
    with (scan_fragments opt (Match t0) (FragsProp t0, MeanAbundance t0)).
  rewrite Hscan.
  destruct (_ <? minFragsProp opt)%float; simpl; [done|].
  destruct (Z.ltb_spec (sum_uniq (UniqMatch t0) (SumUniqMatch t0))
              (minUReads opt)); simpl; [done|].
  destruct (Z.ltb_spec (sum_uniq (UniqMatch t0) (SumUniqMatch t0)) u);
    [lia|done].
Qed.

End Thresholds.

(** ** The fragments of a target *)

(** The three slices of a target have one entry per fragment, and there is
    a fragment. *)
Definition shaped (t : TargetRec) : Prop :=
  length (UniqMatch t) = length (Match t) ∧
  length (FragLens t) = length (Match t) ∧
  (0 < length (Match t))%nat.

(** The hit [m] falls on a fragment of the target of key [h]. *)
Definition in_range (p : gmap Z TargetRec) (h : Z) (m : MatchResult) : Prop :=
  ∃ t, p !! h = Some t ∧ 0 ≤ FragIdx m < len (Match t).

Lemma lookup_or_new_lengths (h : Z) (p : gmap Z TargetRec) (m : MatchResult)
    (t0 : TargetRec) :
  lookup_or_new h p m = Done t0 →
  p !! h = Some t0 ∨
  (length (UniqMatch t0) = length (Match t0) ∧
   length (FragLens t0) = length (Match t0)).
Proof.
  unfold lookup_or_new. destruct (p !! h) as [t|].
  - intros [= <-]. by left.
  - intros (mt & [_ ->]%make_done & (um & [_ ->]%make_done &
      (fl & [_ ->]%make_done & [= <-])%bind_done)%bind_done)%bind_done.
    right. simpl. by rewrite !length_replicate.
Qed.

Lemma credit_lengths (h n : Z) (fn : float) (p p' : gmap Z TargetRec)
    (m : MatchResult) :
  credit h n fn p m = Done p' →
  ∃ t0 t1,
    lookup_or_new h p m = Done t0 ∧ p' = <[h := t1]> p ∧
    length (Match t1) = length (Match t0) ∧
    length (UniqMatch t1) = length (UniqMatch t0) ∧
    length (FragLens t1) = length (FragLens t0) ∧
    0 ≤ FragIdx m < len (Match t0).
Proof.
  unfold credit.
  intros (t0 & Ht0 & (mt & Hmt & (um & Hum & (fl & Hfl & [= <-])%bind_done)
    %bind_done)%bind_done)%bind_done.
  pose proof (proj1 (proj1 (update_at_done _ _ _ _) Hmt)) as Hrange.
  eexists t0, _. split_and!; [done|done|..]; simpl; [| | |lia|lia].
  - by apply update_at_length in Hmt.
  - destruct (n =? 1); [by apply update_at_length in Hum|].
    by injection Hum as <-.
  - by apply update_at_length in Hfl.
Qed.

Lemma credit_shaped (h n : Z) (fn : float) (p p' : gmap Z TargetRec)
    (m : MatchResult) :
  map_Forall (λ _, shaped) p → credit h n fn p m = Done p' →
  map_Forall (λ _, shaped) p'.
Proof.
  intros Hp (t0 & t1 & Hnew & -> & Hm & Hu & Hf & Hrange)%credit_lengths.
  apply map_Forall_insert_2; [|done].
  unfold shaped, len in *. rewrite Hm, Hu, Hf.
  apply lookup_or_new_lengths in Hnew as [Hin|[Hu0 Hf0]].
  - destruct (Hp h t0 Hin) as (? & ? & ?). done.
  - split_and!; [done|done|lia].
Qed.

Lemma credit_sets_range (h n : Z) (fn : float) (p p' : gmap Z TargetRec)
    (m : MatchResult) :
  credit h n fn p m = Done p' → in_range p' h m.
Proof.
  intros (t0 & t1 & Hnew & -> & Hm & _ & _ & Hrange)%credit_lengths.
  exists t1. rewrite lookup_insert_eq. split; [done|].
  unfold len in *. by rewrite Hm.
Qed.

Lemma credit_keeps_range (h n : Z) (fn : float) (p p' : gmap Z TargetRec)
    (m : MatchResult) (h' : Z) (m' : MatchResult) :
  in_range p h' m' → credit h n fn p m = Done p' → in_range p' h' m'.
Proof.
  intros (t & Ht & Hr) (t0 & t1 & Hnew & -> & Hm & _ & _ & _)%credit_lengths.
  destruct (decide (h = h')) as [->|Hne].
  - exists t1. rewrite lookup_insert_eq. split; [done|].
    rewrite (lookup_or_new_found _ _ _ _ Ht) in Hnew.
    injection Hnew as <-. unfold len in *. by rewrite Hm.
  - exists t. by rewrite lookup_insert_ne.
Qed.

Lemma flush_group_range (p p' : gmap Z TargetRec) (h : Z)
    (ms : list MatchResult) :
  flush_group p (h, ms) = Done p' →
  (∀ m, m ∈ ms → in_range p' h m) ∧
  (∀ h' m', in_range p h' m' → in_range p' h' m') ∧
  (map_Forall (λ _, shaped) p → map_Forall (λ _, shaped) p').
Proof.
  unfold flush_group. intros Hrun. split_and!.
  - intros m Hm.
    eapply (foldM_establish (λ q, in_range q h m) _ _ m); [done|exact Hrun|..].
    + intros q q'. apply credit_sets_range.
    + intros q y q' Hq. by apply credit_keeps_range.
  - intros h' m' Hr. revert Hrun.
    apply (foldM_invariant (λ q, in_range q h' m')); [|done].
    intros q y q' Hq. by apply credit_keeps_range.
  - intros Hp. revert Hrun.
    apply (foldM_invariant (map_Forall (λ _, shaped))); [|done].
    intros q y q' Hq. by apply credit_shaped.
Qed.

Lemma flush_range (groups : list (Z * list MatchResult))
    (p p' : gmap Z TargetRec) :
  flush groups p = Done p' →
  (∀ h ms m, (h, ms) ∈ groups → m ∈ ms → in_range p' h m) ∧
  (∀ h' m', in_range p h' m' → in_range p' h' m') ∧
  (map_Forall (λ _, shaped) p → map_Forall (λ _, shaped) p').
Proof.
  unfold flush. intros Hrun. split_and!.
  - intros h ms m Hg Hm.
    eapply (foldM_establish (λ q, in_range q h m) _ _ (h, ms));
      [done|exact Hrun|..].
    + intros q q' Hgroup.
      by apply (proj1 (flush_group_range _ _ _ _ Hgroup)).
    + intros q [h' ms'] q' Hq Hgroup.
      by apply (proj1 (proj2 (flush_group_range _ _ _ _ Hgroup))).
  - intros h' m' Hr. revert Hrun.
    apply (foldM_invariant (λ q, in_range q h' m')); [|done].
    intros q [h ms] q' Hq Hgroup.
    by apply (proj1 (proj2 (flush_group_range _ _ _ _ Hgroup))).
  - intros Hp. revert Hrun.
    apply (foldM_invariant (map_Forall (λ _, shaped))); [|done].
    intros q [h ms] q' Hq Hgroup.
    by apply (proj2 (proj2 (flush_group_range _ _ _ _ Hgroup))).
Qed.

Section InRange.
Context `{Strconv} `{Xxh3} `{Sorts}.
Variable stringSplitN : string → string → Z → list string.
Variable range_profile : gmap Z TargetRec → list (Z * TargetRec).
Variable opt : Options.

(** The hit [m] waits in the groups of the query, or it has been credited
    to a fragment of its target. *)
Definition settled (m : MatchResult) (st : scan_state) : Prop :=
  (∃ ms, matches st !! HashString (Target m) = Some ms ∧ m ∈ ms) ∨
  in_range (profile st) (HashString (Target m)) m.

Lemma scan_match_cases (st st' : scan_state) (m : MatchResult) :
  scan_match st m = Done st' →
  (profile st' = profile st ∧ matches st' = add_hit (matches st) m) ∨
  (flush (map_to_list (matches st)) (profile st) = Done (profile st') ∧
   matches st' = add_hit ∅ m).
Proof.
  destruct (decide (prevQuery st = Query m)) as [Hq|Hq].
  - rewrite scan_match_same by done. intros [= <-]. by left.
  - rewrite scan_match_new by done.
    intros (p1 & Hflush & [= <-])%bind_done. by right.
Qed.

Lemma scan_match_settles (st st' : scan_state) (m : MatchResult) :
  scan_match st m = Done st' → settled m st'.
Proof.
  intros Hst. left.
  destruct (scan_match_cases _ _ _ Hst) as [[_ ->]|[_ ->]];
    unfold add_hit; rewrite lookup_insert_eq; eexists; split; try done;
    apply elem_of_app; right; constructor.
Qed.

Lemma scan_match_keeps_settled (st st' : scan_state) (m m' : MatchResult) :
  settled m st → scan_match st m' = Done st' → settled m st'.
Proof.
  intros Hm Hst.
  destruct (scan_match_cases _ _ _ Hst) as [[Hp Hms]|[Hflush Hms]].
  - destruct Hm as [(ms & Hk & Hin)|Hr].
    + left. rewrite Hms. unfold add_hit.
      destruct (decide (HashString (Target m') = HashString (Target m)))
        as [Heq|Hne].
      * rewrite Heq, lookup_insert_eq, Hk. eexists. split; [done|].
        apply elem_of_app. by left.
      * rewrite lookup_insert_ne by done. by exists ms.
    + right. by rewrite Hp.
  - right. destruct (flush_range _ _ _ Hflush) as (Hset & Hkeep & _).
    destruct Hm as [(ms & Hk & Hin)|Hr].
    + apply (Hset _ ms); [|done]. by apply elem_of_map_to_list.
    + by apply Hkeep.
Qed.

Lemma scan_match_shaped (st st' : scan_state) (m : MatchResult) :
  map_Forall (λ _, shaped) (profile st) → scan_match st m = Done st' →
  map_Forall (λ _, shaped) (profile st').
Proof.
  intros Hp Hst.
  destruct (scan_match_cases _ _ _ Hst) as [[-> _]|[Hflush _]]; [done|].
  by apply (proj2 (proj2 (flush_range _ _ _ Hflush))).
Qed.

Lemma scan_match_keeps_range (st st' : scan_state) (m : MatchResult)
    (h' : Z) (m' : MatchResult) :
  in_range (profile st) h' m' → scan_match st m = Done st' →
  in_range (profile st') h' m'.
Proof.
  intros Hr Hst.
  destruct (scan_match_cases _ _ _ Hst) as [[-> _]|[Hflush _]]; [done|].
  by apply (proj1 (proj2 (flush_range _ _ _ Hflush))).
Qed.

(** A line that [parseMatchResult] takes, with its hit. *)
Definition taken (line : string) (m : MatchResult) : Prop :=
  parseMatchResult stringSplitN line numFields (maxFPR opt) (minQcov opt)
  = Done (m, true).

Lemma scan_line_cases (st st' : scan_state) (line : string) :
  scan_line stringSplitN opt st line = Done st' →
  (st' = st ∧ ∀ m, ¬ taken line m) ∨
  ∃ m, taken line m ∧ scan_match st m = Done st'.
Proof.
  unfold scan_line, taken. intros ([m ok] & Hparse & Hstep)%bind_done.
  destruct ok.
  - right. by exists m.
  - left. split; [by injection Hstep|]. intros m'. by rewrite Hparse.
Qed.

Lemma scan_file_range (p p' : gmap Z TargetRec) (lines : list string) :
  scan_file stringSplitN opt p lines = Done p' →
  (∀ line m, line ∈ tail lines → taken line m →
             in_range p' (HashString (Target m)) m) ∧
  (∀ h' m', in_range p h' m' → in_range p' h' m') ∧
  (map_Forall (λ _, shaped) p → map_Forall (λ _, shaped) p').
Proof.
  unfold scan_file. intros (st & Hst & Hflush)%bind_done.
  destruct (flush_range _ _ _ Hflush) as (Hset & Hkeep & Hshape).
  split_and!.
  - intros line m Hline Hm.
    assert (settled m st) as [(ms & Hk & Hin)|Hr].
    { eapply (foldM_establish (settled m) _ _ line); [done|exact Hst|..].
      - intros s s' [[_ Hno]|(m1 & Hm1 & Hs)]%scan_line_cases.
        + by destruct (Hno m).
        + unfold taken in *. rewrite Hm in Hm1. injection Hm1 as <-.
          by apply scan_match_settles in Hs.
      - intros s y s' Hs [[-> _]|(m1 & _ & Hstep)]%scan_line_cases; [done|].
        by eapply scan_match_keeps_settled. }
    + apply (Hset _ ms); [|done]. by apply elem_of_map_to_list.
    + by apply Hkeep.
  - intros h' m' Hr. apply Hkeep. revert Hst.
    apply (foldM_invariant (λ s, in_range (profile s) h' m')); [|done].
    intros s y s' Hs [[-> _]|(m1 & _ & Hstep)]%scan_line_cases; [done|].
    by eapply scan_match_keeps_range.
  - intros Hp. apply Hshape. revert Hst.
    apply (foldM_invariant (λ s, map_Forall (λ _, shaped) (profile s)));
      [|done].
    intros s y s' Hs [[-> _]|(m1 & _ & Hstep)]%scan_line_cases; [done|].
    by eapply scan_match_shaped.
Qed.

(** A run that ends has credited every hit it took to a fragment of its
    target: the target of the hit is in the profile and the fragment index
    of the hit is at least 0 and below the number of its fragments.  A hit
    outside the fragments of its target, or on a target with no fragment,
    leaves the command without a profile.  Every target of the profile,
    and so every printed one, has at least one fragment, and as many
    unique-match counters as match counters. *)
Theorem hits_fall_on_fragments (files : list (list string))
    (out : list TargetRec) :
  (∀ l : list TargetRec, Quicksort Less l ≡ₚ l) →
  (∀ p, range_profile p ≡ₚ map_to_list p) →
  profileCmd stringSplitN range_profile opt files = Done out →
  ∃ p,
    foldM (scan_file stringSplitN opt) files ∅ = Done p ∧
    (∀ lines line m,
       lines ∈ files → line ∈ tail lines → taken line m →
       ∃ t, p !! HashString (Target m) = Some t ∧
            0 ≤ FragIdx m < len (Match t)) ∧
    map_Forall (λ _, shaped) p ∧
    (∀ t, t ∈ out →
          1 ≤ len (Match t) ∧ len (UniqMatch t) = len (Match t)).
Proof.
  intros Hsort Hrange (p & Hp & Hout)%profileCmd_done.
  assert (map_Forall (λ _, shaped) p) as Hshaped.
  { revert Hp.
    apply (foldM_invariant (map_Forall (λ _, shaped)));
      [|apply map_Forall_empty].
    intros q lines q' Hq Hfile.
    by apply (proj2 (proj2 (scan_file_range _ _ _ Hfile))). }
  exists p. split_and!; [done| |done|].
  - intros lines line m Hlines Hline Hm.
    eapply (foldM_establish
              (λ q, in_range q (HashString (Target m)) m) _ _ lines);
      [done|exact Hp|..].
    + intros q q' Hfile.
      by apply (proj1 (scan_file_range _ _ _ Hfile) line m).
    + intros q y q' Hq Hfile.
      by apply (proj1 (proj2 (scan_file_range _ _ _ Hfile))).
  - intros t Ht.
    rewrite (printed_targets _ _ _ files out p Hsort Hrange Hp Hout) in Ht.
    apply list_elem_of_omap in Ht as ([h t0] & Hin & Hkept).
    apply elem_of_map_to_list in Hin.
    destruct (Hshaped h t0 Hin) as (Hu & _ & Hpos).
    unfold kept in Hkept. simpl in Hkept.
    pose proof (summarise_fields opt t0) as (_ & HM & HU & _).
    destruct (summarise opt t0) as [t' keep]. simpl in *.
    destruct keep; [|done]. injection Hkept as ->.
    unfold len. rewrite HM, HU. lia.
Qed.

End InRange.

Section ProfileMoreExamples.
Import Demo.

(** Every read of [xy_file] falls on a fragment of X or of Y. *)
Lemma hits_fall_on_fragments_witness :
  ∃ out, demo_profileCmd [xy_file] = Done out ∧
         ∀ t, t ∈ out →
              1 ≤ len (Match t) ∧ len (UniqMatch t) = len (Match t).
Proof.
  assert (∃ out, demo_profileCmd [xy_file] = Done out) as [out Hout]
    by (eexists; vm_compute; reflexivity).
  pose proof Hout as Hrun. unfold demo_profileCmd in Hrun.
  destruct (@hits_fall_on_fragments demoStrconv demoXxh3 demoSorts
              demoSplitN map_to_list demo_opt [xy_file] out
              demo_sorts_perm demo_range_perm Hrun)
    as (p & _ & _ & _ & Hshape).
  exists out. split; [exact Hout|exact Hshape].
Defined.

End ProfileMoreExamples.

End ProfilerProps.

(* ===================================================================== *)
(** * The order of the files of a column                                 *)
(* ===================================================================== *)

Module FileOrder.
Import Indexer GoFacts LoopFacts IndexerFacts.

(** A loop whose rounds can be exchanged gives the same state for its
    elements in another order. *)
Lemma foldM_perm {A St} (body : St → A → outcome St) (xs ys : list A) :
  (∀ s x y s1 s2,
     body s x = Done s1 → body s1 y = Done s2 →
     ∃ s1', body s y = Done s1' ∧ body s1' x = Done s2) →
  xs ≡ₚ ys →
  ∀ st st', foldM body xs st = Done st' → foldM body ys st = Done st'.
Proof.
  intros Hswap Hperm.
  induction Hperm as [|x xs ys _ IH|x y xs|xs ys zs _ IH1 _ IH2];
    intros st st'; simpl.
  - done.
  - intros (s1 & H1 & Hrest)%bind_done. rewrite H1. simpl. by apply IH.
  - intros (s1 & H1 & (s2 & H2 & Hrest)%bind_done)%bind_done.
    destruct (Hswap _ _ _ _ _ H1 H2) as (s1' & H1' & H2').
    rewrite H1'. simpl. by rewrite H2'.
  - intros Hxs. by apply IH2, IH1.
Qed.

Lemma foldM_concat {A St} (body : St → A → outcome St) (xss : list (list A)) :
  ∀ st,
  foldM (λ s xs, foldM body xs s) xss st = foldM body (concat xss) st.
Proof.
  induction xss as [|xs xss IH]; intros st; simpl; [done|].
  rewrite foldM_app. destruct (foldM body xs st); simpl; [apply IH|done..].
Qed.

Lemma bind_Done {A} (c : outcome A) : c ≫= Done = c.
Proof. by destruct c. Qed.

(** Two bits of a plane can be set in either order. *)
Lemma set_bit_swap (k k' : Z) (s s1 s2 : list Z) (loc loc' : Z) :
  set_bit k s loc = Done s1 → set_bit k' s1 loc' = Done s2 →
  ∃ s1', set_bit k' s loc' = Done s1' ∧ set_bit k s1' loc = Done s2.
Proof.
  unfold set_bit.
  destruct (7 - k <? 0); [done|]. destruct (7 - k' <? 0); [done|].
  intros (Hloc & x & Hx & ->)%update_at_done
         (Hloc' & y & Hy & ->)%update_at_done.
  unfold len in *. rewrite length_insert in Hloc'.
  destruct (decide (Z.to_nat loc = Z.to_nat loc')) as [Heq|Hne].
  - rewrite <- Heq in *.
    rewrite list_lookup_insert_eq in Hy by (by eapply lookup_lt_Some).
    injection Hy as <-.
    eexists. split.
    + apply update_at_done. split; [done|]. exists x. by rewrite <- Heq.
    + apply update_at_done. unfold len. rewrite length_insert.
      split; [done|]. eexists. split.
      * apply list_lookup_insert_eq. by eapply lookup_lt_Some.
      * rewrite !list_insert_insert_eq. f_equal.
        rewrite <- !Z.lor_assoc. f_equal. apply Z.lor_comm.
  - rewrite list_lookup_insert_ne in Hy by done.
    eexists. split.
    + apply update_at_done. split; [done|]. by exists y.
    + apply update_at_done. unfold len. rewrite length_insert.
      split; [done|]. exists x. split.
      * by rewrite list_lookup_insert_ne by done.
      * by apply list_insert_insert_ne.
Qed.

Section Locations.
Variable hash64 : Z → Z.
Variable hashLocationsFaster : Z → Z → Z → list Z.
Variable inStream : string → UnikFile.
Variable numHashes : Z.

Abbreviation add_code' := (add_code hash64 hashLocationsFaster numHashes).
Abbreviation add_file' :=
  (add_file hash64 hashLocationsFaster inStream numHashes).
Abbreviation add_columns' :=
  (add_columns hash64 hashLocationsFaster inStream numHashes).
Abbreviation fill_plane' :=
  (fill_plane hash64 hashLocationsFaster inStream numHashes).

(** The rows that a code sets a bit in. *)
Definition locations (isHashed : bool) (numSigsM1 code : Z) : list Z :=
  let x := if isHashed then code else hash64 code in
  if bool_decide (numHashes = 1) then [Z.land x numSigsM1]
  else hashLocationsFaster x numHashes numSigsM1.

(** The rows that a file sets a bit in, one after the other. *)
Definition file_locations (numSigsM1 : Z) (info : UnikFileInfo) : list Z :=
  let file := inStream (Path info) in
  concat (locations (IsHashed file) numSigsM1 <$> Codes file).

Lemma add_code_locations (isHashed : bool) (numSigsM1 k : Z)
    (sigs : list Z) (code : Z) :
  add_code' isHashed numSigsM1 k sigs code
  = foldM (set_bit k) (locations isHashed numSigsM1 code) sigs.
Proof.
  unfold add_code, locations.
  destruct isHashed, (bool_decide (numHashes = 1)); simpl;
    by rewrite ?bind_Done.
Qed.

Lemma add_file_locations (numSigsM1 k : Z) (sigs sigs' : list Z)
    (info : UnikFileInfo) :
  add_file' numSigsM1 k sigs info = Done sigs' ↔
  OpenErr (inStream (Path info)) = None ∧
  ReadErr (inStream (Path info)) = None ∧
  foldM (set_bit k) (file_locations numSigsM1 info) sigs = Done sigs'.
Proof.
  unfold add_file.
  assert (foldM (add_code' (IsHashed (inStream (Path info))) numSigsM1 k)
                (Codes (inStream (Path info))) sigs
          = foldM (set_bit k) (file_locations numSigsM1 info) sigs) as ->.
  { unfold file_locations. rewrite <- foldM_concat.
    generalize (Codes (inStream (Path info))). intros codes.
    generalize sigs.
    induction codes as [|c codes IH]; intros s; simpl; [done|].
    rewrite add_code_locations.
    destruct (foldM (set_bit k) _ s); simpl; [apply IH|done..]. }
  destruct (OpenErr (inStream (Path info))) as [e|]; simpl.
  { split; [done|]. by intros [? _]. }
  destruct (foldM _ _ sigs) as [s1| |]; simpl.
  2,3: (split; [done|]; by intros (_ & _ & ?)).
  destruct (ReadErr (inStream (Path info))) as [e|]; simpl.
  - split; [done|]. by intros (_ & ? & _).
  - split; [by intros [= <-]|]. by intros (_ & _ & [= <-]).
Qed.

(** Two files of a column can be read in either order. *)
Lemma add_file_swap (numSigsM1 k : Z) (s s1 s2 : list Z)
    (x y : UnikFileInfo) :
  add_file' numSigsM1 k s x = Done s1 →
  add_file' numSigsM1 k s1 y = Done s2 →
  ∃ s1', add_file' numSigsM1 k s y = Done s1' ∧
         add_file' numSigsM1 k s1' x = Done s2.
Proof.
  intros (Hox & Hrx & Hx)%add_file_locations
         (Hoy & Hry & Hy)%add_file_locations.
  assert (foldM (set_bit k)
            (file_locations numSigsM1 y ++ file_locations numSigsM1 x) s
          = Done s2) as Hyx.
  { apply (foldM_perm _ (file_locations numSigsM1 x
                           ++ file_locations numSigsM1 y)).
    - intros. by eapply set_bit_swap.
    - apply Permutation_app_comm.
    - rewrite foldM_app, Hx. done. }
  rewrite foldM_app in Hyx. apply bind_done in Hyx as (s1' & Hy' & Hx').
  exists s1'. split; apply add_file_locations; done.
Qed.

Lemma add_columns_perm (numSigsM1 : Z)
    (cols cols' : list (list UnikFileInfo)) :
  Forall2 (≡ₚ) cols cols' →
  ∀ (k : Z) (sigs sigs' : list Z),
  add_columns' numSigsM1 k cols sigs = Done sigs' →
  add_columns' numSigsM1 k cols' sigs = Done sigs'.
Proof.
  induction 1 as [|infos infos' cols cols' Hperm _ IH];
    intros k sigs sigs'; simpl; [done|].
  intros (s1 & Hcol & Hrest)%bind_done.
  rewrite (foldM_perm (add_file' numSigsM1 k) infos infos'
             (λ s x y s1 s2, add_file_swap numSigsM1 k s s1 s2 x y) Hperm
             _ _ Hcol).
  simpl. by apply IH.
Qed.

Lemma fill_plane_perm (numSigs : Z) (cols cols' : list (list UnikFileInfo))
    (plane : list Z) :
  Forall2 (≡ₚ) cols cols' →
  fill_plane' numSigs cols = Done plane →
  fill_plane' numSigs cols' = Done plane.
Proof.
  intros Hperm. unfold fill_plane.
  intros (zeros & Hmake & Hfill)%bind_done. rewrite Hmake. simpl.
  by apply (add_columns_perm _ cols cols').
Qed.

(** The plane of a group of columns does not depend on the order of the
    files within a column: the builder sorts the files of each column by
    name, in place, before it reads them
    ([sorts.Quicksort(UnikFileInfosByName(infos))]), and any other order
    of the same files would set the same bits.  This holds for every
    number of hashes, and the plane is filled in one order exactly when it
    is in the other. *)
Theorem file_order_is_immaterial (numSigs : Z)
    (cols cols' : list (list UnikFileInfo)) (plane : list Z) :
  Forall2 (≡ₚ) cols cols' →
  fill_plane' numSigs cols = Done plane ↔
  fill_plane' numSigs cols' = Done plane.
Proof.
  intros Hperm.
  assert (Forall2 (≡ₚ) cols' cols) as Hperm'.
  { apply Forall2_flip. eapply Forall2_impl; [exact Hperm|].
    intros ???. by symmetry. }
  split; by apply fill_plane_perm.
Qed.

End Locations.

End FileOrder.

(* ===================================================================== *)
(** * The names, indices and sizes of a block                            *)
(* ===================================================================== *)

Module BlockProps.
Import Indexer GoFacts LoopFacts IndexerFacts FileOrder.

(** The part of a batch that [Indexer.collector] follows. *)
Definition strip (b : IndexBlock.batch8s) : batch8s :=
  {| id := IndexBlock.id b; sigs := IndexBlock.sigs b |}.

(** The four slices hold the fields of the batches [bs], in this order. *)
Definition blocks_of (bs : list IndexBlock.batch8s)
    (st : IndexBlock.collector_state) : Prop :=
  IndexBlock.sigsBlock st = IndexBlock.sigs <$> bs ∧
  IndexBlock.namesBlock st = concat (IndexBlock.names <$> bs) ∧
  IndexBlock.indicesBlock st = concat (IndexBlock.indices <$> bs) ∧
  IndexBlock.sizesBlock st = concat (IndexBlock.sizes <$> bs).

(** The collector with all fields and the collector of the planes go the
    same way: [bs] are the batches appended so far, all of them among
    [received]. *)
Definition alongside (received bs : list IndexBlock.batch8s)
    (st : IndexBlock.collector_state) (st0 : collector_state) : Prop :=
  buf st0 = strip <$> IndexBlock.buf st ∧
  next st0 = IndexBlock.next st ∧
  appended st0 = strip <$> bs ∧
  blocks_of bs st ∧
  (∀ b, b ∈ bs → b ∈ received) ∧
  (∀ i b, IndexBlock.buf st !! i = Some b → b ∈ received).

Lemma blocks_of_append (bs : list IndexBlock.batch8s)
    (st : IndexBlock.collector_state) (b : IndexBlock.batch8s)
    (buf' : gmap Z IndexBlock.batch8s) (next' : Z) :
  blocks_of bs st →
  blocks_of (bs ++ [b]) (IndexBlock.append_batch buf' next' st b).
Proof.
  intros (Hs & Hn & Hi & Hz). unfold blocks_of. simpl.
  rewrite !fmap_app, !concat_app. simpl. rewrite !app_nil_r.
  by rewrite Hs, Hn, Hi, Hz.
Qed.

Lemma drain_alongside (received : list IndexBlock.batch8s) (rounds : nat) :
  ∀ bs st st0,
  alongside received bs st st0 →
  ∃ bs', alongside received bs' (IndexBlock.drain rounds st)
                   (drain rounds st0).
Proof.
  induction rounds as [|rounds IH]; intros bs st st0 Hal; simpl.
  { by exists bs. }
  destruct Hal as (Hbuf & Hnext & Happ & Hblocks & Hin & Hwait).
  rewrite Hbuf, Hnext, lookup_fmap.
  destruct (IndexBlock.buf st !! IndexBlock.next st) as [b|] eqn:Hb; simpl.
  - apply (IH (bs ++ [b])). unfold alongside. simpl. split_and!.
    + by rewrite fmap_delete.
    + done.
    + by rewrite Happ, fmap_app.
    + by apply blocks_of_append.
    + intros b' [Hb'| ->%list_elem_of_singleton]%elem_of_app; eauto.
    + intros i b' [_ Hi]%lookup_delete_Some. eauto.
  - exists bs. unfold alongside. by rewrite <- Hbuf, <- Hnext.
Qed.

Lemma step_alongside (received bs : list IndexBlock.batch8s)
    (st : IndexBlock.collector_state) (st0 : collector_state)
    (b : IndexBlock.batch8s) :
  b ∈ received →
  alongside received bs st st0 →
  ∃ bs', alongside received bs' (IndexBlock.collector_step st b)
                   (collector_step st0 (strip b)).
Proof.
  intros Hb Hal. unfold IndexBlock.collector_step, collector_step.
  assert (next st0 = IndexBlock.next st) as Hnext by apply Hal.
  assert (size (buf st0) = size (IndexBlock.buf st)) as Hsize.
  { destruct Hal as (-> & _). apply map_size_fmap. }
  change (id (strip b)) with (IndexBlock.id b). rewrite Hnext, Hsize.
  destruct (decide (IndexBlock.id b = IndexBlock.next st)) as [Heq|Hne].
  - destruct Hal as (Hbuf & _ & Happ & Hblocks & Hin & Hwait).
    exists (bs ++ [b]). unfold alongside. simpl. split_and!.
    + done.
    + done.
    + by rewrite Happ, fmap_app.
    + by apply blocks_of_append.
    + intros b' [Hb'| ->%list_elem_of_singleton]%elem_of_app; eauto.
    + done.
  - destruct (drain_alongside received (size (IndexBlock.buf st)) bs st st0
                Hal)
      as (bs' & Hbuf & Hnext' & Happ & Hblocks & Hin & Hwait).
    exists bs'. unfold alongside. simpl. split_and!.
    + by rewrite Hbuf, fmap_insert.
    + done.
    + done.
    + done.
    + done.
    + intros i b' [[_ <-]|[_ Hi]]%lookup_insert_Some; eauto.
Qed.

Lemma loop_alongside (received arrivals : list IndexBlock.batch8s) :
  (∀ b, b ∈ arrivals → b ∈ received) →
  ∀ bs st st0,
  alongside received bs st st0 →
  ∃ bs', alongside received bs'
           (fold_left IndexBlock.collector_step arrivals st)
           (fold_left collector_step (strip <$> arrivals) st0).
Proof.
  induction arrivals as [|b arrivals IH]; intros Hsub bs st st0 Hal; simpl.
  { by exists bs. }
  destruct (step_alongside received bs st st0 b) as (bs1 & Hal1);
    [apply Hsub; constructor|done|].
  apply (IH (λ b' Hb', Hsub b' (list_elem_of_further _ _ _ Hb')) bs1).
  exact Hal1.
Qed.

Lemma waiting_stripped (mm : gmap Z IndexBlock.batch8s) (keys : list Z) :
  omap (λ i, (strip <$> mm) !! i) keys
  = strip <$> omap (λ i, mm !! i) keys.
Proof.
  induction keys as [|i keys IH]; csimpl; [done|].
  rewrite lookup_fmap. destruct (mm !! i); csimpl; by rewrite IH.
Qed.

Lemma blocks_of_appends (ws : list IndexBlock.batch8s) :
  ∀ bs st,
  blocks_of bs st →
  blocks_of (bs ++ ws)
    (fold_left (λ st' b, IndexBlock.append_batch (IndexBlock.buf st')
                           (IndexBlock.next st') st' b) ws st).
Proof.
  induction ws as [|w ws IH]; intros bs st Hblocks; simpl.
  - by rewrite app_nil_r.
  - change (w :: ws) with ([w] ++ ws). rewrite (assoc_L (++) bs [w] ws).
    apply IH. by apply blocks_of_append.
Qed.

(** The collector with all fields appends the batches that the collector
    of the planes appends, in the same order. *)
Lemma collector_alongside (arrivals : list IndexBlock.batch8s) :
  ∃ bs,
    blocks_of bs (IndexBlock.collector arrivals) ∧
    strip <$> bs = collector (strip <$> arrivals) ∧
    ∀ b, b ∈ bs → b ∈ arrivals.
Proof.
  unfold IndexBlock.collector, collector.
  destruct (loop_alongside arrivals arrivals (λ _ Hb, Hb) []
              {| IndexBlock.buf := ∅; IndexBlock.next := 1;
                 IndexBlock.sigsBlock := []; IndexBlock.namesBlock := [];
                 IndexBlock.indicesBlock := [];
                 IndexBlock.sizesBlock := [] |}
              {| buf := ∅; next := 1; appended := [] |})
    as (bs & Hbuf & Hnext & Happ & Hblocks & Hin & Hwait).
  { unfold alongside, blocks_of. simpl. split_and!; try done.
    intros b Hb. by apply elem_of_nil in Hb. }
  set (st := fold_left IndexBlock.collector_step _ _) in *.
  set (st0 := fold_left collector_step _ _) in *.
  unfold IndexBlock.collector_finish, collector_finish.
  assert (size (buf st0) = size (IndexBlock.buf st)) as ->.
  { rewrite Hbuf. apply map_size_fmap. }
  destruct (decide (0 < size (IndexBlock.buf st))%nat) as [Hsz|Hsz].
  - set (keys := merge_sort Z.le (map_to_list (IndexBlock.buf st)).*1).
    exists (bs ++ omap (λ i, IndexBlock.buf st !! i) keys). split_and!.
    + by apply blocks_of_appends.
    + rewrite fmap_app, Happ, Hbuf. f_equal.
      assert ((map_to_list (strip <$> IndexBlock.buf st)).*1
              = (map_to_list (IndexBlock.buf st)).*1) as ->.
      { rewrite map_to_list_fmap, <- list_fmap_compose.
        apply list_fmap_ext. by intros ? []. }
      symmetry. apply waiting_stripped.
    + intros b [Hb|Hb]%elem_of_app; [eauto|].
      apply list_elem_of_omap in Hb as (i & _ & Hi). eauto.
  - exists bs. done.
Qed.

(** ** The blocks of a filled block *)

Lemma concat_fmap_fmap {A B C} (f : B → C) (c : A → list B) (xs : list A) :
  concat ((λ x, f <$> c x) <$> xs) = f <$> concat (c <$> xs).
Proof.
  induction xs as [|x xs IH]; csimpl; [done|]. by rewrite fmap_app, IH.
Qed.

Lemma Forall2_fmap_eq {A B C} (g : B → C) (h : A → C) (xs : list A)
    (ys : list B) :
  Forall2 (λ x y, g y = h x) xs ys → g <$> ys = h <$> xs.
Proof. induction 1 as [|x y xs ys Hxy _ IH]; csimpl; congruence. Qed.

(** The groups of 8 columns of the builders, one after the other, are the
    columns of the block. *)
Lemma concat_chunks (batch : list (list UnikFileInfo)) :
  concat ((λ i, columns_from batch (8 * i)) <$> builders batch) = batch.
Proof.
  assert (∀ n, concat ((λ i, columns_from batch (8 * i)) <$> seq 0 n)
               = take (8 * n) batch) as Hn.
  { induction n as [|n IH]; [done|].
    rewrite seq_S, fmap_app, concat_app, IH. simpl. rewrite app_nil_r.
    unfold columns_from. rewrite take_take_drop. f_equal. lia. }
  unfold builders. rewrite Hn. apply take_ge. unfold len.
  pose proof (Z.div_mod (Z.of_nat (length batch) + 7) 8 ltac:(lia)) as Hdiv.
  pose proof (Z.mod_pos_bound (Z.of_nat (length batch) + 7) 8 ltac:(lia)).
  lia.
Qed.

(** [uint64] sums do not depend on the order of the summands. *)
Lemma totalKmers_perm (infos infos' : list UnikFileInfo) :
  infos ≡ₚ infos' → totalKmers infos = totalKmers infos'.
Proof.
  intros Hperm. unfold totalKmers. generalize 0.
  induction Hperm as [|x xs ys _ IH|x y xs|xs ys zs _ IH1 _ IH2];
    intros total; simpl.
  - done.
  - apply IH.
  - f_equal. unfold uint64_add, wrap_uint64.
    rewrite !Zplus_mod_idemp_l. f_equal. lia.
  - by rewrite IH1.
Qed.

Lemma totalKmers_range (infos : list UnikFileInfo) :
  0 ≤ totalKmers infos < 2 ^ 64.
Proof.
  unfold totalKmers.
  assert (∀ total, 0 ≤ total < 2 ^ 64 →
            0 ≤ fold_left (λ total info, uint64_add total (Kmers info))
                          infos total < 2 ^ 64) as Hfold.
  { induction infos as [|info infos IH]; intros total Htotal; simpl;
      [done|].
    apply IH. unfold uint64_add, wrap_uint64. apply Z.mod_pos_bound. lia. }
  apply Hfold. lia.
Qed.

Section Blocks.
Context `{Sorts}.
Variable hash64 : Z → Z.
Variable hashLocationsFaster : Z → Z → Z → list Z.
Variable inStream : string → UnikFile.
Variable numHashes : Z.
Variable lessByName : UnikFileInfo → UnikFileInfo → bool.

Abbreviation builder_all :=
  (IndexBlock.builder hash64 hashLocationsFaster inStream numHashes
     lessByName).
Abbreviation fill_block_all :=
  (IndexBlock.fill_block hash64 hashLocationsFaster inStream numHashes
     lessByName).
Abbreviation builder' :=
  (builder hash64 hashLocationsFaster inStream numHashes).
Abbreviation fill_block' :=
  (fill_block hash64 hashLocationsFaster inStream numHashes).

(** The files of a column in the order the builder reads them. *)
Definition by_name (infos : list UnikFileInfo) : list UnikFileInfo :=
  Quicksort lessByName infos.

Lemma builder_all_done (numSigs : Z) (batch : list (list UnikFileInfo))
    (i : nat) (b : IndexBlock.batch8s) :
  (∀ infos, by_name infos ≡ₚ infos) →
  builder_all numSigs batch i = Done b →
  builder' numSigs batch i = Done (strip b) ∧
  IndexBlock.id b = Z.of_nat i + 1 ∧
  IndexBlock.names b
  = (λ infos, Name <$> by_name infos) <$> columns_from batch (8 * i) ∧
  IndexBlock.indices b
  = (λ infos, Index <$> by_name infos) <$> columns_from batch (8 * i) ∧
  IndexBlock.sizes b = totalKmers <$> columns_from batch (8 * i).
Proof.
  intros Hsort. unfold IndexBlock.builder, IndexBlock.sorted_columns.
  intros (plane & Hplane & [= <-])%bind_done.
  assert (Forall2 (≡ₚ) (Quicksort lessByName <$> columns_from batch (8 * i))
                  (columns_from batch (8 * i))) as Hcols.
  { apply Forall2_fmap_l, Forall_Forall2_diag, Forall_forall.
    intros infos _. apply Hsort. }
  apply (fill_plane_perm _ _ _ _ _ _ _ _ Hcols) in Hplane.
  cbn [IndexBlock.id IndexBlock.names IndexBlock.indices IndexBlock.sizes].
  split_and!.
  - unfold builder, strip. cbn [IndexBlock.id IndexBlock.sigs].
    by rewrite Hplane.
  - done.
  - by rewrite <- list_fmap_compose.
  - by rewrite <- list_fmap_compose.
  - rewrite <- list_fmap_compose. apply list_fmap_ext.
    intros j infos _. apply totalKmers_perm, Hsort.
Qed.

(** Whatever the order in which the builders send, the collector appends
    their batches in the order of the builders. *)
Lemma batches_in_builder_order (numSigs : Z)
    (batch : list (list UnikFileInfo)) (schedule : list nat)
    (st : IndexBlock.collector_state) :
  (∀ infos, by_name infos ≡ₚ infos) →
  schedule ≡ₚ builders batch →
  len batch < 2 ^ 63 →
  fill_block_all numSigs batch schedule = Done st →
  ∃ bs,
    blocks_of bs st ∧
    Forall2 (λ i b, builder_all numSigs batch i = Done b)
            (builders batch) bs ∧
    fill_block' numSigs batch schedule = Done (IndexBlock.sigsBlock st).
Proof.
  intros Hsort Hsched Hlen. unfold IndexBlock.fill_block.
  intros (arrivals & Hbuilt & [= <-])%bind_done.
  apply foldM_collect in Hbuilt as (bs & Hbs & ->). rewrite app_nil_l.
  assert (Forall2 (λ i b0, builder' numSigs batch i = Done b0)
            schedule (strip <$> bs)) as Hbs0.
  { apply Forall2_fmap_r. eapply Forall2_impl; [exact Hbs|].
    intros i b Hb. by apply builder_all_done in Hb as [Hb _]. }
  assert (id <$> (strip <$> bs)
          = (λ i : nat, Z.of_nat i + 1) <$> schedule) as Hids.
  { clear Hsched Hbs0. rewrite <- list_fmap_compose.
    induction Hbs as [|i b sch bs Hb _ IH]; [done|].
    apply builder_all_done in Hb as (_ & Hb & _); [|done].
    csimpl. by rewrite Hb, IH. }
  assert (NoDup (id <$> (strip <$> bs))) as Hnd.
  { rewrite Hids. apply NoDup_fmap_2; [intros i j ?; lia|].
    rewrite Hsched. apply NoDup_seq. }
  assert (Forall builder_id (strip <$> bs)) as Hrange.
  { apply Forall_forall. intros b Hb.
    assert (id b ∈ id <$> (strip <$> bs)) as Hin
      by (by apply list_elem_of_fmap_2).
    rewrite Hids, Hsched in Hin.
    apply list_elem_of_fmap in Hin as (i & Hi & Hin).
    unfold builders in Hin. apply elem_of_seq in Hin.
    unfold builder_id. rewrite Hi.
    assert ((len batch + 7) / 8 < 2 ^ 61)
      by (apply Z.div_lt_upper_bound; lia).
    lia. }
  destruct (collector_sorted (strip <$> bs) Hnd Hrange) as [Hperm Hsorted].
  destruct (collector_alongside bs) as (out & Hblocks & Hstrip & Hsub).
  assert (id <$> (strip <$> out)
          = (λ i : nat, Z.of_nat i + 1) <$> builders batch) as Hout.
  { rewrite Hstrip. apply (StronglySorted_unique_strong Z.lt).
    - intros; lia.
    - done.
    - unfold builders. rewrite builder_ids. apply StronglySorted_seqZ.
    - by rewrite Hperm, Hids, Hsched. }
  exists out. split_and!.
  - done.
  - apply Forall2_same_length_lookup_2.
    + apply (f_equal length) in Hout. by rewrite !length_fmap in Hout.
    + intros j i b Hi Hb.
      assert (IndexBlock.id b = Z.of_nat i + 1) as Hidb.
      { apply (f_equal (λ l, l !! j)) in Hout.
        rewrite !list_lookup_fmap, Hi, Hb in Hout. by injection Hout. }
      assert (b ∈ bs) as Hin by (by eapply Hsub, list_elem_of_lookup_2).
      apply list_elem_of_lookup in Hin as (j' & Hj').
      destruct (Forall2_lookup_r _ _ _ _ _ Hbs Hj') as (i' & _ & Hb').
      pose proof Hb' as (_ & Hidb' & _)%builder_all_done; [|done].
      assert (i' = i) as -> by lia. done.
  - unfold fill_block.
    rewrite (foldM_collect_done _ _ _ Hbs0 []). simpl. f_equal.
    unfold sigsBlock. rewrite <- Hstrip, <- list_fmap_compose.
    symmetry. apply Hblocks.
Qed.

(** The names, the indices and the sizes in the header of a block follow
    its columns, whatever the order in which the concurrent builders
    deliver: entry c of [namesBlock] and of [indicesBlock] holds the names
    and the indices of the files of column c, sorted by name, and entry c
    of [sizesBlock] the sum of their k-mers (as a uint64).  The planes are
    those of the columns read in the order of the bucket. *)
Theorem block_header_follows_columns (numSigs : Z)
    (batch : list (list UnikFileInfo)) (schedule : list nat)
    (st : IndexBlock.collector_state) :
  (∀ infos, by_name infos ≡ₚ infos) →
  schedule ≡ₚ builders batch →
  len batch < 2 ^ 63 →
  fill_block_all numSigs batch schedule = Done st →
  IndexBlock.namesBlock st = (λ infos, Name <$> by_name infos) <$> batch ∧
  IndexBlock.indicesBlock st = (λ infos, Index <$> by_name infos) <$> batch ∧
  IndexBlock.sizesBlock st = totalKmers <$> batch ∧
  fill_block' numSigs batch schedule = Done (IndexBlock.sigsBlock st).
Proof.
  intros Hsort Hsched Hlen Hrun.
  destruct (batches_in_builder_order numSigs batch schedule st
              Hsort Hsched Hlen Hrun)
    as (bs & (_ & Hnames & Hindices & Hsizes) & Hbs & Hplanes).
  split_and!; [| | |done].
  - rewrite Hnames.
    rewrite (Forall2_fmap_eq IndexBlock.names
               (λ i, (λ infos, Name <$> by_name infos)
                       <$> columns_from batch (8 * i)) (builders batch) bs).
    + by rewrite concat_fmap_fmap, concat_chunks.
    + eapply Forall2_impl; [exact Hbs|]. intros i b Hb.
      by apply builder_all_done in Hb as (_ & _ & Hb & _).
  - rewrite Hindices.
    rewrite (Forall2_fmap_eq IndexBlock.indices
               (λ i, (λ infos, Index <$> by_name infos)
                       <$> columns_from batch (8 * i)) (builders batch) bs).
    + by rewrite concat_fmap_fmap, concat_chunks.
    + eapply Forall2_impl; [exact Hbs|]. intros i b Hb.
      by apply builder_all_done in Hb as (_ & _ & _ & Hb & _).
  - rewrite Hsizes.
    rewrite (Forall2_fmap_eq IndexBlock.sizes
               (λ i, totalKmers <$> columns_from batch (8 * i))
               (builders batch) bs).
    + by rewrite concat_fmap_fmap, concat_chunks.
    + eapply Forall2_impl; [exact Hbs|]. intros i b Hb.
      by apply builder_all_done in Hb as (_ & _ & _ & _ & Hb).
Qed.

End Blocks.

(** The number of elements that the filter of a block is sized for is the
    largest size of its columns: no column has more k-mers (summed as a
    uint64) than [maxElements], and a column has as many unless the block
    has no column. *)
Theorem filter_sized_for_largest_column (batch : list (list UnikFileInfo)) :
  Forall (λ infos, totalKmers infos ≤ IndexBlock.maxElements batch) batch ∧
  (batch ≠ [] → IndexBlock.maxElements batch ∈ totalKmers <$> batch) ∧
  (batch = [] → IndexBlock.maxElements batch = 0).
Proof.
  unfold IndexBlock.maxElements.
  set (step := λ (m : Z) (infos : list UnikFileInfo),
                 if m <? totalKmers infos then totalKmers infos else m).
  assert (∀ m, m ≤ fold_left step batch m ∧
               Forall (λ infos, totalKmers infos ≤ fold_left step batch m)
                      batch ∧
               (fold_left step batch m = m ∨
                fold_left step batch m ∈ totalKmers <$> batch)) as Hfold.
  { induction batch as [|infos batch IH]; intros m; simpl.
    { split_and!; [lia|constructor|by left]. }
    destruct (IH (step m infos)) as (Hle & Hall & Hmax).
    assert (m ≤ step m infos ∧ totalKmers infos ≤ step m infos ∧
            (step m infos = m ∨ step m infos = totalKmers infos))
      as (Hm & Hinfos & Hstep).
    { unfold step. destruct (Z.ltb_spec m (totalKmers infos)); lia. }
    split_and!.
    - lia.
    - constructor; [lia|done].
    - destruct Hmax as [Hmax|Hmax].
      + rewrite Hmax. destruct Hstep as [->| ->]; [by left|].
        right. constructor.
      + right. by constructor. }
  destruct (Hfold 0) as (_ & Hall & Hmax). split_and!.
  - done.
  - intros Hne. destruct Hmax as [Hmax|Hmax]; [|done].
    destruct batch as [|infos batch]; [done|].
    apply Forall_cons in Hall as [Hinfos _].
    pose proof (totalKmers_range infos).
    assert (totalKmers infos = fold_left step (infos :: batch) 0) as <-
      by lia.
    constructor.
  - by intros ->.
Qed.

Section BlockExamples.
Import Demo.
#[local] Existing Instance demoSorts.

Lemma file_order_is_immaterial_witness :
  fill_plane demoHash64 noLocations demoInStream 1 8
             [[fragment "plain" 1 1; fragment "hashed" 0 2]]
  = Done [0; 0; 0; 0; 128; 128; 0; 128] ↔
  fill_plane demoHash64 noLocations demoInStream 1 8
             [[fragment "hashed" 0 2; fragment "plain" 1 1]]
  = Done [0; 0; 0; 0; 128; 128; 0; 128].
Proof.
  apply (file_order_is_immaterial demoHash64 noLocations demoInStream 1 8).
  constructor; [apply perm_swap|constructor].
Defined.

Lemma block_header_follows_columns_witness :
  ∃ st,
    IndexBlock.fill_block demoHash64 noLocations demoInStream 1
      demoLessByName 8 nine_buckets [1; 0]%nat = Done st ∧
    IndexBlock.namesBlock st
    = ["hashed"; "plain"] :: replicate 7 ["hashed"] ++ [["plain"]] ∧
    IndexBlock.indicesBlock st = [0; 1] :: replicate 7 [0] ++ [[0]] ∧
    IndexBlock.sizesBlock st = 3 :: replicate 7 2 ++ [1].
Proof.
  eexists. split; [vm_compute; reflexivity|].
  destruct (block_header_follows_columns demoHash64 noLocations demoInStream
              1 demoLessByName 8 nine_buckets [1; 0]%nat
              (IndexBlock.collector
                 [ {| IndexBlock.id := 2;
                      IndexBlock.sigs := [0; 0; 0; 0; 0; 0; 0; 128];
                      IndexBlock.names := [["plain"]];
                      IndexBlock.indices := [[0]];
                      IndexBlock.sizes := [1] |};
                   {| IndexBlock.id := 1;
                      IndexBlock.sigs := [0; 0; 0; 0; 255; 255; 0; 128];
                      IndexBlock.names :=
                        ["hashed"; "plain"] :: replicate 7 ["hashed"];
                      IndexBlock.indices := [0; 1] :: replicate 7 [0];
                      IndexBlock.sizes := 3 :: replicate 7 2 |} ]))
    as (Hnames & Hindices & Hsizes & _).
  - intros infos. apply insertionSort_perm.
  - vm_compute. apply perm_swap.
  - vm_compute. reflexivity.
  - vm_compute. reflexivity.
  - split; [exact Hnames|]. split; [exact Hindices|exact Hsizes].
Defined.

End BlockExamples.

End BlockProps.

(* ===================================================================== *)
(** * The names of the input files                                       *)
(* ===================================================================== *)

Module InfoProps.
Import Indexer IndexInfos GoFacts LoopFacts.

Lemma totalKmers_snoc (infos : list UnikFileInfo) (info : UnikFileInfo) :
  totalKmers (infos ++ [info]) = uint64_add (totalKmers infos) (Kmers info).
Proof. unfold totalKmers. by rewrite fold_left_app. Qed.

Section NameFacts.
Context `{Strconv}.
Variable Sum64String : string → Z.

Abbreviation nameHash' := (nameHash Sum64String).
Abbreviation check_files' := (check_files Sum64String).

(** What holds when the infos [seen] were received. *)
Definition checked (seen : list UnikFileInfo) (st : infos_state) : Prop :=
  fileInfos0 st = seen ∧
  n st = totalKmers seen ∧
  (∀ key, key ∈ namesMap st ↔ ∃ f, f ∈ seen ∧ nameHash' f = key) ∧
  (∀ name, name ∈ namesMap0 st → ∃ f, f ∈ seen ∧ Name f = name) ∧
  (∀ f, f ∈ seen →
        Name f ∈ namesMap0 st ∨
        ∃ f', f' ∈ seen ∧ nameHash' f' = nameHash' f ∧ Name f' ≠ Name f).

Lemma first_checked (info : UnikFileInfo) :
  checked [info] (first_info Sum64String info).
Proof.
  unfold checked, first_info. simpl. split_and!; [done|done| | |].
  - intros key. rewrite elem_of_singleton. split.
    + intros ->. exists info. split; [constructor|done].
    + by intros (f & ->%list_elem_of_singleton & <-).
  - intros name ->%elem_of_singleton. exists info. split; [constructor|done].
  - intros f ->%list_elem_of_singleton. left. by apply elem_of_singleton.
Qed.

Lemma receive_checked (seen : list UnikFileInfo) (st : infos_state)
    (info : UnikFileInfo) :
  checked seen st →
  checked (seen ++ [info]) (receive_info Sum64String st info).
Proof.
  intros (Hinfos & Hn & Hkeys & Hnames & Hkept). unfold receive_info.
  assert (∀ f, f ∈ seen → f ∈ seen ++ [info]) as Hseen
    by (intros f Hf; apply elem_of_app; by left).
  assert (info ∈ seen ++ [info]) as Hinfo
    by (apply elem_of_app; right; constructor).
  assert (∀ names : gset string,
            (∀ name, name ∈ namesMap0 st → name ∈ names) →
            ∀ f, f ∈ seen →
                 Name f ∈ names ∨
                 ∃ f', f' ∈ seen ++ [info] ∧ nameHash' f' = nameHash' f ∧
                       Name f' ≠ Name f) as Hold.
  { intros names Hsub f Hf.
    destruct (Hkept f Hf) as [Hin|(f' & Hf' & Hkey & Hne)]; [by left; eauto|].
    right. exists f'. eauto. }
  destruct (decide (nameHash' info ∈ namesMap st)) as [Hdup|Hnew];
    unfold checked; simpl; split_and!.
  - by rewrite Hinfos.
  - by rewrite totalKmers_snoc, Hn.
  - intros key. rewrite Hkeys. split.
    + intros (f & Hf & Hkey). eauto.
    + intros (f & [Hf| ->%list_elem_of_singleton]%elem_of_app & Hkey);
        [eauto|].
      apply Hkeys. by rewrite <- Hkey.
  - intros name (f & Hf & Hname)%Hnames. eauto.
  - intros f [Hf| ->%list_elem_of_singleton]%elem_of_app.
    { by apply (Hold (namesMap0 st)). }
    apply Hkeys in Hdup as (f0 & Hf0 & Hkey0).
    destruct (decide (Name f0 = Name info)) as [Heq|Hne].
    + destruct (Hkept f0 Hf0) as [Hin|(f' & Hf' & Hkey & Hne)].
      * left. by rewrite <- Heq.
      * right. exists f'. split_and!; [eauto|congruence|congruence].
    + right. exists f0. eauto.
  - by rewrite Hinfos.
  - by rewrite totalKmers_snoc, Hn.
  - intros key. rewrite elem_of_union, elem_of_singleton, Hkeys. split.
    + intros [->|(f & Hf & Hkey)]; eauto.
    + intros (f & [Hf| ->%list_elem_of_singleton]%elem_of_app & Hkey);
        [right; eauto|by left].
  - intros name Hname.
    assert (name = Name info ∨ name ∈ namesMap0 st) as [->|Hin].
    { destruct (decide (Name info ∈ namesMap0 st)); [by right|].
      apply elem_of_union in Hname as [->%elem_of_singleton|?]; eauto. }
    + eauto.
    + apply Hnames in Hin as (f & Hf & Hf'). eauto.
  - assert (∀ name, name ∈ namesMap0 st →
              name ∈ (if decide (Name info ∈ namesMap0 st)
                      then namesMap0 st
                      else {[ Name info ]} ∪ namesMap0 st)) as Hsub.
    { intros name Hname. destruct (decide (Name info ∈ namesMap0 st));
        [done|]. apply elem_of_union. by right. }
    intros f [Hf| ->%list_elem_of_singleton]%elem_of_app.
    { by apply Hold. }
    left. destruct (decide (Name info ∈ namesMap0 st)); [done|].
    apply elem_of_union. left. by apply elem_of_singleton.
Qed.

Lemma check_files_checked (info : UnikFileInfo)
    (arrivals : list UnikFileInfo) :
  checked (info :: arrivals) (check_files' info arrivals).
Proof.
  unfold check_files.
  assert (∀ seen st, checked seen st →
            checked (seen ++ arrivals)
                    (fold_left (receive_info Sum64String) arrivals st))
    as Hloop.
  { induction arrivals as [|f arrivals IH]; intros seen st Hst; simpl.
    - by rewrite app_nil_r.
    - change (f :: arrivals) with ([f] ++ arrivals).
      rewrite (assoc_L (++) seen [f] arrivals).
      apply IH. by apply receive_checked. }
  apply (Hloop [info]), first_checked.
Qed.

Lemma cached_files_names (cache : list UnikFileInfo) :
  fileInfos0 (cached_files cache) = cache ∧
  n (cached_files cache) = totalKmers cache ∧
  ∀ name, name ∈ namesMap0 (cached_files cache) ↔
          ∃ f, f ∈ cache ∧ Name f = name.
Proof.
  unfold cached_files.
  set (step := λ (st : infos_state) (info : UnikFileInfo), _).
  assert (∀ rest seen st,
            fileInfos0 st = cache → n st = totalKmers seen →
            (∀ name, name ∈ namesMap0 st ↔ ∃ f, f ∈ seen ∧ Name f = name) →
            let st' := fold_left step rest st in
            fileInfos0 st' = cache ∧ n st' = totalKmers (seen ++ rest) ∧
            ∀ name, name ∈ namesMap0 st' ↔
                    ∃ f, f ∈ seen ++ rest ∧ Name f = name) as Hloop.
  { induction rest as [|f rest IH]; intros seen st Hinfos Hn Hnames; simpl.
    - by rewrite app_nil_r.
    - change (f :: rest) with ([f] ++ rest).
      rewrite (assoc_L (++) seen [f] rest). apply IH; simpl.
      + done.
      + by rewrite totalKmers_snoc, Hn.
      + intros name. rewrite elem_of_union, elem_of_singleton, Hnames.
        split.
        * intros [->|(f' & Hf' & Hname)].
          -- exists f. split; [|done]. apply elem_of_app. right. constructor.
          -- exists f'. split; [|done]. apply elem_of_app. by left.
        * intros (f' & [Hf'| ->%list_elem_of_singleton]%elem_of_app & Hname);
            [right; eauto|by left]. }
  apply (Hloop cache []); simpl; [done|done|].
  intros name. split; [by intros ?%elem_of_empty|].
  intros (f & Hf & _). by apply elem_of_nil in Hf.
Qed.

(** The checking of the input files keeps every file, in the order of
    arrival after the first, and counts the k-mers of all of them, whatever
    the order in which the concurrent readers deliver.  The set of names
    that the name mapping file is written from holds names of input files
    only, and the name of a file is missing from it only if another file
    with another name has the same 64-bit key (the hash of name, -id and
    index): without such a collision the names and the number of k-mers
    are those that a run from the cached infos of the same files gives. *)
Theorem names_kept_unless_keys_collide (info : UnikFileInfo)
    (arrivals : list UnikFileInfo) :
  let st := check_files' info arrivals in
  let files := info :: arrivals in
  fileInfos0 st = files ∧
  n st = totalKmers files ∧
  (∀ arrivals', arrivals ≡ₚ arrivals' →
                n (check_files' info arrivals') = n st) ∧
  (∀ name, name ∈ namesMap0 st → ∃ f, f ∈ files ∧ Name f = name) ∧
  (∀ f, f ∈ files →
        Name f ∈ namesMap0 st ∨
        ∃ f', f' ∈ files ∧ nameHash' f' = nameHash' f ∧ Name f' ≠ Name f) ∧
  ((∀ f f', f ∈ files → f' ∈ files →
            nameHash' f = nameHash' f' → Name f = Name f') →
   namesMap0 st = namesMap0 (cached_files files) ∧
   n st = n (cached_files files)).
Proof.
  intros st files.
  destruct (check_files_checked info arrivals)
    as (Hinfos & Hn & _ & Hnames & Hkept).
  fold st files in Hinfos, Hn, Hnames, Hkept.
  destruct (cached_files_names files) as (_ & Hcn & Hcnames).
  split_and!; [done|done| |done|done|].
  - intros arrivals' Hperm.
    destruct (check_files_checked info arrivals') as (_ & -> & _).
    rewrite Hn. apply BlockProps.totalKmers_perm. by constructor.
  - intros Hinj. split; [|by rewrite Hn, Hcn].
    apply set_eq. intros name. rewrite Hcnames. split; [apply Hnames|].
    intros (f & Hf & <-).
    destruct (Hkept f Hf) as [Hin|(f' & Hf' & Hkey & Hne)]; [done|].
    destruct Hne. by apply Hinj.
Qed.

End NameFacts.

End InfoProps.

(* ===================================================================== *)
(** * The queries of the input files                                     *)
(* ===================================================================== *)

Module InputProps.
Import Searcher SearchInput GoFacts LoopFacts SearcherFacts.

Section Files.
Context `{Strconv}.
Variable opt : Options.
Variable fastxReader : string → FastxFile.
Variable isStdin : string → bool.
Variable Clean : string → string.

Abbreviation startup' := (startup opt isStdin Clean).
Abbreviation searchFiles' := (searchFiles opt fastxReader isStdin Clean).

(** The records of the files, in the order of reading. *)
Definition records_of (files : list string) : list (string * string) :=
  concat ((λ file, Records (fastxReader file)) <$> files).

(** Everything read so far was sent, numbered from 0 in this order. *)
Definition sent_all (records : list (string * string)) (st : sending)
  : Prop :=
  sent st = send records ∧ id st = wrap_uint64 (len records).

Lemma send_snoc (records : list (string * string)) (r : string * string) :
  send (records ++ [r])
  = send records ++ [ {| Idx := wrap_uint64 (len records); ID := r.1;
                         Seq := r.2 |} ].
Proof.
  unfold send. rewrite imap_app. simpl. unfold len.
  by rewrite Nat.add_0_r.
Qed.

Lemma send_records (rs : list (string * string)) :
  ∀ records st,
  sent_all records st →
  sent_all (records ++ rs) (fold_left send_record rs st).
Proof.
  induction rs as [|r rs IH]; intros records st [Hsent Hid]; simpl.
  - by rewrite app_nil_r.
  - change (r :: rs) with ([r] ++ rs).
    rewrite (assoc_L (++) records [r] rs). apply IH.
    unfold sent_all, send_record. simpl. split.
    + by rewrite send_snoc, Hsent, Hid.
    + rewrite Hid. unfold uint64_add, wrap_uint64, len.
      rewrite length_app. simpl. rewrite Zplus_mod_idemp_l.
      f_equal. lia.
Qed.

Lemma send_files_all (files : list string) :
  Forall (λ file, OpenErr (fastxReader file) = None) files →
  ∀ records st,
  sent_all records st →
  ∃ st', send_files fastxReader files st = (st', Done ()) ∧
         sent_all (records ++ records_of files) st'.
Proof.
  induction 1 as [|file files Hopen _ IH]; intros records st Hst; simpl.
  - exists st. by rewrite app_nil_r.
  - unfold send_file. rewrite Hopen.
    unfold records_of. csimpl. rewrite (assoc_L (++)).
    destruct (IH (records ++ Records (fastxReader file))
                 (fold_left send_record (Records (fastxReader file)) st))
      as (st' & Hrun & Hsent); [by apply send_records|].
    exists st'. split; [|done].
    by destruct (ReadErr (fastxReader file)).
Qed.

(** Nothing fails between the tests of the flags and the end of the run,
    apart from the tests of the databases and the reading of the queries:
    the command gets the input files [files], none of them the output
    file. *)
Definition undisturbed (s : Startup) (files : list string) : Prop :=
  dbDirErr s = None ∧ nameMapErr s = None ∧ fileList s = Done files ∧
  Forall (λ file, isStdin file = true ∨ Clean file ≠ Clean (outFile s))
         files ∧
  engineErr s = None ∧ outStreamErr s = None ∧ closeErr s = None.

Lemma startup_undisturbed (s : Startup) (files : list string) :
  undisturbed s files →
  startup' s = (_ ← check_flags opt; _ ← check_dbs opt (DBs s); Done files).
Proof.
  intros (Hdir & Hmap & Hfiles & Hout & Hengine & Hstream & _).
  assert (check_out_file isStdin Clean s files = Done ()) as Hcheck.
  { unfold check_out_file. clear Hfiles.
    induction Hout as [|file files [Hstdin|Hfile] _ IH]; simpl; [done| |].
    - by rewrite Hstdin.
    - rewrite bool_decide_eq_false_2 by done. by rewrite andb_false_r. }
  unfold startup. rewrite Hdir, Hmap, Hfiles, Hengine, Hstream.
  destruct (check_flags opt) as [[]| |]; simpl; [|done..].
  rewrite Hcheck. simpl.
  by destruct (check_dbs opt (DBs s)) as [[]| |].
Qed.

(** When nothing else fails and every input file opens, the command is the
    command on the records of the files taken one after the other: the
    queries are numbered from 0 across the files, in the order of reading.
    An error of [Read] that is not the end of the file is not reported: the
    records of the file read before it are searched, the rest of the file
    is not, and the run goes on with the next file. *)
Theorem read_errors_are_not_reported (s : Startup) (files : list string)
    (engine : list Query → list QueryResult) :
  undisturbed s files →
  Forall (λ file, OpenErr (fastxReader file) = None) files →
  searchFiles' s engine = searchCmd opt (DBs s) (records_of files) engine.
Proof.
  intros Hs Hopen. unfold searchFiles, searchCmd.
  rewrite (startup_undisturbed s files Hs).
  destruct (check_flags opt) as [[]| |]; simpl; [|done..].
  destruct (check_dbs opt (DBs s)) as [[]| |]; simpl; [|done..].
  destruct (send_files_all files Hopen [] {| id := 0; sent := [] |})
    as (st' & -> & Hsent & _); [done|].
  destruct Hs as (_ & _ & _ & _ & _ & _ & ->). rewrite Hsent. f_equal.
  by destruct (write_all opt _).
Qed.

(** An input file that is there but cannot be opened ends the run with a
    fatal error that names it, but only when its turn comes: the records
    of the files before it were sent to the search engine by then, and no
    record of a later file is.  (A file that does not exist is refused
    earlier, when the list of the input files is made.) *)
Theorem unopened_file_ends_the_run (s : Startup)
    (before after : list string) (file err : string)
    (engine : list Query → list QueryResult) :
  startup' s = Done (before ++ file :: after) →
  Forall (λ file, OpenErr (fastxReader file) = None) before →
  OpenErr (fastxReader file) = Some err →
  searchFiles' s engine
  = {| queries := send (records_of before);
       result := Fatal (file +:+ ": " +:+ err) |}.
Proof.
  intros Hstart Hopen Herr. unfold searchFiles. rewrite Hstart.
  assert (∀ records st,
            sent_all records st →
            ∃ st', send_files fastxReader (before ++ file :: after) st
                   = (st', Fatal (file +:+ ": " +:+ err)) ∧
                   sent_all (records ++ records_of before) st') as Hstop.
  { clear Hstart.
    induction Hopen as [|file0 before Hopen0 _ IH]; intros records st Hst.
    - simpl. unfold send_file. rewrite Herr. simpl.
      exists st. by rewrite app_nil_r.
    - simpl. unfold send_file. rewrite Hopen0.
      destruct (IH (records ++ Records (fastxReader file0))
                   (fold_left send_record (Records (fastxReader file0)) st))
        as (st' & Hrun & Hsent); [by apply send_records|].
      exists st'. split.
      + by destruct (ReadErr (fastxReader file0)).
      + unfold records_of. csimpl. by rewrite (assoc_L (++)). }
  destruct (Hstop [] {| id := 0; sent := [] |}) as (st' & -> & Hsent & _);
    [done|].
  by rewrite Hsent.
Qed.

End Files.

Section InputExamples.
Import Demo.
#[local] Existing Instance demoStrconv.

Lemma read_errors_are_not_reported_witness :
  queries (searchFiles (search_opt true 0.75) demoFastx demoIsStdin demoClean
             (demoStartup ["reads.fa"; "cut.fa"; "reads.fa"])
             answer_backwards)
  = send [("r1", "ACGT"); ("r2", "TTGA"); ("r3", "GGCA"); ("r1", "ACGT");
          ("r2", "TTGA")].
Proof.
  rewrite (@read_errors_are_not_reported demoStrconv (search_opt true 0.75)
             demoFastx demoIsStdin demoClean
             (demoStartup ["reads.fa"; "cut.fa"; "reads.fa"])
             ["reads.fa"; "cut.fa"; "reads.fa"]%string answer_backwards).
  - vm_compute. reflexivity.
  - unfold undisturbed. split_and!; try reflexivity.
    repeat (constructor; [right; vm_compute; intros [=]|]). constructor.
  - repeat constructor.
Defined.

Lemma unopened_file_ends_the_run_witness :
  searchFiles (search_opt true 0.75) demoFastx demoIsStdin demoClean
    (demoStartup (["reads.fa"] ++ "locked.fa" :: ["cut.fa"])) answer_backwards
  = {| queries := send [("r1", "ACGT"); ("r2", "TTGA")];
       result := Fatal "locked.fa: permission denied" |}.
Proof.
  apply (@unopened_file_ends_the_run demoStrconv (search_opt true 0.75)
           demoFastx demoIsStdin demoClean
           (demoStartup (["reads.fa"] ++ "locked.fa" :: ["cut.fa"]))
           ["reads.fa"%string] ["cut.fa"%string]
           "locked.fa" "permission denied" answer_backwards).
  - vm_compute. reflexivity.
  - repeat constructor.
  - vm_compute. reflexivity.
Defined.

End InputExamples.

End InputProps.

(* ===================================================================== *)
(** * The profile command on its input files                             *)
(* ===================================================================== *)

Module ProfileRunProps.
Import Profiler GoFacts LoopFacts ProfilerFacts ProfilerProps.

Lemma checkError_done (err : option string) :
  checkError err = Done () ↔ err = None.
Proof. destruct err; simpl; split; congruence. Qed.

Section RunFacts.
Context `{Strconv} `{Xxh3} `{Sorts}.
Variable stringSplitN : string → string → Z → list string
                        → outcome (list string).
Variable range_profile : gmap Z TargetRec → list (Z * TargetRec).

Abbreviation scan_line' opt := (ProfileInput.scan_line stringSplitN opt).
Abbreviation scan_file' opt inStream :=
  (ProfileInput.scan_file stringSplitN opt inStream).
Abbreviation profileFiles' opt inStream :=
  (ProfileInput.profileFiles stringSplitN range_profile opt inStream).

(** The slice [items] as the command makes it. *)
Definition fresh_items : list string :=
  replicate (Z.to_nat numFields) ""%string.

(** The command prints the sorted summaries of the profile that the scan
    of its files gives. *)
Lemma profileFiles_done (opt : Options)
    (inStream : string → ProfileInput.ResultFile)
    (s : ProfileInput.Startup) (out : list TargetRec) :
  profileFiles' opt inStream s = Done out ↔
  ∃ files st,
    ProfileInput.fileList s = Done files ∧
    ProfileInput.nameMapErr s = None ∧
    ProfileInput.outStreamErr s = None ∧
    foldM (scan_file' opt inStream) files (fresh_items, ∅) = Done st ∧
    out = ranked opt (range_profile st.2) st.2.
Proof.
  unfold ProfileInput.profileFiles. split.
  - intros (files & Hfiles & ([] & Hmap%checkError_done
            & ([] & Hout%checkError_done
            & (st & Hscan & [= <-])%bind_done)%bind_done)%bind_done)%bind_done.
    by exists files, st.
  - intros (files & st & -> & -> & -> & Hscan & ->).
    apply bind_done. exists files. split; [done|].
    apply bind_done. exists (). split; [done|].
    apply bind_done. exists (). split; [done|].
    apply bind_done. by exists st.
Qed.

(** ** Files of a header and nothing else *)

(** The first line of a file is its header and is never parsed: input
    files that open, are scanned without error and hold one line give an
    empty profile and no error, whatever the line is. *)
Theorem header_only_files_give_nothing (opt : Options)
    (inStream : string → ProfileInput.ResultFile)
    (s : ProfileInput.Startup) (files : list string) :
  (∀ l : list TargetRec, Quicksort Less l ≡ₚ l) →
  (∀ p, range_profile p ≡ₚ map_to_list p) →
  ProfileInput.fileList s = Done files →
  ProfileInput.nameMapErr s = None →
  ProfileInput.outStreamErr s = None →
  Forall (λ file, ProfileInput.OpenErr (inStream file) = None ∧
                  ProfileInput.ScanErr (inStream file) = None ∧
                  length (ProfileInput.Lines (inStream file)) = 1%nat)
         files →
  profileFiles' opt inStream s = Done [].
Proof.
  intros Hsort Hrange Hfiles Hmap Hout Hheaders.
  apply profileFiles_done. exists files, (fresh_items, ∅).
  split_and!; [done|done|done| |].
  - clear Hfiles. generalize fresh_items. intros items0.
    induction Hheaders as [|file files (Hopen & Hscan & Hlines) _ IH];
      simpl; [done|].
    assert (scan_file' opt inStream (items0, ∅) file = Done (items0, ∅))
      as ->; [|exact IH].
    unfold ProfileInput.scan_file. rewrite Hopen, Hscan.
    destruct (ProfileInput.Lines (inStream file)) as [|header [|l lines]];
      simpl in Hlines; [lia| |lia].
    simpl. by rewrite map_to_list_empty.
  - simpl. unfold ranked.
    assert (range_profile ∅ = []) as ->.
    { apply Permutation_nil_r. by rewrite Hrange, map_to_list_empty. }
    simpl. symmetry. apply Permutation_nil_r. by rewrite Hsort.
Qed.

(** ** A lower minimum of unique reads *)

(** Lowering --min-uniq-reads, to a value that the command accepts, never
    takes a target out of the profile and does not change what is printed
    for a target: a run that ends with the higher minimum ends with the
    lower one too, and the lines it printed are printed again. *)
Theorem lower_min_uniq_reads_keeps_targets (opt : Options) (u : Z)
    (inStream : string → ProfileInput.ResultFile)
    (s : ProfileInput.Startup) (out : list TargetRec) :
  (∀ l : list TargetRec, Quicksort Less l ≡ₚ l) →
  (∀ p, range_profile p ≡ₚ map_to_list p) →
  1 ≤ u ≤ minUReads opt →
  profileFiles' opt inStream s = Done out →
  ∃ out',
    profileFiles' (with_minUReads opt u) inStream s = Done out' ∧
    ∀ t, t ∈ out → t ∈ out'.
Proof.
  intros Hsort Hrange Hu
         (files & st & Hfiles & Hmap & Hout & Hscan & ->)%profileFiles_done.
  eexists. split.
  - apply profileFiles_done. exists files, st.
    split_and!; [done|done|done|exact Hscan|reflexivity].
  - intros t. unfold ranked.
    rewrite !Hsort, !collect_targets, !Hrange.
    intros (e & He & Hkept)%list_elem_of_omap.
    apply list_elem_of_omap. exists e. split; [done|].
    apply kept_with_less; [lia|done].
Qed.

(** ** A line that the filters set aside *)

Section SetAsideLine.
Variable opt : Options.
(** The fields of a line. *)
Variable fields : string → list string.
(** The helper writes the fields of the line over the elements of the
    slice it is handed, with Go's bounds check, and cuts the slice to
    them. *)
Hypothesis split_spec :
  ∀ (l : string) (items : list string),
    stringSplitN l tab numFields items
    = if decide (length (fields l) ≤ length items)%nat
      then Done (fields l) else Panic.

(** The scan goes the same way from two states that differ in the text of
    [items] only. *)
Definition alike (st1 st2 : ProfileInput.reading) : Prop :=
  ProfileInput.scanned st1 = ProfileInput.scanned st2 ∧
  length (ProfileInput.items st1) = length (ProfileInput.items st2).

Lemma scan_line_alike (st1 st2 st1' : ProfileInput.reading) (l : string) :
  alike st1 st2 →
  scan_line' opt st1 l = Done st1' → scan_line' opt st2 l = Done st1'.
Proof.
  intros [Hscanned Hlen]. unfold ProfileInput.scan_line.
  by rewrite !split_spec, Hscanned, Hlen.
Qed.

Lemma scan_lines_alike (lines : list string) :
  ∀ st1 st2 st1',
  alike st1 st2 →
  foldM (scan_line' opt) lines st1 = Done st1' →
  ∃ st2', foldM (scan_line' opt) lines st2 = Done st2' ∧ alike st1' st2'.
Proof.
  induction lines as [|l lines IH]; intros st1 st2 st1' Halike; simpl.
  - intros [= <-]. by exists st2.
  - intros (st & Hl & Hrest)%bind_done.
    rewrite (scan_line_alike st1 st2 st l Halike Hl). simpl.
    apply (IH st st st1'); [done|exact Hrest].
Qed.

Lemma scan_line_shorter (st st' : ProfileInput.reading) (l : string) :
  scan_line' opt st l = Done st' →
  (length (ProfileInput.items st') ≤ length (ProfileInput.items st))%nat.
Proof.
  unfold ProfileInput.scan_line. rewrite split_spec.
  destruct (decide (length (fields l) ≤ length (ProfileInput.items st))%nat);
    [|done].
  simpl. intros (sc & _ & [= <-])%bind_done. done.
Qed.

Lemma scan_lines_shorter (lines : list string) :
  ∀ st st',
  foldM (scan_line' opt) lines st = Done st' →
  (length (ProfileInput.items st') ≤ length (ProfileInput.items st))%nat.
Proof.
  induction lines as [|l lines IH]; intros st st'; simpl.
  - by intros [= <-].
  - intros (st1 & Hl%scan_line_shorter & Hrest%IH)%bind_done. lia.
Qed.

(** A line with all its fields that the filters set aside leaves the
    variables of the loop as they are, and the slice with the length it
    had. *)
Lemma scan_line_set_aside (st st' : ProfileInput.reading) (line : string) :
  length (fields line) = Z.to_nat numFields →
  set_aside opt (fields line) →
  (length (ProfileInput.items st) ≤ Z.to_nat numFields)%nat →
  scan_line' opt st line = Done st' →
  alike st' st.
Proof.
  intros Hfull Haside Hbound. unfold ProfileInput.scan_line.
  rewrite split_spec.
  destruct (decide (length (fields line)
                    ≤ length (ProfileInput.items st))%nat) as [Hfits|];
    [|done].
  simpl.
  assert (Profiler.scan_line (λ _ _ _, fields line) opt
            (ProfileInput.scanned st) line
          = Done (ProfileInput.scanned st)) as ->.
  { apply scan_set_aside; [|done].
    rewrite Hfull. change (Z.to_nat numFields) with 11%nat. lia. }
  simpl. intros [= <-]. split; simpl; [done|lia].
Qed.

(** The file [f'] is the file [f] without a line [line] after its
    header. *)
Definition without_line (line : string) (f f' : ProfileInput.ResultFile)
  : Prop :=
  ProfileInput.OpenErr f' = ProfileInput.OpenErr f ∧
  ProfileInput.ScanErr f' = ProfileInput.ScanErr f ∧
  ∃ header pre post,
    ProfileInput.Lines f = header :: pre ++ line :: post ∧
    ProfileInput.Lines f' = header :: pre ++ post.

Section TwoRuns.
Variables inStream inStream' : string → ProfileInput.ResultFile.
Variable line : string.
Hypothesis line_full : length (fields line) = Z.to_nat numFields.
Hypothesis line_aside : set_aside opt (fields line).
Hypothesis edited :
  ∀ file, inStream' file = inStream file ∨
          without_line line (inStream file) (inStream' file).

(** Between the files: the same profile, and slices of the same
    length. *)
Definition alike_files (a b : list string * gmap Z TargetRec) : Prop :=
  a.2 = b.2 ∧ length a.1 = length b.1.

Lemma scan_file_shorter (a a' : list string * gmap Z TargetRec)
    (file : string) :
  scan_file' opt inStream a file = Done a' →
  (length a'.1 ≤ length a.1)%nat.
Proof.
  unfold ProfileInput.scan_file.
  intros (_ & _ & (st & Hlines%scan_lines_shorter
          & (p & _ & (_ & _ & [= <-])%bind_done)%bind_done)%bind_done)
         %bind_done.
  done.
Qed.

Lemma scan_file_alike (a b a' : list string * gmap Z TargetRec)
    (file : string) :
  alike_files a b →
  (length a.1 ≤ Z.to_nat numFields)%nat →
  scan_file' opt inStream a file = Done a' →
  ∃ b', scan_file' opt inStream' b file = Done b' ∧ alike_files a' b'.
Proof.
  intros [Hp Hlen] Hbound. unfold ProfileInput.scan_file.
  intros ([] & Hopen%checkError_done & (st & Hlines
          & (p & Hflush & ([] & Hscan%checkError_done
          & [= <-])%bind_done)%bind_done)%bind_done)%bind_done.
  set (start items0 p0 :=
         {| ProfileInput.items := items0;
            ProfileInput.scanned := {| profile := p0; matches := ∅;
                                       prevQuery := "" |} |}) in *.
  assert (alike (start a.1 a.2) (start b.1 b.2)) as Hstart.
  { split; simpl; [by rewrite Hp|done]. }
  assert (∃ st2, foldM (scan_line' opt)
                   (tail (ProfileInput.Lines (inStream' file)))
                   (start b.1 b.2) = Done st2 ∧
                 alike st st2) as (st2 & Hlines2 & [Hsc Hit]).
  { destruct (edited file) as [->|(_ & _ & header & pre & post & Hf & Hf')].
    - by apply (scan_lines_alike _ (start a.1 a.2)).
    - rewrite Hf in Hlines. rewrite Hf'. cbn [tail] in Hlines |- *.
      rewrite foldM_app in Hlines.
      apply bind_done in Hlines as (st1 & Hpre & Hrest).
      simpl in Hrest. apply bind_done in Hrest as (st1' & Hline & Hpost).
      destruct (scan_lines_alike pre _ (start b.1 b.2) st1 Hstart Hpre)
        as (st1b & Hpre2 & Hst1).
      rewrite foldM_app, Hpre2. simpl.
      apply (scan_lines_alike post st1' st1b st); [|exact Hpost].
      pose proof (scan_lines_shorter _ _ _ Hpre) as Hshort.
      simpl in Hshort.
      destruct (scan_line_set_aside st1 st1' line line_full line_aside)
        as [Hsc Hit]; [lia|exact Hline|].
      destruct Hst1 as [Hsc1 Hit1]. split; congruence. }
  assert (ProfileInput.OpenErr (inStream' file) = None ∧
          ProfileInput.ScanErr (inStream' file) = None) as [Hopen' Hscan'].
  { destruct (edited file) as [->|(-> & -> & _)]; done. }
  exists (ProfileInput.items st2, p). split.
  - apply bind_done. exists (). split; [by apply checkError_done|].
    apply bind_done. exists st2. split; [exact Hlines2|].
    apply bind_done. exists p. split; [by rewrite <- Hsc|].
    apply bind_done. exists (). split; [by apply checkError_done|done].
  - split; simpl; [done|exact Hit].
Qed.

Lemma scan_files_alike (files : list string) :
  ∀ a b a',
  alike_files a b →
  (length a.1 ≤ Z.to_nat numFields)%nat →
  foldM (scan_file' opt inStream) files a = Done a' →
  ∃ b', foldM (scan_file' opt inStream') files b = Done b' ∧
        alike_files a' b'.
Proof.
  induction files as [|file files IH]; intros a b a' Hab Hbound; simpl.
  - intros [= <-]. by exists b.
  - intros (a1 & Hfile & Hrest)%bind_done.
    destruct (scan_file_alike a b a1 file Hab Hbound Hfile)
      as (b1 & -> & Hab1).
    simpl. apply (IH a1 b1 a'); [done| |done].
    pose proof (scan_file_shorter _ _ _ Hfile). lia.
Qed.

End TwoRuns.

(** A line of the search result that has all its fields and that one of
    the two filters sets aside (its FPR is above --max-fpr, or its query
    coverage is below the minimum) can be taken out: when the run on the
    files with the line ends, the run on the files without it ends with
    the same profile, whatever the other fields of the line hold, numbers
    or not.  The helper is taken to write the fields of a line over the
    shared slice and to cut the slice to them. *)
Theorem set_aside_line_changes_nothing
    (inStream inStream' : string → ProfileInput.ResultFile) (line : string)
    (s : ProfileInput.Startup) (out : list TargetRec) :
  length (fields line) = Z.to_nat numFields →
  set_aside opt (fields line) →
  (∀ file, inStream' file = inStream file ∨
           without_line line (inStream file) (inStream' file)) →
  profileFiles' opt inStream s = Done out →
  profileFiles' opt inStream' s = Done out.
Proof.
  intros Hfull Haside Hedited
         (files & st & Hfiles & Hmap & Hout & Hscan & ->)%profileFiles_done.
  destruct (scan_files_alike inStream inStream' line Hfull Haside Hedited
              files (fresh_items, ∅) (fresh_items, ∅) st)
    as (st' & Hscan' & [Hp _]); [done| |exact Hscan|].
  { cbn [fst]. unfold fresh_items. by rewrite length_replicate. }
  apply profileFiles_done. exists files, st'.
  split_and!; [done|done|done|exact Hscan'|by rewrite Hp].
Qed.

End SetAsideLine.

End RunFacts.

Section ProfileRunExamples.
Import Demo.

(** noisy.tsv, whose third line has the rate 0.75, above the maximum of
    0.5, and the file without that line. *)
Lemma set_aside_line_changes_nothing_witness :
  ∃ out,
    @ProfileInput.profileFiles demoStrconv demoXxh3 demoSorts demoSplitInto
      map_to_list demo_opt demoResults (profileStartup ["noisy.tsv"])
    = Done out ∧
    @ProfileInput.profileFiles demoStrconv demoXxh3 demoSorts demoSplitInto
      map_to_list demo_opt demoResultsCleaned (profileStartup ["noisy.tsv"])
    = Done out.
Proof.
  assert (∃ out,
            @ProfileInput.profileFiles demoStrconv demoXxh3 demoSorts
              demoSplitInto map_to_list demo_opt demoResults
              (profileStartup ["noisy.tsv"]) = Done out) as [out Hout]
    by (eexists; vm_compute; reflexivity).
  exists out. split; [exact Hout|].
  apply (@set_aside_line_changes_nothing demoStrconv demoXxh3 demoSorts
           demoSplitInto map_to_list demo_opt demoFields
           (λ l items, eq_refl) demoResults demoResultsCleaned noisy_line
           (profileStartup ["noisy.tsv"]) out).
  - vm_compute. reflexivity.
  - exists 0.75%float. split; [reflexivity|]. left. reflexivity.
  - intros file. unfold demoResultsCleaned.
    destruct (bool_decide (file = "noisy.tsv")) eqn:Hfile; [|by left].
    apply bool_decide_eq_true in Hfile as ->. right.
    split; [reflexivity|]. split; [reflexivity|].
    exists "#query"%string, [line "r1" "X" "0" "1"],
           [line "r3" "X" "0" "1"].
    split; reflexivity.
  - exact Hout.
Defined.

(** header.tsv, a search result without a read. *)
Lemma header_only_files_give_nothing_witness :
  @ProfileInput.profileFiles demoStrconv demoXxh3 demoSorts demoSplitInto
    map_to_list demo_opt demoResults
    (profileStartup ["header.tsv"; "header.tsv"])
  = Done [].
Proof.
  apply (@header_only_files_give_nothing demoStrconv demoXxh3 demoSorts
           demoSplitInto map_to_list demo_opt demoResults
           (profileStartup ["header.tsv"; "header.tsv"])
           ["header.tsv"; "header.tsv"]%string
           demo_sorts_perm demo_range_perm).
  - reflexivity.
  - reflexivity.
  - reflexivity.
  - repeat constructor.
Defined.

(** xy.tsv with a minimum of 2 unique reads and with a minimum of 1. *)
Lemma lower_min_uniq_reads_keeps_targets_witness :
  ∃ out out',
    @ProfileInput.profileFiles demoStrconv demoXxh3 demoSorts demoSplitInto
      map_to_list stricter_opt demoResults (profileStartup ["xy.tsv"])
    = Done out ∧
    @ProfileInput.profileFiles demoStrconv demoXxh3 demoSorts demoSplitInto
      map_to_list (with_minUReads stricter_opt 1) demoResults
      (profileStartup ["xy.tsv"])
    = Done out' ∧
    out ≠ [] ∧ ∀ t, t ∈ out → t ∈ out'.
Proof.
  assert (∃ out,
            @ProfileInput.profileFiles demoStrconv demoXxh3 demoSorts
              demoSplitInto map_to_list stricter_opt demoResults
              (profileStartup ["xy.tsv"]) = Done out ∧ out ≠ [])
    as (out & Hout & Hne)
    by (eexists; split; [vm_compute; reflexivity|discriminate]).
  destruct (@lower_min_uniq_reads_keeps_targets demoStrconv demoXxh3
              demoSorts demoSplitInto map_to_list stricter_opt 1 demoResults
              (profileStartup ["xy.tsv"]) out demo_sorts_perm
              demo_range_perm)
    as (out' & Hout' & Hsub); [simpl; lia|exact Hout|].
  exists out, out'. split; [exact Hout|]. split; [exact Hout'|].
  split; [exact Hne|exact Hsub].
Defined.

End ProfileRunExamples.

End ProfileRunProps.
